(** * nodejs-thread: worker channels, the worker pool and the bounded runner

    A shallow embedding of the three TypeScript classes of the repository,
    [Thread] (thread.ts), [Queue] (queue.ts) and [Parallel] (parallel.ts),
    together with the small part of the JavaScript run time they rely on:
    promises, the reactions registered on them, timers and worker events.

    JavaScript runs every callback to completion on one control thread, so
    each method call and each callback is one atomic transition of the
    model; the interleaving of callbacks is the only non-determinism and is
    given by a list of events. *)

From Stdlib Require Import ZArith Bool.
From stdpp Require Import base tactics option list strings.

Local Open Scope Z_scope.

(** ** Run-time preliminaries *)

(** A JavaScript [Error] object. *)
Record Error : Type := MkError { message : string }.

(** The error raised by calling something that is not a function, or by
    reading a property of [undefined]. *)
Definition TypeError (what : string) : Error := MkError what.

(** How a synchronous piece of code ends: it returns a value in a final
    state, it throws (the state reached at the throw is kept, since a
    [catch] continues from it), or it never returns. *)
Inductive outcome (St R : Type) : Type :=
| Normal (r : R) (s : St)
| Threw (e : Error) (s : St)
| Diverges.

Arguments Normal {St R} r s.
Arguments Threw {St R} e s.
Arguments Diverges {St R}.

Definition bind {St A B : Type} (m : outcome St A) (f : A → St → outcome St B)
  : outcome St B :=
  match m with
  | Normal r s => f r s
  | Threw e s => Threw e s
  | Diverges => Diverges
  end.

Module Promise.

(** The three states of a promise carrying values of type [A]. *)
Inductive state (A : Type) : Type :=
| Pending
| Fulfilled (v : A)
| Rejected (e : Error).

Arguments Pending {A}.
Arguments Fulfilled {A} v.
Arguments Rejected {A} e.

(** All promises created so far; a promise is named by its position. *)
Abbreviation store A := (list (state A)) (only parsing).

Section Store.
Context {A : Type}.

(** [new Promise(...)]: a fresh pending promise. *)
Definition alloc (h : store A) : nat * store A :=
  (length h, h ++ [Pending]).

(** The [resolve] function of promise [p]: settles it when it is still
    pending and does nothing otherwise. *)
Definition resolve (p : nat) (v : A) (h : store A) : store A :=
  match h !! p with
  | Some Pending => <[p := Fulfilled v]> h
  | _ => h
  end.

(** The [reject] function of promise [p]. *)
Definition reject (p : nat) (e : Error) (h : store A) : store A :=
  match h !! p with
  | Some Pending => <[p := Rejected e]> h
  | _ => h
  end.

Definition is_pending (p : nat) (h : store A) : bool :=
  match h !! p with
  | Some Pending => true
  | _ => false
  end.

Definition is_settled (p : nat) (h : store A) : bool :=
  match h !! p with
  | Some (Fulfilled _) | Some (Rejected _) => true
  | _ => false
  end.
End Store.

End Promise.

Import Promise.

(** ** thread.ts *)

Module Thread.
Section Thread.
Context {K T : Type}.

(** What the coordinator sees of a [worker_threads] worker: the script
    it runs, the messages passed to [postMessage], and whether
    [terminate] has been called on it. *)
Record Worker : Type := MkWorker {
  script : string;
  posted : list K;
  terminated : bool
}.

(** The fields of class [Thread]. [_resolver] and [_rejector] hold the
    [resolve] and [reject] functions of a promise, or are unset. *)
Record t : Type := MkThread {
  _worker : Worker;
  _resolver : option nat;
  _rejector : option nat
}.

(** What a request is fulfilled with: a value of type [T], [null], or
    [undefined]. *)
Inductive reply : Type :=
| Value (val : T)
| Null
| Undefined.

(** The events a worker emits, as subscribed to in the constructor. The
    value of an [error] event is whatever the worker threw, an [Error] or
    not: [Some e] stands for a truthy value, [None] for a falsy one (the
    empty string, [0], [null], [undefined]). *)
Inductive event : Type :=
| OnMessage (val : T)
| OnError (err : option Error)
| OnExit (signal : Z).

(** [new Thread(script)]. *)
Definition constructor (script : string) : t :=
  {| _worker := MkWorker script [] false;
     _resolver := None;
     _rejector := None |}.

Definition postMessage (value : K) (w : Worker) : Worker :=
  MkWorker (script w) (posted w ++ [value]) (terminated w).

Definition terminate (w : Worker) : Worker :=
  MkWorker (script w) (posted w) true.

(** [post(value)]: a new promise whose two functions are stored in the
    thread, then the value is sent. Returns the promise. *)
Definition post (value : K) (th : t) (h : store reply)
  : t * nat * store reply :=
  let '(p, h') := alloc h in
  ({| _worker := postMessage value (_worker th);
      _resolver := Some p;
      _rejector := Some p |}, p, h').

(** [close()]. *)
Definition close (th : t) : t :=
  {| _worker := terminate (_worker th);
     _resolver := _resolver th;
     _rejector := _rejector th |}.

(** Calling a stored function: an unset field is not callable. *)
Definition call (f : option nat) (act : nat → store reply → store reply)
    (th : t) (h : store reply) : outcome (t * store reply) unit :=
  match f with
  | Some p => Normal tt (th, act p h)
  | None => Threw (TypeError "not a function") (th, h)
  end.

(** [_receiveMessage(err, data?)]. The test [if (err)] is one of
    truthiness: [err] is [Some e] for a truthy value and [None] for a
    falsy one, [null] included. A [data] left out is [undefined]. *)
Definition _receiveMessage (err : option Error) (data : reply)
    (th : t) (h : store reply) : outcome (t * store reply) unit :=
  if negb (bool_decide (is_Some (_resolver th)))
     || negb (bool_decide (is_Some (_rejector th)))
  then Normal tt (th, h)
  else
    match err with
    | Some e => call (_rejector th) (λ p, reject p e) th h
    | None => call (_resolver th) (λ p, resolve p data) th h
    end.

(** The three listeners installed by the constructor. *)
Definition on_event (ev : event) (th : t) (h : store reply)
  : outcome (t * store reply) unit :=
  match ev with
  | OnMessage val => _receiveMessage None (Value val) th h
  | OnError err => _receiveMessage err Undefined th h
  | OnExit signal =>
      if signal =? 0
      then _receiveMessage (Some (MkError "Internal error")) Undefined th h
      else _receiveMessage None Null th h
  end.

(** A sequence of worker events reaching the thread, one after the
    other. *)
Fixpoint on_events (evs : list event) (th : t) (h : store reply)
  : outcome (t * store reply) unit :=
  match evs with
  | [] => Normal tt (th, h)
  | ev :: rest => bind (on_event ev th h) (λ _ s, on_events rest s.1 s.2)
  end.

(** A request is pending on [th] when its two functions belong to one
    promise that has not settled yet. *)
Definition pending (th : t) (h : store reply) (p : nat) : Prop :=
  _resolver th = Some p ∧ _rejector th = Some p ∧ h !! p = Some Pending.

(** *** [Thread.Execute]

    An [async] function: it runs up to the [await], and is resumed by
    the settlement of the awaited promise. [result] is the promise the
    call returned to its caller. *)
Record Execution : Type := MkExecution {
  thread : t;
  request : nat;
  result : nat;
  finished : bool
}.

(** The part before the [await]. *)
Definition Execute (script : string) (data : K) (h : store reply)
  : Execution * store reply :=
  let '(r, h0) := alloc h in
  let th := constructor script in
  let '(th', p, h1) := post data th h0 in
  (MkExecution th' p r false, h1).

(** The part after the [await], run once the request has settled: on
    fulfilment the thread is closed and the value returned; on rejection
    the [await] throws and the function ends there. *)
Definition Execute_resume (x : Execution) (h : store reply)
  : Execution * store reply :=
  if finished x then (x, h)
  else
    match h !! request x with
    | Some (Fulfilled v) =>
        (MkExecution (close (thread x)) (request x) (result x) true,
         resolve (result x) v h)
    | Some (Rejected e) =>
        (MkExecution (thread x) (request x) (result x) true,
         reject (result x) e h)
    | _ => (x, h)
    end.

(** A worker event reaching the thread of an execution. *)
Definition Execute_event (ev : event) (x : Execution) (h : store reply)
  : Execution * store reply :=
  match on_event ev (thread x) h with
  | Normal _ (th, h') | Threw _ (th, h') =>
      (MkExecution th (request x) (result x) (finished x), h')
  | Diverges => (x, h)
  end.
End Thread.

Arguments Worker : clear implicits.
Arguments t : clear implicits.
Arguments reply : clear implicits.
Arguments event : clear implicits.
Arguments Execution : clear implicits.
End Thread.

(** ** queue.ts *)

Module Queue.
Section Queue.
Context {K T : Type}.

(** The argument of [post]: one item or an array of items. *)
Inductive items : Type :=
| One (item : K)
| Many (batch : list K).

(** What the caller's handler was called with: [(error, data)]. *)
Definition delivery : Type := option Error * Thread.reply T.

(** The fields of class [Queue], followed by the run-time state the
    class acts on: the promises made by [Thread.post] ([replies]), the
    promises made by [Queue.post] and [Queue.stop] ([signals]), the
    [then]/[catch] pairs registered by [_consume] and not run yet
    ([reactions]: awaited promise and thread index), the calls made to
    the handler ([delivered]) and the [stop] calls asleep in their
    polling loop ([stopping]). The handler is the caller's: the model
    records whether there is one and what it was called with, and is told
    with each settlement whether the call returns or throws. The handler
    is taken not to call back into the queue. [_concurrence] is a number
    of channels, taken to be a natural number. *)
Record t : Type := MkQueue {
  _consumerScript : string;
  _concurrence : nat;
  _handler : bool;
  _queue : list K;
  _pool : list (Thread.t K);
  _availableThread : list nat;
  _active : bool;
  _onceResolver : option nat;
  replies : store (Thread.reply T);
  signals : store unit;
  reactions : list (nat * nat);
  delivered : list delivery;
  stopping : list nat
}.

Definition set_queue (x : list K) (q : t) : t :=
  MkQueue (_consumerScript q) (_concurrence q) (_handler q) x (_pool q)
    (_availableThread q) (_active q) (_onceResolver q) (replies q)
    (signals q) (reactions q) (delivered q) (stopping q).

Definition set_pool (x : list (Thread.t K)) (q : t) : t :=
  MkQueue (_consumerScript q) (_concurrence q) (_handler q) (_queue q) x
    (_availableThread q) (_active q) (_onceResolver q) (replies q)
    (signals q) (reactions q) (delivered q) (stopping q).

Definition set_availableThread (x : list nat) (q : t) : t :=
  MkQueue (_consumerScript q) (_concurrence q) (_handler q) (_queue q)
    (_pool q) x (_active q) (_onceResolver q) (replies q)
    (signals q) (reactions q) (delivered q) (stopping q).

Definition set_active (x : bool) (q : t) : t :=
  MkQueue (_consumerScript q) (_concurrence q) (_handler q) (_queue q)
    (_pool q) (_availableThread q) x (_onceResolver q) (replies q)
    (signals q) (reactions q) (delivered q) (stopping q).

Definition set_onceResolver (x : option nat) (q : t) : t :=
  MkQueue (_consumerScript q) (_concurrence q) (_handler q) (_queue q)
    (_pool q) (_availableThread q) (_active q) x (replies q)
    (signals q) (reactions q) (delivered q) (stopping q).

Definition set_replies (x : store (Thread.reply T)) (q : t) : t :=
  MkQueue (_consumerScript q) (_concurrence q) (_handler q) (_queue q)
    (_pool q) (_availableThread q) (_active q) (_onceResolver q) x
    (signals q) (reactions q) (delivered q) (stopping q).

Definition set_signals (x : store unit) (q : t) : t :=
  MkQueue (_consumerScript q) (_concurrence q) (_handler q) (_queue q)
    (_pool q) (_availableThread q) (_active q) (_onceResolver q)
    (replies q) x (reactions q) (delivered q) (stopping q).

Definition set_reactions (x : list (nat * nat)) (q : t) : t :=
  MkQueue (_consumerScript q) (_concurrence q) (_handler q) (_queue q)
    (_pool q) (_availableThread q) (_active q) (_onceResolver q)
    (replies q) (signals q) x (delivered q) (stopping q).

Definition set_delivered (x : list delivery) (q : t) : t :=
  MkQueue (_consumerScript q) (_concurrence q) (_handler q) (_queue q)
    (_pool q) (_availableThread q) (_active q) (_onceResolver q)
    (replies q) (signals q) (reactions q) x (stopping q).

Definition set_stopping (x : list nat) (q : t) : t :=
  MkQueue (_consumerScript q) (_concurrence q) (_handler q) (_queue q)
    (_pool q) (_availableThread q) (_active q) (_onceResolver q)
    (replies q) (signals q) (reactions q) (delivered q) x.

(** [new Queue(consumerScript, concurrence, handler?)]. *)
Definition constructor (consumerScript : string) (concurrence : nat)
    (handler : bool) : t :=
  MkQueue consumerScript concurrence handler [] [] [] false None
    [] [] [] [] [].

(** [_consume()]: the guard, the two [shift]s, and the [post] on the
    chosen thread with its [then]/[catch] pair. Reading a missing slot
    of [_pool] gives [undefined], and calling [post] on it throws. *)
Definition _consume (q : t) : outcome t unit :=
  if negb (_active q) then Normal tt q
  else
    match _availableThread q, _queue q with
    | [], _ | _, [] => Normal tt q
    | threadIdx :: idle, item :: rest =>
        let q1 := set_availableThread idle (set_queue rest q) in
        match _pool q !! threadIdx with
        | None => Threw (TypeError "thread is undefined") q1
        | Some th =>
            let '(th', p, h') := Thread.post item th (replies q) in
            Normal tt
              (set_reactions (reactions q ++ [(p, threadIdx)])
                 (set_replies h'
                    (set_pool (<[threadIdx := th']> (_pool q)) q1)))
        end
    end.

(** The [while] loop of [_fillThreads()], with a bound on the number of
    iterations: running out of it stands for a loop that does not
    end. *)
Fixpoint _fillThreads_loop (fuel : nat) (q : t) : outcome t unit :=
  if (0 <? length (_availableThread q))%nat
     && (0 <? length (_queue q))%nat
  then
    match fuel with
    | O => Diverges
    | S fuel' => bind (_consume q) (λ _ q', _fillThreads_loop fuel' q')
    end
  else Normal tt q.

(** [_fillThreads()]. Every iteration that changes the state removes an
    item from the backlog, so as many iterations as there are items are
    enough for the loop to end if it ends at all
    (see [_fillThreads_loop_enough] and [_fillThreads_loop_stuck]). *)
Definition _fillThreads (q : t) : outcome t unit :=
  _fillThreads_loop (length (_queue q)) q.

(** The call [this._handler(err, response)], made if there is a handler.
    [thrown] is what the handler does when it is called: it returns, or it
    throws the given error. *)
Definition call_handler (err : option Error) (response : Thread.reply T)
    (thrown : option Error) (q : t) : outcome t unit :=
  if _handler q
  then
    let q' := set_delivered (delivered q ++ [(err, response)]) q in
    match thrown with
    | Some e => Threw e q'
    | None => Normal tt q'
    end
  else Normal tt q.

(** [_resolve(threadIdx, err, response)]. *)
Definition _resolve (threadIdx : nat) (err : option Error)
    (response : Thread.reply T) (thrown : option Error) (q : t)
  : outcome t unit :=
  let q1 := set_availableThread (_availableThread q ++ [threadIdx]) q in
  bind (call_handler err response thrown q1) (λ _ q2,
  bind (_fillThreads q2) (λ _ q3,
    match _onceResolver q3, _queue q3 with
    | Some r, [] => Normal tt (set_signals (resolve r tt (signals q3)) q3)
    | _, _ => Normal tt q3
    end)).

(** [initialize()]. *)
Definition spawn (q : t) (i : nat) : t :=
  set_availableThread (_availableThread q ++ [i])
    (set_pool (_pool q ++ [Thread.constructor (_consumerScript q)]) q).

Definition initialize (q : t) : outcome t unit :=
  let q1 := set_active true q in
  _fillThreads (fold_left spawn (seq 0 (_concurrence q1)) q1).

(** [pause()]. *)
Definition pause (q : t) : outcome t unit :=
  Normal tt (set_active false q).

(** [resume()]. *)
Definition resume (q : t) : outcome t unit :=
  _fillThreads (set_active true q).

(** What [post] pushes on the backlog: the item, or the items of the
    array in their order. *)
Definition pushed (i : items) : list K :=
  match i with
  | One item => [item]
  | Many batch => batch
  end.

(** [post(items, once)]: the promise is created, its executor runs at
    once, and the promise is returned. An executor that throws rejects
    the promise. *)
Definition post (i : items) (once : bool) (q : t) : outcome t nat :=
  let '(p, sg) := alloc (signals q) in
  let q1 := set_queue (_queue q ++ pushed i) (set_signals sg q) in
  let filled :=
    if (0 <? length (_availableThread q1))%nat
    then _fillThreads q1
    else Normal tt q1 in
  match filled with
  | Normal _ q2 =>
      if once
      then Normal p (set_onceResolver (Some p) q2)
      else Normal p (set_signals (resolve p tt (signals q2)) q2)
  | Threw e q2 => Normal p (set_signals (reject p e (signals q2)) q2)
  | Diverges => Diverges
  end.

(** [stop()], an [async] function. [stop_loop p] is the loop test and
    what follows it, for the call that returned promise [p]: either the
    call goes to sleep for another interval, or it closes every thread
    of the pool and returns. *)
Definition stop_loop (p : nat) (q : t) : t :=
  if negb (length (_availableThread q) =? _concurrence q)%nat
  then set_stopping (stopping q ++ [p]) q
  else set_signals (resolve p tt (signals q))
         (set_pool (Thread.close <$> _pool q) q).

Definition stop (q : t) : outcome t nat :=
  let '(p, sg) := alloc (signals q) in
  Normal p (stop_loop p (set_active false (set_signals sg q))).

(** The timer of [Thread.Sleep(1000)] fires for the call with promise
    [p]. *)
Definition stop_wake (p : nat) (q : t) : outcome t unit :=
  if bool_decide (p ∈ stopping q)
  then Normal tt
         (stop_loop p
            (set_stopping (filter (λ p', p' ≠ p) (stopping q)) q))
  else Normal tt q.

(** The worker of thread [idx] emits an event. *)
Definition worker_emits (idx : nat) (ev : Thread.event T) (q : t)
  : outcome t unit :=
  match _pool q !! idx with
  | None => Normal tt q
  | Some th =>
      match Thread.on_event ev th (replies q) with
      | Normal _ (th', h') =>
          Normal tt (set_replies h' (set_pool (<[idx := th']> (_pool q)) q))
      | Threw e (th', h') =>
          Threw e (set_replies h' (set_pool (<[idx := th']> (_pool q)) q))
      | Diverges => Diverges
      end
  end.

(** The [k]-th registered [then]/[catch] pair runs, once the promise it
    waits for has settled: [then] calls [_resolve] with the value; a
    rejection, or an exception thrown by the [then] callback, reaches
    [catch], which calls [_resolve] with the error. [thrown1] and
    [thrown2] are what the handler does at the first and at the second of
    these calls of [_resolve]. *)
Definition settle (k : nat) (thrown1 thrown2 : option Error) (q : t)
  : outcome t unit :=
  match reactions q !! k with
  | None => Normal tt q
  | Some (p, threadIdx) =>
      let q1 := set_reactions (delete k (reactions q)) q in
      match replies q !! p with
      | Some (Fulfilled val) =>
          match _resolve threadIdx None val thrown1 q1 with
          | Threw e q2 =>
              _resolve threadIdx (Some e) Thread.Null thrown2 q2
          | r => r
          end
      | Some (Rejected err) =>
          _resolve threadIdx (Some err) Thread.Null thrown1 q1
      | _ => Normal tt q
      end
  end.

(** The calls and callbacks that can happen to a queue. *)
Inductive op : Type :=
| Initialize
| Pause
| Resume
| Post (i : items) (once : bool)
| Stop
| StopWakes (p : nat)
| WorkerEmits (idx : nat) (ev : Thread.event T)
| Settle (k : nat) (thrown1 thrown2 : option Error).

Definition forget {A : Type} (r : outcome t A) : outcome t unit :=
  bind r (λ _ q, Normal tt q).

Definition step (o : op) (q : t) : outcome t unit :=
  match o with
  | Initialize => initialize q
  | Pause => pause q
  | Resume => resume q
  | Post i once => forget (post i once q)
  | Stop => forget (stop q)
  | StopWakes p => stop_wake p q
  | WorkerEmits idx ev => worker_emits idx ev q
  | Settle k thrown1 thrown2 => settle k thrown1 thrown2 q
  end.

Fixpoint exec (ops : list op) (q : t) : outcome t unit :=
  match ops with
  | [] => Normal tt q
  | o :: rest => bind (step o q) (λ _ q', exec rest q')
  end.

(** The operations of an orderly run after its [initialize()]: no further
    [initialize()], and no settlement at which the handler throws. *)
Definition orderly (o : op) : bool :=
  match o with
  | Initialize => false
  | Settle _ (Some _) _ => false
  | _ => true
  end.

(** A channel is busy from the moment [_consume] posts an item on it
    until [_resolve] runs for that post. *)
Definition busy (q : t) (idx : nat) : Prop :=
  idx ∈ (reactions q).*2.

#[export] Instance busy_dec (q : t) (idx : nat) : Decision (busy q idx).
Proof. unfold busy. apply _. Defined.

(** The number of busy channels of the pool. *)
Definition busyCount (q : t) : nat :=
  length (filter (busy q) (seq 0 (length (_pool q)))).

Definition all_terminated (q : t) : Prop :=
  Forall (λ th, Thread.terminated (Thread._worker th) = true) (_pool q).
End Queue.

Arguments t : clear implicits.
Arguments op : clear implicits.
Arguments items : clear implicits.
End Queue.

(** ** parallel.ts *)

Module Parallel.

(** [IParallelOptions]. The numbers are taken to be integers. The handler
    is the caller's: the model records the calls made to it, and each
    call's success or failure comes back as an event. *)
Record IParallelOptions : Type := MkOptions {
  opt_name : string;
  opt_count : Z;
  opt_concurrency : Z
}.

(** Where an invocation of the [async] method [consume] is suspended:
    at the first [await this.handler(...)], at the [setTimeout] of the
    given delay, at the second [await this.handler(...)]; or it has run
    to its end. *)
Inductive phase : Type :=
| AwaitHandler
| AwaitBackoff (ms : Z)
| AwaitRetry
| Ended.

(** The fields of class [Parallel], followed by the run-time state:
    the promises returned by [pause] and [waitFinish], one entry per
    invocation of [consume] ([loops]), the calls made to the handler
    ([invoked]: the invocation of [consume] that made the call, and the
    argument), the value each invocation of [consume] left in
    [offsetCount] after its increment ([claimed]), the offsets written by
    the error branch to the console ([logged]) and the [pause] calls
    asleep in their polling loop ([pausing]). *)
Record t : Type := MkParallel {
  name : string;
  count : Z;
  offsetCount : Z;
  concurrency : Z;
  paused : bool;
  processingCount : Z;
  finishHandler : option nat;
  promises : store unit;
  loops : list phase;
  invoked : list (nat * Z);
  claimed : list Z;
  logged : list Z;
  pausing : list nat
}.

Definition set_offsetCount (x : Z) (s : t) : t :=
  MkParallel (name s) (count s) x (concurrency s) (paused s)
    (processingCount s) (finishHandler s) (promises s) (loops s)
    (invoked s) (claimed s) (logged s) (pausing s).

Definition set_concurrency (x : Z) (s : t) : t :=
  MkParallel (name s) (count s) (offsetCount s) x (paused s)
    (processingCount s) (finishHandler s) (promises s) (loops s)
    (invoked s) (claimed s) (logged s) (pausing s).

Definition set_paused (x : bool) (s : t) : t :=
  MkParallel (name s) (count s) (offsetCount s) (concurrency s) x
    (processingCount s) (finishHandler s) (promises s) (loops s)
    (invoked s) (claimed s) (logged s) (pausing s).

Definition set_processingCount (x : Z) (s : t) : t :=
  MkParallel (name s) (count s) (offsetCount s) (concurrency s) (paused s)
    x (finishHandler s) (promises s) (loops s)
    (invoked s) (claimed s) (logged s) (pausing s).

Definition set_finishHandler (x : option nat) (s : t) : t :=
  MkParallel (name s) (count s) (offsetCount s) (concurrency s) (paused s)
    (processingCount s) x (promises s) (loops s)
    (invoked s) (claimed s) (logged s) (pausing s).

Definition set_promises (x : store unit) (s : t) : t :=
  MkParallel (name s) (count s) (offsetCount s) (concurrency s) (paused s)
    (processingCount s) (finishHandler s) x (loops s)
    (invoked s) (claimed s) (logged s) (pausing s).

Definition set_loops (x : list phase) (s : t) : t :=
  MkParallel (name s) (count s) (offsetCount s) (concurrency s) (paused s)
    (processingCount s) (finishHandler s) (promises s) x
    (invoked s) (claimed s) (logged s) (pausing s).

Definition set_invoked (x : list (nat * Z)) (s : t) : t :=
  MkParallel (name s) (count s) (offsetCount s) (concurrency s) (paused s)
    (processingCount s) (finishHandler s) (promises s) (loops s)
    x (claimed s) (logged s) (pausing s).

Definition set_claimed (x : list Z) (s : t) : t :=
  MkParallel (name s) (count s) (offsetCount s) (concurrency s) (paused s)
    (processingCount s) (finishHandler s) (promises s) (loops s)
    (invoked s) x (logged s) (pausing s).

Definition set_logged (x : list Z) (s : t) : t :=
  MkParallel (name s) (count s) (offsetCount s) (concurrency s) (paused s)
    (processingCount s) (finishHandler s) (promises s) (loops s)
    (invoked s) (claimed s) x (pausing s).

Definition set_pausing (x : list nat) (s : t) : t :=
  MkParallel (name s) (count s) (offsetCount s) (concurrency s) (paused s)
    (processingCount s) (finishHandler s) (promises s) (loops s)
    (invoked s) (claimed s) (logged s) x.

(** [a || b] on numbers: [0] is the falsy one. *)
Definition or_else (a b : Z) : Z := if a =? 0 then b else a.

(** [new Parallel(options)]. *)
Definition constructor (options : IParallelOptions) : t :=
  let s :=
    MkParallel (opt_name options) (opt_count options) 0
      (or_else (opt_concurrency options) (opt_count options))
      false 0 None [] [] [] [] [] [] in
  if count s <? concurrency s then set_concurrency (count s) s else s.

(** [consume()] up to its first [await]: the two increments and the call
    of the handler with the cursor as it then is. *)
Definition consume (s : t) : t :=
  let s1 := set_offsetCount (offsetCount s + 1)
              (set_processingCount (processingCount s + 1) s) in
  let id := length (loops s1) in
  set_claimed (claimed s1 ++ [offsetCount s1])
    (set_invoked (invoked s1 ++ [(id, offsetCount s1)])
       (set_loops (loops s1 ++ [AwaitHandler]) s1)).

(** The end of [consume()], after the [try]: invocation [id] is over. *)
Definition consume_end (id : nat) (s : t) : t :=
  let s1 := set_loops (<[id := Ended]> (loops s))
              (set_processingCount (processingCount s - 1) s) in
  if offsetCount s1 =? count s1
  then
    match finishHandler s1 with
    | Some p => set_promises (resolve p tt (promises s1)) s1
    | None => s1
    end
  else if negb (paused s1)
          && (offsetCount s1 + processingCount s1 <? count s1)
  then consume s1
  else s1.

(** The awaited call of the handler made by invocation [id] succeeds. *)
Definition handler_resolves (id : nat) (s : t) : t :=
  match loops s !! id with
  | Some AwaitHandler | Some AwaitRetry => consume_end id s
  | _ => s
  end.

(** The awaited call of the handler made by invocation [id] fails: the
    first time the [catch] block starts its timer, the second time the
    inner [catch] writes the cursor to the console. *)
Definition handler_rejects (id : nat) (s : t) : t :=
  match loops s !! id with
  | Some AwaitHandler => set_loops (<[id := AwaitBackoff 5000]> (loops s)) s
  | Some AwaitRetry =>
      consume_end id (set_logged (logged s ++ [offsetCount s]) s)
  | _ => s
  end.

(** The timer of invocation [id] fires: the handler is called again,
    with the cursor as it then is. *)
Definition timer_fires (id : nat) (s : t) : t :=
  match loops s !! id with
  | Some (AwaitBackoff _) =>
      set_invoked (invoked s ++ [(id, offsetCount s)])
        (set_loops (<[id := AwaitRetry]> (loops s)) s)
  | _ => s
  end.

(** [start()]; the bound of the [for] loop is not changed by its body. *)
Definition start (s : t) : t :=
  Nat.iter (Z.to_nat (concurrency s)) consume s.

(** [Parallel.create(name, handler, count, concurrency)]. *)
Definition create (name : string) (count concurrency : Z) : t :=
  start (constructor (MkOptions name count concurrency)).

(** In [pause()] the test reads [this.pause], the method, and a function
    object is truthy. *)
Definition this_pause_truthy : bool := true.

(** The loop test of the executor in [pause()] and what follows it, for
    the call that returned promise [p]. *)
Definition pause_loop (p : nat) (s : t) : t :=
  if 0 <? processingCount s
  then set_pausing (pausing s ++ [p]) s
  else set_promises (resolve p tt (promises s)) s.

(** [pause()]; returns the promise. *)
Definition pause (s : t) : nat * t :=
  let '(p, h) := alloc (promises s) in
  if (processingCount s =? 0) || this_pause_truthy
  then (p, set_promises (resolve p tt h) s)
  else (p, pause_loop p (set_paused true (set_promises h s))).

(** The timer of [sleep(500)] fires for the [pause] call with promise
    [p]. *)
Definition pause_wake (p : nat) (s : t) : t :=
  if bool_decide (p ∈ pausing s)
  then pause_loop p (set_pausing (filter (λ p', p' ≠ p) (pausing s)) s)
  else s.

(** [resume()]. *)
Definition resume (s : t) : t :=
  if 0 <? processingCount s then s
  else
    let s1 := set_paused false s in
    let s2 := set_concurrency
                (Z.min (concurrency s1) (count s1 - concurrency s1)) s1 in
    Nat.iter (Z.to_nat (concurrency s2)) consume s2.

(** [waitFinish()]; returns the promise. *)
Definition waitFinish (s : t) : nat * t :=
  let '(p, h) := alloc (promises s) in
  if offsetCount s =? count s
  then (p, set_promises (resolve p tt h) s)
  else (p, set_finishHandler (Some p) (set_promises h s)).

(** The calls and callbacks that can happen to a runner. *)
Inductive event : Type :=
| HandlerResolves (id : nat)
| HandlerRejects (id : nat)
| TimerFires (id : nat)
| Pause
| PauseWakes (p : nat)
| Resume
| WaitFinish.

Definition step (e : event) (s : t) : t :=
  match e with
  | HandlerResolves id => handler_resolves id s
  | HandlerRejects id => handler_rejects id s
  | TimerFires id => timer_fires id s
  | Pause => (pause s).2
  | PauseWakes p => pause_wake p s
  | Resume => resume s
  | WaitFinish => (waitFinish s).2
  end.

Definition exec (es : list event) (s : t) : t :=
  fold_left (λ s e, step e s) es s.

(** The arguments of the calls of the handler made by invocation [id],
    in order. *)
Definition calls_of (id : nat) (s : t) : list Z :=
  (filter (λ c, c.1 = id) (invoked s)).*2.

End Parallel.

(** * Invariants *)

Section QueueInvariants.
Context {K T : Type}.
Import Queue.
Implicit Types (q : Queue.t K T).

(** Every index that is idle or in flight names a slot of the pool. *)
Definition indices_in_pool q : Prop :=
  Forall (λ i, (i < length (_pool q))%nat)
    (_availableThread q ++ (reactions q).*2).

(** What a dispatch pass may change: items leave the backlog, indices
    move from the idle list to the reactions, threads of the pool get
    requests. The rest stays. *)
Record dispatched q q' : Prop := MkDispatched {
  dispatched_concurrence : _concurrence q' = _concurrence q;
  dispatched_active : _active q' = _active q;
  dispatched_once : _onceResolver q' = _onceResolver q;
  dispatched_signals : signals q' = signals q;
  dispatched_stopping : stopping q' = stopping q;
  dispatched_pool : length (_pool q') = length (_pool q);
  dispatched_closed : all_terminated q → all_terminated q';
  dispatched_indices :
    _availableThread q' ++ (reactions q').*2
    ≡ₚ _availableThread q ++ (reactions q).*2;
  dispatched_backlog : (length (_queue q') ≤ length (_queue q))%nat
}.

(** The promises of sleeping [stop] calls are pending, and the drain
    waiter is a promise that exists and is not one of them. *)
Record signals_ok q : Prop := MkSignalsOk {
  stopping_pending :
    Forall (λ p, signals q !! p = Some Pending) (stopping q);
  once_known :
    ∀ r, _onceResolver q = Some r →
         (r < length (signals q))%nat ∧ r ∉ stopping q
}.

(** What holds of every queue reachable from the constructor. *)
Definition sound q : Prop := indices_in_pool q ∧ signals_ok q.

(** What the operations of an orderly run keep. *)
Record keeps q q' : Prop := MkKeeps {
  keeps_concurrence : _concurrence q' = _concurrence q;
  keeps_pool : length (_pool q') = length (_pool q);
  keeps_indices :
    _availableThread q' ++ (reactions q').*2
    ≡ₚ _availableThread q ++ (reactions q).*2
}.

(** A pool of [C] channels, each index of which is either idle or in
    flight, and not both. *)
Record accounted (C : nat) q : Prop := MkAccounted {
  accounted_concurrence : _concurrence q = C;
  accounted_pool : length (_pool q) = C;
  accounted_indices :
    _availableThread q ++ (reactions q).*2 ≡ₚ seq 0 C
}.

End QueueInvariants.

Section ParallelInvariants.
Import Parallel.

(** What every state of a runner satisfies: the values claimed so far
    are 1, 2, ... up to the cursor, in this order, one per invocation of
    [consume]; every recorded call belongs to an invocation; and the
    first call an invocation made was for the value it claimed. *)
Record cursor_inv (s : Parallel.t) : Prop := MkCursorInv {
  cursor_nonneg : 0 ≤ offsetCount s;
  cursor_claimed :
    claimed s = Z.of_nat <$> seq 1 (Z.to_nat (offsetCount s));
  cursor_loops : length (claimed s) = length (loops s);
  cursor_known : Forall (λ c, (c.1 < length (loops s))%nat) (invoked s);
  cursor_first :
    ∀ id v, claimed s !! id = Some v → head (calls_of id s) = Some v
}.

End ParallelInvariants.

(** ** Invariants of the runner beyond the cursor *)

Section ParallelFlight.
Import Parallel.

#[global] Instance phase_eq_dec : EqDecision phase.
Proof. solve_decision. Defined.

(** An invocation of [consume] that has not run to its end. *)
Definition in_flight (ph : phase) : Prop := ph ≠ Ended.

Definition is_resume (e : event) : bool :=
  match e with
  | Resume => true
  | _ => false
  end.

(** The processing counter counts the invocations in flight and stays
    within the width; the paused flag is never set and no [pause] call is
    ever asleep. *)
Record flight_inv (s : Parallel.t) : Prop := MkFlightInv {
  flight_count :
    processingCount s = Z.of_nat (length (filter in_flight (loops s)));
  flight_width : processingCount s ≤ Z.max 0 (concurrency s);
  flight_paused : paused s = false;
  flight_pausing : pausing s = []
}.

(** How many calls of the handler an invocation has made, by where it
    stands. *)
Definition calls_ok (s : Parallel.t) (id : nat) (ph : phase) : Prop :=
  match ph with
  | AwaitHandler => length (calls_of id s) = 1%nat
  | AwaitBackoff ms => ms = 5000 ∧ length (calls_of id s) = 1%nat
  | AwaitRetry => length (calls_of id s) = 2%nat
  | Ended =>
      length (calls_of id s) = 1%nat ∨ length (calls_of id s) = 2%nat
  end.

Definition calls_inv (s : Parallel.t) : Prop :=
  ∀ id ph, loops s !! id = Some ph → calls_ok s id ph.

(** A run of count [N] and width [w] in which [resume] is not called:
    the cursor stays within the count, and the run is never left with
    nothing in flight before the cursor has reached the count. *)
Record progress_inv (N w : Z) (s : Parallel.t) : Prop := MkProgressInv {
  progress_count : count s = N;
  progress_width : concurrency s = w;
  progress_clamped : w ≤ N;
  progress_cursor : offsetCount s ≤ Z.max 0 N;
  progress_idle : processingCount s = 0 → offsetCount s = N ∨ w ≤ 0
}.

(** A run of count [N] never stops short: once an invocation of [consume]
    has been made, either the cursor has reached the count or something
    is in flight. *)
Record drains (N : Z) (s : Parallel.t) : Prop := MkDrains {
  drains_count : count s = N;
  drains_on : loops s = [] ∨ N ≤ offsetCount s ∨ 0 < processingCount s
}.
End ParallelFlight.

(** ** Dispatch order and deliveries of the queue *)

Section QueueOrder.
Context {K T : Type}.
Import Queue.
Implicit Types (q : Queue.t K T).

(** What a dispatch pass from [q] to [q'] does when it pairs the oldest
    [n] items with the oldest [n] idle indices, in order: the [k]-th item
    is posted on the thread of the [k]-th index, as request number
    [length (replies q) + k]. *)
Record paired (n : nat) q q' : Prop := MkPaired {
  paired_backlog : _queue q' = drop n (_queue q);
  paired_idle : _availableThread q' = drop n (_availableThread q);
  paired_reactions :
    reactions q'
    = reactions q
      ++ zip (seq (length (replies q)) n) (take n (_availableThread q));
  paired_replies : replies q' = replies q ++ replicate n Pending;
  paired_posted :
    ∀ k idx item,
      _availableThread q !! k = Some idx → _queue q !! k = Some item →
      ∃ th, _pool q !! idx = Some th
            ∧ _pool q' !! idx
              = Some (Thread.MkThread
                        (Thread.postMessage item (Thread._worker th))
                        (Some (length (replies q) + k)%nat)
                        (Some (length (replies q) + k)%nat));
  paired_others :
    ∀ idx, idx ∉ take n (_availableThread q) →
           _pool q' !! idx = _pool q !! idx
}.


(** The messages sent so far to each thread of the pool. *)
Definition sent q : list (list K) :=
  (λ th, Thread.posted (Thread._worker th)) <$> _pool q.

(** The operations at which the handler, if called, returns. *)
Definition calm (o : op K T) : bool :=
  match o with
  | Settle _ (Some _) _ => false
  | _ => true
  end.

(** The operations that can start a dispatch on a paused queue. *)
Definition wakes (o : op K T) : bool :=
  match o with
  | Initialize | Resume => true
  | _ => false
  end.

(** Every request issued is in flight or was delivered. *)
Definition delivered_or_in_flight q : Prop :=
  length (replies q) = (length (delivered q) + length (reactions q))%nat.

(** A call of the handler never has both an error and data. *)
Definition exclusive (d : option Error * Thread.reply T) : Prop :=
  d.1 = None ∨ d.2 = Thread.Null.

(** What a dispatch changes in the count of requests. *)
Definition issues q q' : Prop :=
  delivered q' = delivered q ∧ _handler q' = _handler q
  ∧ (length (replies q') + length (reactions q)
     = length (replies q) + length (reactions q'))%nat.

(** What holds of the deliveries of a queue whose handler returns. *)
Record deliveries_ok q : Prop := MkDeliveriesOk {
  deliveries_handler : _handler q = true;
  deliveries_count : delivered_or_in_flight q;
  deliveries_exclusive : Forall exclusive (delivered q)
}.
End QueueOrder.

(** * Properties *)

(** ** Promises *)

Section StoreFacts.
Context {A : Type}.
Implicit Types (h : store A) (p : nat).

Lemma alloc_fresh h : (alloc h).1 = length h.
Proof. reflexivity. Qed.

Lemma alloc_pending h : (alloc h).2 !! (alloc h).1 = Some Pending.
Proof.
  unfold alloc; cbn [fst snd]. rewrite lookup_app_r by lia.
  by rewrite Nat.sub_diag.
Qed.

Lemma alloc_old h p x : h !! p = Some x → (alloc h).2 !! p = Some x.
Proof. intros Hp. unfold alloc; cbn [snd]. by apply lookup_app_l_Some. Qed.

Lemma alloc_length h : length (alloc h).2 = S (length h).
Proof. unfold alloc; cbn [snd]. rewrite length_app. cbn. lia. Qed.

Lemma resolve_length p v h : length (resolve p v h) = length h.
Proof.
  unfold resolve. destruct (h !! p) as [[]|]; try done.
  apply length_insert.
Qed.

Lemma reject_length p e h : length (reject p e h) = length h.
Proof.
  unfold reject. destruct (h !! p) as [[]|]; try done.
  apply length_insert.
Qed.

Lemma resolve_pending p v h :
  h !! p = Some Pending → resolve p v h !! p = Some (Fulfilled v).
Proof.
  intros Hp. unfold resolve. rewrite Hp.
  apply list_lookup_insert_eq. by eapply lookup_lt_Some.
Qed.

Lemma reject_pending p e h :
  h !! p = Some Pending → reject p e h !! p = Some (Rejected e).
Proof.
  intros Hp. unfold reject. rewrite Hp.
  apply list_lookup_insert_eq. by eapply lookup_lt_Some.
Qed.

Lemma resolve_other p p' v h : p ≠ p' → resolve p v h !! p' = h !! p'.
Proof.
  intros Hne. unfold resolve. destruct (h !! p) as [[]|]; try done.
  by apply list_lookup_insert_ne.
Qed.

Lemma resolve_settled p v h x :
  h !! p = Some x → x ≠ Pending → resolve p v h = h.
Proof. intros Hp Hx. unfold resolve. rewrite Hp. by destruct x. Qed.
End StoreFacts.

(** ** Thread *)

Section ThreadFacts.
Context {K T : Type}.
Implicit Types (th : Thread.t K) (h : store (Thread.reply T)).

Lemma receive_without_functions err data th h :
  Thread._resolver th = None ∨ Thread._rejector th = None →
  Thread._receiveMessage err data th h = Normal tt (th, h).
Proof.
  intros [Hn | Hn]; unfold Thread._receiveMessage; rewrite Hn.
  - reflexivity.
  - by rewrite orb_true_r.
Qed.

(** [_receiveMessage] never throws: the guard keeps it from calling an
    unset field. *)
Lemma receive_returns err data th h :
  ∃ h', Thread._receiveMessage err data th h = Normal tt (th, h').
Proof.
  unfold Thread._receiveMessage.
  destruct (Thread._resolver th) as [r|], (Thread._rejector th) as [j|];
    cbn; eauto.
  destruct err; cbn; eauto.
Qed.

Lemma on_event_returns ev th h :
  ∃ h', Thread.on_event ev th h = Normal tt (th, h').
Proof.
  destruct ev as [val | err | signal]; cbn;
    [| | destruct (signal =? 0)]; apply receive_returns.
Qed.

(** C3. While a request is pending on a thread, an exit of its worker
    with status 0 rejects the pending promise with the error
    "Internal error", and an exit with any other status fulfils it with
    [null]. *)
Theorem exit_status_inverted th h p signal :
  Thread.pending th h p →
  (signal = 0 →
     Thread.on_event (Thread.OnExit signal) th h
     = Normal tt (th, <[p := Rejected (MkError "Internal error")]> h)
     ∧ (<[p := Rejected (MkError "Internal error")]> h) !! p
       = Some (Rejected (MkError "Internal error")))
  ∧ (signal ≠ 0 →
     Thread.on_event (Thread.OnExit signal) th h
     = Normal tt (th, <[p := Fulfilled Thread.Null]> h)
     ∧ (<[p := Fulfilled Thread.Null]> h) !! p = Some (Fulfilled Thread.Null)).
Proof.
  intros (Hr & Hj & Hp).
  assert (Hlt : (p < length h)%nat) by by eapply lookup_lt_Some.
  split; intros Hs.
  - subst signal. cbn. unfold Thread._receiveMessage, Thread.call.
    rewrite Hr, Hj. cbn. unfold reject. rewrite Hp.
    split; [done | by apply list_lookup_insert_eq].
  - cbn. apply Z.eqb_neq in Hs. rewrite Hs.
    unfold Thread._receiveMessage, Thread.call.
    rewrite Hr, Hj. cbn. unfold resolve. rewrite Hp.
    split; [done | by apply list_lookup_insert_eq].
Qed.

(** C9. On a thread that has no [resolve] or no [reject] function
    registered, every worker event returns normally and leaves both the
    thread and every promise as they were. *)
Theorem event_without_request_ignored ev th h :
  Thread._resolver th = None ∨ Thread._rejector th = None →
  Thread.on_event ev th h = Normal tt (th, h).
Proof.
  intros Hn.
  destruct ev as [val | err | signal]; cbn;
    [| | destruct (signal =? 0)]; by apply receive_without_functions.
Qed.

(** [post] leaves a pending request and sends exactly the value. *)
Lemma post_pending value th h :
  let '(th', p, h') := Thread.post value th h in
  Thread.pending th' h' p
  ∧ Thread.posted (Thread._worker th')
    = Thread.posted (Thread._worker th) ++ [value].
Proof.
  cbn. repeat split. apply (alloc_pending h).
Qed.

(** [Execute] on the success path: one message sent, the thread closed,
    the value returned. *)
Lemma Execute_success script (data : K) (val : T) :
  let '(x0, h0) := Thread.Execute script data [] in
  let '(x1, h1) := Thread.Execute_event (Thread.OnMessage val) x0 h0 in
  let '(x2, h2) := Thread.Execute_resume x1 h1 in
  h2 !! Thread.result x2 = Some (Fulfilled (Thread.Value val))
  ∧ Thread.posted (Thread._worker (Thread.thread x2)) = [data]
  ∧ Thread.terminated (Thread._worker (Thread.thread x2)) = true.
Proof. cbn. done. Qed.

(** C8, on the failure path. When the worker reports an error, that is
    an [error] event with a truthy value (or exits with status 0), before
    replying, the request is rejected, the [await] throws, and [Execute]
    ends with the failure passed on to its caller and without [close]
    having been called: the worker is not terminated. *)
Theorem Execute_failure_skips_close script (data : K) (err : Error) :
  (let '(x0, h0) := Thread.Execute (T := T) script data [] in
   let '(x1, h1) := Thread.Execute_event (Thread.OnError (Some err)) x0 h0 in
   let '(x2, h2) := Thread.Execute_resume x1 h1 in
   h2 !! Thread.result x2 = Some (Rejected err)
   ∧ Thread.finished x2 = true
   ∧ Thread.posted (Thread._worker (Thread.thread x2)) = [data]
   ∧ Thread.terminated (Thread._worker (Thread.thread x2)) = false)
  ∧ (let '(x0, h0) := Thread.Execute (T := T) script data [] in
     let '(x1, h1) := Thread.Execute_event (Thread.OnExit 0) x0 h0 in
     let '(x2, h2) := Thread.Execute_resume x1 h1 in
     h2 !! Thread.result x2 = Some (Rejected (MkError "Internal error"))
     ∧ Thread.finished x2 = true
     ∧ Thread.terminated (Thread._worker (Thread.thread x2)) = false).
Proof. cbn. done. Qed.
End ThreadFacts.

(** A pending request for the two exit statuses of C3. *)
Lemma exit_status_inverted_witness :
  let '(th, p, h) := Thread.post (K := nat) (T := nat) 7%nat
                       (Thread.constructor "worker.js") [] in
  Thread.on_event (Thread.OnExit 0) th h
  = Normal tt (th, [Rejected (MkError "Internal error")])
  ∧ Thread.on_event (Thread.OnExit 1) th h
    = Normal tt (th, [Fulfilled Thread.Null]).
Proof.
  cbn.
  pose proof (exit_status_inverted (K := nat) (T := nat)
    (Thread.post (T := nat) 7%nat (Thread.constructor "worker.js") []).1.1
    [Pending] 0%nat) as H.
  split.
  - refine (proj1 (proj1 (H 0 _) _)); [by repeat split | reflexivity].
  - refine (proj1 (proj2 (H 1 _) _)); [by repeat split | lia].
Defined.

(** A freshly constructed thread ignores an exit event. *)
Lemma event_without_request_ignored_witness :
  Thread.on_event (K := nat) (T := nat) (Thread.OnExit 0)
    (Thread.constructor "worker.js") []
  = Normal tt (Thread.constructor "worker.js", []).
Proof.
  apply (event_without_request_ignored (K := nat) (T := nat)).
  left. reflexivity.
Defined.

(** ** Parallel *)

Section ParallelFacts.
Import Parallel.
Implicit Types (s : Parallel.t) (e : event).

(** C10. The constructor sets the width to [count] when the given
    concurrency is falsy, that is [0], and to the smaller of the given
    concurrency and [count] otherwise. *)
Theorem constructor_width name count concurrency :
  Parallel.concurrency (constructor (MkOptions name count concurrency))
  = if concurrency =? 0 then count else Z.min concurrency count.
Proof.
  unfold constructor, or_else. cbn.
  destruct (Z.eqb_spec concurrency 0) as [-> | Hne]; cbn.
  - by rewrite Z.ltb_irrefl.
  - destruct (Z.ltb_spec count concurrency); cbn; lia.
Qed.

(** C4, what the code does instead. Whatever the processing counter,
    [pause()] leaves the paused flag as it was and returns a promise that
    is already resolved; no polling loop is started. *)
Theorem pause_changes_nothing s :
  paused (pause s).2 = paused s
  ∧ promises (pause s).2 !! (pause s).1 = Some (Fulfilled tt)
  ∧ pausing (pause s).2 = pausing s
  ∧ processingCount (pause s).2 = processingCount s.
Proof.
  unfold pause, this_pause_truthy. rewrite orb_true_r. cbn.
  repeat split.
  apply resolve_pending, (alloc_pending (promises s)).
Qed.

(** At a runner with one unit in flight: after [pause()] the flag is
    unset, the returned promise is resolved although a unit is still
    being processed, and the end of that unit starts the next one. *)
Lemma pause_while_processing :
  let s0 := create "runner" 2 1 in
  let '(p, s1) := pause s0 in
  processingCount s0 = 1
  ∧ paused s1 = false
  ∧ promises s1 !! p = Some (Fulfilled tt)
  ∧ processingCount s1 = 1
  ∧ claimed (step (HandlerResolves 0) s1) = [1; 2].
Proof. vm_compute. done. Qed.

(** C5, at a runner of two units and width two whose first unit fails:
    the cursor is 2 when the timer fires, so the second call made by the
    invocation that claimed unit 1 is for unit 2, and unit 1 is never
    tried again. *)
Theorem retry_reads_moved_cursor :
  let s := exec [HandlerRejects 0; TimerFires 0] (create "runner" 2 2) in
  claimed s !! 0%nat = Some 1
  ∧ loops (exec [HandlerRejects 0] (create "runner" 2 2)) !! 0%nat
    = Some (AwaitBackoff 5000)
  ∧ calls_of 0 s = [1; 2]
  ∧ invoked (exec [HandlerResolves 0; HandlerResolves 1] s)
    = [(0%nat, 1); (1%nat, 2); (0%nat, 2)].
Proof. vm_compute. done. Qed.
End ParallelFacts.

(** *** The cursor *)

Section Cursor.
Import Parallel.
Implicit Types (s : Parallel.t) (e : event).

Lemma calls_of_snoc id id' x (l : list (nat * Z)) :
  (filter (λ c, c.1 = id) (l ++ [(id', x)])).*2
  = (filter (λ c, c.1 = id) l).*2 ++ (if decide (id' = id) then [x] else []).
Proof.
  rewrite filter_app, fmap_app. f_equal.
  rewrite filter_cons. cbn. destruct (decide (id' = id)); done.
Qed.

Lemma calls_of_unknown id (l : list (nat * Z)) n :
  Forall (λ c, (c.1 < n)%nat) l → (n ≤ id)%nat →
  (filter (λ c, c.1 = id) l).*2 = [].
Proof.
  intros Hl Hn. induction Hl as [|c l Hc _ IH]; [done|].
  rewrite filter_cons. destruct (decide (c.1 = id)); [lia | done].
Qed.

Lemma head_app_Some {A} (l k : list A) x :
  head l = Some x → head (l ++ k) = Some x.
Proof. by destruct l. Qed.

Lemma constructor_cursor options : cursor_inv (constructor options).
Proof.
  unfold constructor. cbn.
  destruct (_ <? _); split; cbn; try done.
Qed.

Lemma consume_cursor s : cursor_inv s → cursor_inv (consume s).
Proof.
  intros [Hn Hc Hl Hk Hf]. unfold consume. split; cbn.
  - lia.
  - rewrite Hc. replace (Z.to_nat (offsetCount s + 1))
      with (S (Z.to_nat (offsetCount s))) by lia.
    rewrite seq_S, fmap_app. cbn. do 2 f_equal. lia.
  - rewrite !length_app. cbn. lia.
  - rewrite Forall_app. split.
    + eapply Forall_impl; [exact Hk|]. cbn. intros c Hlt.
      rewrite length_app. cbn. lia.
    + constructor; [|done]. cbn. rewrite length_app. cbn. lia.
  - intros id v Hid. unfold calls_of. cbn. rewrite calls_of_snoc.
    apply lookup_app_Some in Hid as [Hid | [Hge Hid]].
    + apply head_app_Some. by apply Hf.
    + rewrite Hl in Hge.
      rewrite (calls_of_unknown id (invoked s) (length (loops s)) Hk Hge).
      assert (id = length (loops s)) as ->.
      { apply lookup_lt_Some in Hid. cbn in Hid. lia. }
      rewrite Hl, Nat.sub_diag in Hid. cbn in Hid.
      rewrite decide_True by done. done.
Qed.

Lemma iter_consume_cursor n s :
  cursor_inv s → cursor_inv (Nat.iter n consume s).
Proof. intros Hs. induction n; cbn; [done | by apply consume_cursor]. Qed.

(** The invariant only reads the cursor and the three records. *)
Lemma cursor_inv_same s s' :
  offsetCount s' = offsetCount s → claimed s' = claimed s →
  length (loops s') = length (loops s) → invoked s' = invoked s →
  cursor_inv s → cursor_inv s'.
Proof.
  intros Ho Hc Hl Hi [Hn Hcl Hlo Hk Hf].
  split; unfold calls_of in *; rewrite ?Ho, ?Hc, ?Hl, ?Hi; done.
Qed.

Lemma consume_end_cursor id s : cursor_inv s → cursor_inv (consume_end id s).
Proof.
  intros Hs. unfold consume_end.
  set (s1 := set_loops _ _).
  assert (Hs1 : cursor_inv s1).
  { apply (cursor_inv_same s); try done. cbn. apply length_insert. }
  clearbody s1.
  destruct (offsetCount s1 =? count s1).
  - destruct (finishHandler s1); [|done].
    by apply (cursor_inv_same s1).
  - destruct (_ && _); [by apply consume_cursor | done].
Qed.

Lemma timer_fires_cursor id s : cursor_inv s → cursor_inv (timer_fires id s).
Proof.
  intros Hs. unfold timer_fires.
  destruct (loops s !! id) as [[]|] eqn:Hid; try done.
  destruct Hs as [Hn Hc Hl Hk Hf]. split; cbn; try done.
  - rewrite length_insert. done.
  - rewrite length_insert, Forall_app. split; [done|].
    constructor; [|done]. cbn. by eapply lookup_lt_Some.
  - intros id' v Hid'. unfold calls_of. cbn. rewrite calls_of_snoc.
    apply head_app_Some. by apply Hf.
Qed.

Lemma step_cursor e s : cursor_inv s → cursor_inv (step e s).
Proof.
  intros Hs. destruct e as [id | id | id | | p | |]; cbn.
  - unfold handler_resolves.
    destruct (loops s !! id) as [[]|]; try done;
      by apply consume_end_cursor.
  - unfold handler_rejects.
    destruct (loops s !! id) as [[]|]; try done.
    + apply (cursor_inv_same s); try done. cbn. apply length_insert.
    + apply consume_end_cursor. by apply (cursor_inv_same s).
  - by apply timer_fires_cursor.
  - unfold pause. destruct (_ || _); cbn.
    + by apply (cursor_inv_same s).
    + unfold pause_loop. cbn. destruct (0 <? _);
        by apply (cursor_inv_same s).
  - unfold pause_wake. destruct (bool_decide _); [|done].
    unfold pause_loop. cbn. destruct (0 <? _);
      by apply (cursor_inv_same s).
  - unfold resume. destruct (0 <? _); [done|].
    apply iter_consume_cursor. by apply (cursor_inv_same s).
  - unfold waitFinish. cbn. destruct (_ =? _); cbn;
      by apply (cursor_inv_same s).
Qed.

Lemma exec_cursor es s : cursor_inv s → cursor_inv (exec es s).
Proof.
  revert s. induction es as [|e es IH]; intros s Hs; cbn; [done|].
  apply IH. by apply step_cursor.
Qed.

Lemma create_cursor name count concurrency :
  cursor_inv (create name count concurrency).
Proof. apply iter_consume_cursor, constructor_cursor. Qed.

End Cursor.

(** ** Queue *)

Section Dispatch.
Context {K T : Type}.
Import Queue.
Implicit Types (q : Queue.t K T).

Lemma dispatched_refl q : dispatched q q.
Proof. by split. Qed.

Lemma dispatched_trans q1 q2 q3 :
  dispatched q1 q2 → dispatched q2 q3 → dispatched q1 q3.
Proof.
  intros [] []. split; try congruence; try (etrans; eassumption); auto.
Qed.

Lemma dispatched_indices_in_pool q q' :
  dispatched q q' → indices_in_pool q → indices_in_pool q'.
Proof.
  intros [] Hq. unfold indices_in_pool in *.
  rewrite dispatched_indices0, dispatched_pool0. done.
Qed.

(** One call of [_consume] on a well-indexed queue returns, and either
    changes nothing or takes one item off the backlog. *)
Lemma consume_dispatched q :
  indices_in_pool q →
  ∃ q', _consume q = Normal tt q' ∧ dispatched q q'
    ∧ (_active q = false → q' = q)
    ∧ (_active q = true → _availableThread q ≠ [] → _queue q ≠ [] →
       (length (_queue q') < length (_queue q))%nat).
Proof.
  intros Hq. unfold _consume.
  destruct (_active q) eqn:Hact; cbn.
  2: { exists q. repeat split; auto using dispatched_refl; done. }
  destruct (_availableThread q) as [|threadIdx idle] eqn:Hav.
  { exists q. repeat split; auto using dispatched_refl; done. }
  destruct (_queue q) as [|item rest] eqn:Hqu.
  { exists q. repeat split; auto using dispatched_refl; done. }
  assert (Hlt : (threadIdx < length (_pool q))%nat).
  { unfold indices_in_pool in Hq. rewrite Hav in Hq.
    cbn in Hq. apply Forall_cons_1 in Hq as [Hq _]. exact Hq. }
  destruct (lookup_lt_is_Some_2 _ _ Hlt) as [th Hth]. rewrite Hth.
  eexists. split; [reflexivity|]. split; [|split; [done|]].
  - split; cbn; try done.
    + by rewrite length_insert.
    + unfold all_terminated. cbn. intros Hall. apply Forall_insert; [done|].
      cbn. by eapply (Forall_lookup_1 _ _ _ _ Hall Hth).
    + rewrite Hav, fmap_app. cbn.
      rewrite app_assoc. symmetry. apply Permutation_cons_append.
    + rewrite Hqu. cbn. lia.
  - intros _ _ _. cbn. lia.
Qed.

(** A dispatch pass on a paused queue with an idle channel and a
    non-empty backlog does not end, whatever the bound. *)
Lemma _fillThreads_loop_stuck fuel q :
  _active q = false → _availableThread q ≠ [] → _queue q ≠ [] →
  _fillThreads_loop fuel q = Diverges.
Proof.
  intros Hact Hav Hqu. induction fuel as [|fuel IH]; cbn.
  - destruct (_availableThread q), (_queue q); done.
  - destruct (_availableThread q) eqn:?, (_queue q) eqn:?; try done. cbn.
    unfold _consume at 1. rewrite Hact. cbn. exact IH.
Qed.

(** On an active queue the pass ends within as many iterations as there
    are items, and any larger bound gives the same result. *)
Lemma _fillThreads_loop_enough fuel q :
  indices_in_pool q → _active q = true →
  (length (_queue q) ≤ fuel)%nat →
  ∃ q', _fillThreads_loop fuel q = Normal tt q' ∧ dispatched q q'
    ∧ (_availableThread q' = [] ∨ _queue q' = [])
    ∧ _fillThreads q = Normal tt q'.
Proof.
  unfold _fillThreads.
  revert q. induction (lt_wf fuel) as [fuel _ IH]. intros q Hq Hact Hlen.
  destruct (_availableThread q) as [|i idle] eqn:Hav.
  { exists q. destruct fuel, (length (_queue q)); cbn; rewrite Hav; cbn;
      auto using dispatched_refl. }
  destruct (_queue q) as [|item rest] eqn:Hqu.
  { exists q. destruct fuel; cbn; rewrite Hav, Hqu; cbn;
      auto using dispatched_refl. }
  destruct fuel as [|fuel]; [cbn in Hlen; lia|].
  destruct (consume_dispatched q Hq) as (q1 & Hc & Hd & _ & Hless).
  specialize (Hless Hact). rewrite Hav, Hqu in Hless.
  specialize (Hless ltac:(done) ltac:(done)). cbn in Hless, Hlen.
  assert (Hq1 : indices_in_pool q1) by by eapply dispatched_indices_in_pool.
  assert (Hact1 : _active q1 = true) by by rewrite (dispatched_active _ _ Hd).
  destruct (IH fuel ltac:(lia) q1 Hq1 Hact1 ltac:(lia))
    as (q' & Hrun & Hd' & Hend & _).
  destruct (IH (length rest) ltac:(lia) q1 Hq1 Hact1 ltac:(lia))
    as (q'' & Hrun' & _ & _ & _).
  assert (q'' = q') as ->.
  { destruct (IH (length (_queue q1)) ltac:(lia) q1 Hq1 Hact1 ltac:(lia))
      as (q0 & _ & _ & _ & Hcanon).
    destruct (IH fuel ltac:(lia) q1 Hq1 Hact1 ltac:(lia))
      as (qa & Ha & _ & _ & Hcanon_a).
    destruct (IH (length rest) ltac:(lia) q1 Hq1 Hact1 ltac:(lia))
      as (qb & Hb & _ & _ & Hcanon_b).
    congruence. }
  exists q'. split; [|split; [|split]].
  - cbn. rewrite Hav, Hqu. cbn. rewrite Hc. cbn. exact Hrun.
  - by eapply dispatched_trans.
  - done.
  - cbn. rewrite Hav, Hqu. cbn. rewrite Hc. cbn. exact Hrun'.
Qed.

(** [_fillThreads] on a well-indexed queue never throws; it returns on
    an active queue, and on a paused one it returns exactly when there is
    nothing to dispatch. *)
Lemma fillThreads_dispatched q :
  indices_in_pool q →
  match _fillThreads q with
  | Normal _ q' =>
      dispatched q q'
      ∧ (_active q = true → _availableThread q' = [] ∨ _queue q' = [])
  | Threw _ _ => False
  | Diverges =>
      _active q = false ∧ _availableThread q ≠ [] ∧ _queue q ≠ []
  end.
Proof.
  intros Hq. destruct (_active q) eqn:Hact.
  - destruct (_fillThreads_loop_enough (length (_queue q)) q Hq Hact)
      as (q' & _ & Hd & Hend & ->); [lia|]. done.
  - destruct (_availableThread q) as [|i idle] eqn:Hav.
    { unfold _fillThreads. destruct (length (_queue q)); cbn; rewrite Hav;
        cbn; auto using dispatched_refl. }
    destruct (_queue q) as [|item rest] eqn:Hqu.
    { unfold _fillThreads. rewrite Hqu. cbn. rewrite Hav, Hqu. cbn.
      auto using dispatched_refl. }
    unfold _fillThreads.
    rewrite _fillThreads_loop_stuck; rewrite ?Hav, ?Hqu; done.
Qed.
End Dispatch.

Section Soundness.
Context {K T : Type}.
Import Queue.
Implicit Types (q : Queue.t K T).

Lemma keeps_refl q : keeps q q.
Proof. by split. Qed.

Lemma keeps_trans q1 q2 q3 : keeps q1 q2 → keeps q2 q3 → keeps q1 q3.
Proof. intros [] []. split; try congruence. by etrans. Qed.

Lemma dispatched_keeps q q' : dispatched q q' → keeps q q'.
Proof. intros []. by split. Qed.

Lemma keeps_indices_in_pool q q' :
  keeps q q' → indices_in_pool q → indices_in_pool q'.
Proof.
  intros [Hc Hp Hi] Hq. unfold indices_in_pool in *. by rewrite Hi, Hp.
Qed.

Lemma dispatched_signals_ok q q' :
  dispatched q q' → signals_ok q → signals_ok q'.
Proof.
  intros Hd [Hs Ho]. split.
  - by rewrite (dispatched_signals _ _ Hd), (dispatched_stopping _ _ Hd).
  - rewrite (dispatched_signals _ _ Hd), (dispatched_stopping _ _ Hd),
      (dispatched_once _ _ Hd). done.
Qed.

Lemma stopping_allocated q p :
  signals_ok q → p ∈ stopping q → (p < length (signals q))%nat.
Proof.
  intros [Hs _] Hp. rewrite Forall_forall in Hs.
  by eapply lookup_lt_Some, Hs.
Qed.

(** Resolving the drain waiter leaves the sleeping [stop] calls alone. *)
Lemma resolve_once_signals_ok q r :
  signals_ok q → _onceResolver q = Some r →
  signals_ok (set_signals (resolve r tt (signals q)) q).
Proof.
  intros [Hs Ho] Hr. destruct (Ho r Hr) as [Hlt Hnot]. split; cbn.
  - rewrite Forall_forall in *. intros p Hp.
    rewrite resolve_other; [by apply Hs | by intros ->].
  - intros r' Hr'. rewrite resolve_length. by apply Ho.
Qed.

(** The dispatch pass of [_fillThreads] touches neither the promises of
    the queue nor the drain waiter, on any queue. *)
Lemma consume_signals q q' :
  _consume q = Normal tt q' →
  signals q' = signals q ∧ _onceResolver q' = _onceResolver q
  ∧ stopping q' = stopping q.
Proof.
  unfold _consume. destruct (_active q); cbn; [|by intros [= <-]].
  destruct (_availableThread q) as [|i idle]; [by intros [= <-]|].
  destruct (_queue q) as [|item rest]; [by intros [= <-]|].
  destruct (_pool q !! i); [|done]. by intros [= <-].
Qed.

Lemma fillThreads_loop_signals fuel q q' :
  _fillThreads_loop fuel q = Normal tt q' →
  signals q' = signals q ∧ _onceResolver q' = _onceResolver q
  ∧ stopping q' = stopping q.
Proof.
  revert q. induction fuel as [|fuel IH]; intros q; cbn.
  - destruct (_ && _); [done | by intros [= <-]].
  - destruct (_ && _); [|by intros [= <-]].
    destruct (_consume q) as [[] q1| |] eqn:Hc; cbn; try done.
    intros Hrun. apply IH in Hrun as (-> & -> & ->).
    by apply consume_signals.
Qed.


(** [_resolve] after the reaction has been taken off the list: when it
    returns it has pushed the index, made a dispatch pass and possibly
    resolved the drain waiter; it throws only what the handler throws, and
    then the index has been pushed and nothing else was done. *)
Lemma resolve_sound idx err resp thrown q :
  indices_in_pool (set_availableThread (_availableThread q ++ [idx]) q) →
  signals_ok q →
  match _resolve idx err resp thrown q with
  | Normal _ q' =>
      dispatched (set_availableThread (_availableThread q ++ [idx]) q) q'
      ∨ ∃ q3 r,
          dispatched (set_availableThread (_availableThread q ++ [idx]) q) q3
          ∧ _onceResolver q3 = Some r
          ∧ q' = set_signals (resolve r tt (signals q3)) q3
  | Threw e q' =>
      thrown = Some e
      ∧ dispatched (set_availableThread (_availableThread q ++ [idx]) q) q'
  | Diverges => True
  end.
Proof.
  intros Hq Hs. unfold _resolve. cbv zeta.
  set (q1 := set_availableThread _ q) in *.
  assert (Hcall :
    match call_handler err resp thrown q1 with
    | Normal _ q2 => dispatched q1 q2 ∧ thrown = thrown
    | Threw e q2 => thrown = Some e ∧ dispatched q1 q2
    | Diverges => False
    end).
  { unfold call_handler. destruct (_handler q1), thrown; by repeat split. }
  destruct (call_handler err resp thrown q1) as [[] q2|e q2|];
    cbn [bind]; [|done|done].
  destruct Hcall as [Hd12 _].
  pose proof (fillThreads_dispatched q2
                (dispatched_indices_in_pool _ _ Hd12 Hq)) as Hfill.
  destruct (_fillThreads q2) as [[] q3| |]; cbn; try done.
  destruct Hfill as [Hd23 _].
  pose proof (dispatched_trans _ _ _ Hd12 Hd23) as Hd13.
  destruct (_onceResolver q3) as [r|] eqn:Hr; [|by left].
  destruct (_queue q3); [|by left].
  right. by exists q3, r.
Qed.

Lemma resolve_keeps_sound idx err resp thrown q q0 :
  keeps q0 (set_availableThread (_availableThread q ++ [idx]) q) →
  indices_in_pool q0 → signals_ok q →
  match _resolve idx err resp thrown q with
  | Normal _ q' => keeps q0 q' ∧ signals_ok q' ∧ stopping q' = stopping q
  | Threw e q' =>
      thrown = Some e ∧ keeps q0 q' ∧ signals_ok q'
      ∧ stopping q' = stopping q
  | Diverges => True
  end.
Proof.
  intros Hk Hq0 Hs.
  pose proof (resolve_sound idx err resp thrown q
                (keeps_indices_in_pool _ _ Hk Hq0) Hs) as Hres.
  assert (Hs1 : signals_ok
                  (set_availableThread (_availableThread q ++ [idx]) q)).
  { destruct Hs. by split. }
  destruct (_resolve idx err resp thrown q) as [[] q'|e q'|]; [| |done].
  - destruct Hres as [Hd | (q3 & r & Hd & Hr & ->)].
    + split_and!.
      * eapply keeps_trans; [exact Hk | by apply dispatched_keeps].
      * by eapply dispatched_signals_ok.
      * apply (dispatched_stopping _ _ Hd).
    + split_and!.
      * eapply keeps_trans; [exact Hk|].
        apply dispatched_keeps in Hd. destruct Hd. by split.
      * apply resolve_once_signals_ok; [|done].
        by eapply dispatched_signals_ok.
      * apply (dispatched_stopping _ _ Hd).
  - destruct Hres as [-> Hd]. split_and!; [done | | |].
    + eapply keeps_trans; [exact Hk | by apply dispatched_keeps].
    + by eapply dispatched_signals_ok.
    + apply (dispatched_stopping _ _ Hd).
Qed.

(** Taking the reaction off the list and pushing its index keeps the
    indices. *)
Lemma settle_indices q k p idx :
  reactions q !! k = Some (p, idx) →
  keeps q (set_availableThread
             (_availableThread (set_reactions (delete k (reactions q)) q)
              ++ [idx])
             (set_reactions (delete k (reactions q)) q)).
Proof.
  intros Hk. split; cbn; try done.
  rewrite list_fmap_delete.
  assert (Hk' : (reactions q).*2 !! k = Some idx)
    by by rewrite list_lookup_fmap, Hk.
  rewrite <- app_assoc. apply Permutation_app_head.
  cbn. symmetry. by apply delete_Permutation.
Qed.

(** A settlement at which the handler returns. *)
Lemma settle_sound k thrown2 q :
  sound q →
  match settle k None thrown2 q with
  | Normal _ q' => keeps q q' ∧ signals_ok q' ∧ stopping q' = stopping q
  | Threw _ _ => False
  | Diverges => True
  end.
Proof.
  intros [Hq Hs]. unfold settle.
  destruct (reactions q !! k) as [[p idx]|] eqn:Hk;
    [|auto using keeps_refl].
  assert (Hs1 : signals_ok (set_reactions (delete k (reactions q)) q)).
  { destruct Hs. by split. }
  pose proof (settle_indices q k p idx Hk) as Hkeep.
  destruct (replies q !! p) as [[|val|err]|]; auto using keeps_refl.
  - pose proof (resolve_keeps_sound idx None val None _ q Hkeep Hq Hs1)
      as Hres.
    destruct (_resolve idx None val None _) as [[] q'|e q'|];
      [done | by destruct Hres | done].
  - pose proof (resolve_keeps_sound idx (Some err) Thread.Null None _ q
                  Hkeep Hq Hs1)
      as Hres.
    destruct (_resolve idx (Some err) Thread.Null None _) as [[] q'|e q'|];
      [done | by destruct Hres | done].
Qed.

(** Any settlement, whatever the handler does: if it returns, the queue
    is still sound and no [stop] call was woken. *)
Lemma settle_sound_any k thrown1 thrown2 q :
  sound q →
  match settle k thrown1 thrown2 q with
  | Normal _ q' => sound q' ∧ stopping q' = stopping q
  | _ => True
  end.
Proof.
  intros [Hq Hs]. unfold settle.
  destruct (reactions q !! k) as [[p idx]|] eqn:Hk; [|done].
  assert (Hs1 : signals_ok (set_reactions (delete k (reactions q)) q)).
  { destruct Hs. by split. }
  pose proof (settle_indices q k p idx Hk) as Hkeep.
  assert (Hidx : (idx < length (_pool q))%nat).
  { unfold indices_in_pool in Hq. rewrite Forall_forall in Hq. apply Hq.
    rewrite elem_of_app. right. apply list_elem_of_fmap.
    exists (p, idx). split; [done | by eapply list_elem_of_lookup_2]. }
  destruct (replies q !! p) as [[|val|err]|]; try done.
  - pose proof (resolve_keeps_sound idx None val thrown1 _ q Hkeep Hq Hs1)
      as Hres.
    destruct (_resolve idx None val thrown1 _) as [[] q'|e q2|]; [| |done].
    + destruct Hres as (Hk1 & Hs' & Hst). split; [|done]. split; [|done].
      by eapply keeps_indices_in_pool.
    + destruct Hres as (_ & Hk2 & Hs2 & Hst2).
      assert (Hq2 : indices_in_pool q2) by by eapply keeps_indices_in_pool.
      assert (Hq2' : indices_in_pool
                (set_availableThread (_availableThread q2 ++ [idx]) q2)).
      { unfold indices_in_pool in *. cbn.
        rewrite <- app_assoc, (Permutation_app_comm [idx]), app_assoc.
        rewrite Forall_app. split; [done|].
        constructor; [|done]. by rewrite (keeps_pool _ _ Hk2). }
      pose proof (resolve_keeps_sound idx (Some e) Thread.Null thrown2 q2 _
                    (keeps_refl _) Hq2' Hs2) as Hres2.
      destruct (_resolve idx (Some e) Thread.Null thrown2 q2) as [[] q'|e' q'|];
        try done.
      destruct Hres2 as (Hk3 & Hs3 & Hst3).
      split; [|by rewrite Hst3, Hst2].
      split; [|done]. by eapply keeps_indices_in_pool.
  - pose proof (resolve_keeps_sound idx (Some err) Thread.Null thrown1 _ q
                  Hkeep Hq Hs1) as Hres.
    destruct (_resolve idx (Some err) Thread.Null thrown1 _) as [[] q'|e q2|];
      try done.
    destruct Hres as (Hk1 & Hs' & Hst). split; [|done]. split; [|done].
    by eapply keeps_indices_in_pool.
Qed.
End Soundness.

Section Operations.
Context {K T : Type}.
Import Queue.
Implicit Types (q : Queue.t K T).

Lemma alloc_signals_ok q :
  signals_ok q → signals_ok (set_signals (alloc (signals q)).2 q).
Proof.
  intros [Hs Ho]. split; cbn.
  - eapply Forall_impl; [exact Hs|]. cbn. intros p Hp.
    by apply lookup_app_l_Some.
  - intros r Hr. destruct (Ho r Hr) as [Hlt Hnot].
    rewrite length_app. cbn. split; [lia | done].
Qed.

(** [post] on a queue reachable from the constructor: it never leaves a
    rejected promise, it can only fail to return on a paused queue, and
    on return the promise is resolved (fire and forget) or pending and
    registered as the drain waiter. *)
Lemma post_sound i once q :
  sound q →
  match post i once q with
  | Normal p q' =>
      keeps q q' ∧ signals_ok q' ∧ stopping q' = stopping q
      ∧ p = length (signals q)
      ∧ (once = false → signals q' !! p = Some (Fulfilled tt))
      ∧ (once = true →
         signals q' !! p = Some Pending ∧ _onceResolver q' = Some p)
  | Threw _ _ => False
  | Diverges =>
      _active q = false ∧ _availableThread q ≠ []
      ∧ _queue q ++ pushed i ≠ []
  end.
Proof.
  intros [Hq Hs]. unfold post.
  pose proof (alloc_pending (signals q)) as Hfresh.
  pose proof (alloc_signals_ok q Hs) as Hs0.
  destruct (alloc (signals q)) as [p sg] eqn:Halloc.
  assert (Hp : p = length (signals q)) by by inversion Halloc.
  cbn [fst snd] in Hfresh, Hs0.
  set (q1 := set_queue _ _).
  assert (Hq1 : indices_in_pool q1) by exact Hq.
  assert (Hs1 : signals_ok q1) by (destruct Hs0; by split).
  assert (Hk1 : keeps q q1) by by split.
  assert (Hfilled :
    match (if (0 <? length (_availableThread q1))%nat
           then _fillThreads q1 else Normal tt q1) with
    | Normal _ q2 => dispatched q1 q2
    | Threw _ _ => False
    | Diverges =>
        _active q = false ∧ _availableThread q ≠ []
        ∧ _queue q ++ pushed i ≠ []
    end).
  { destruct (0 <? _)%nat; [|apply dispatched_refl].
    pose proof (fillThreads_dispatched q1 Hq1) as Hfill.
    destruct (_fillThreads q1) as [[] q2| |]; [by destruct Hfill|done|done]. }
  destruct (if (0 <? _)%nat then _ else _) as [[] q2| |]; try done.
  pose proof (dispatched_signals_ok _ _ Hfilled Hs1) as Hs2.
  pose proof (keeps_trans _ _ _ Hk1 (dispatched_keeps _ _ Hfilled)) as Hk2.
  pose proof (dispatched_signals _ _ Hfilled) as Hsg. cbn in Hsg.
  pose proof (dispatched_stopping _ _ Hfilled) as Hstop. cbn in Hstop.
  destruct once.
  - split; [by destruct Hk2|].
    split; [|split; [done|by rewrite <- Hsg in Hfresh]].
    destruct Hs2 as [Hst Ho]. split; cbn; [done|].
    intros r [= <-]. split.
    + rewrite Hsg. by eapply lookup_lt_Some.
    + intros Hin. rewrite Forall_forall in Hst.
      rewrite (dispatched_stopping _ _ Hfilled) in Hin. cbn in Hin.
      destruct Hs as [Hst0 _]. rewrite Forall_forall in Hst0.
      apply Hst0, lookup_lt_Some in Hin. lia.
  - split; [by destruct Hk2|].
    split; [|split; [done|split; [done|split; [|done]]]].
    + destruct Hs2 as [Hst Ho]. split; cbn.
      * rewrite Forall_forall in *. intros p' Hp'.
        rewrite resolve_other; [by apply Hst|].
        intros <-. rewrite (dispatched_stopping _ _ Hfilled) in Hp'.
        cbn in Hp'. destruct Hs as [Hst0 _]. rewrite Forall_forall in Hst0.
        apply Hst0, lookup_lt_Some in Hp'. lia.
      * intros r Hr. rewrite resolve_length. by apply Ho.
    + intros _. cbn. rewrite Hsg. by apply resolve_pending.
Qed.

(** The loop test of [stop]: asleep or done. *)
Lemma stop_loop_sound p q :
  signals_ok q → signals q !! p = Some Pending →
  p ∉ stopping q → (∀ r, _onceResolver q = Some r → r ≠ p) →
  keeps q (stop_loop p q) ∧ signals_ok (stop_loop p q).
Proof.
  intros [Hs Ho] Hp Hnot Hr. unfold stop_loop.
  destruct (negb _); split; try (split; cbn; try done).
  - rewrite Forall_app. split; [done | by constructor].
  - intros r Hr'. destruct (Ho r Hr') as [Hlt Hnr]. split; [done|].
    rewrite elem_of_app, list_elem_of_singleton.
    intros [|]; [done | by eapply Hr].
  - by rewrite length_fmap.
  - rewrite Forall_forall in *. intros p' Hp'.
    rewrite resolve_other; [by apply Hs | by intros <-].
  - intros r Hr'. rewrite resolve_length. by apply Ho.
Qed.

Lemma stop_sound q :
  sound q →
  ∃ q', stop q = Normal (length (signals q)) q'
        ∧ keeps q q' ∧ signals_ok q' ∧ _active q' = false.
Proof.
  intros [Hq Hs]. unfold stop.
  pose proof (alloc_pending (signals q)) as Hfresh.
  pose proof (alloc_signals_ok q Hs) as Hs0.
  destruct (alloc (signals q)) as [p sg] eqn:Halloc.
  assert (Hp : p = length (signals q)) by by inversion Halloc.
  cbn [fst snd] in Hfresh, Hs0. subst p.
  eexists. split; [reflexivity|].
  set (q1 := set_active false _).
  destruct (stop_loop_sound (length (signals q)) q1) as [Hk Hs1].
  - destruct Hs0. by split.
  - done.
  - cbn. intros Hin. apply (stopping_allocated q) in Hin; [lia | done].
  - cbn. intros r Hr ->. destruct Hs as [_ Ho].
    destruct (Ho _ Hr). lia.
  - split; [|split; [done|]].
    + destruct Hk. by split.
    + unfold stop_loop. by destruct (negb _).
Qed.

Lemma stop_wake_sound p q :
  sound q →
  ∃ q', stop_wake p q = Normal tt q' ∧ keeps q q' ∧ signals_ok q'.
Proof.
  intros [Hq Hs]. unfold stop_wake.
  destruct (bool_decide_reflect (p ∈ stopping q)) as [Hin | Hout];
    [|eauto using keeps_refl].
  eexists. split; [reflexivity|].
  set (q1 := set_stopping _ q).
  destruct (stop_loop_sound p q1) as [Hk Hs1].
  - destruct Hs as [Hst Ho]. split; cbn.
    + rewrite Forall_forall in *.
      intros p' [_ Hp']%list_elem_of_filter. by apply Hst.
    + intros r Hr. destruct (Ho r Hr) as [Hlt Hnr]. split; [done|].
      rewrite list_elem_of_filter. tauto.
  - cbn. destruct Hs as [Hst _]. rewrite Forall_forall in Hst. by apply Hst.
  - cbn. rewrite list_elem_of_filter. tauto.
  - cbn. intros r Hr ->. destruct Hs as [_ Ho]. by destruct (Ho _ Hr).
  - split; [|done]. destruct Hk. by split.
Qed.

Lemma worker_emits_sound idx ev q :
  sound q →
  ∃ q', worker_emits idx ev q = Normal tt q' ∧ keeps q q' ∧ signals_ok q'
        ∧ _pool q' = _pool q ∧ reactions q' = reactions q
        ∧ _availableThread q' = _availableThread q
        ∧ stopping q' = stopping q.
Proof.
  intros [Hq Hs]. unfold worker_emits.
  destruct (_pool q !! idx) as [th|] eqn:Hth.
  2: { exists q. split_and!; auto using keeps_refl. }
  destruct (on_event_returns ev th (replies q)) as [h' ->].
  rewrite (list_insert_id _ _ _ Hth).
  eexists. split; [reflexivity|].
  split_and!; try done. destruct Hs. by split.
Qed.

Lemma fold_spawn (l : list nat) q :
  let q' := fold_left spawn l q in
  _availableThread q' = _availableThread q ++ l
  ∧ length (_pool q') = (length (_pool q) + length l)%nat
  ∧ reactions q' = reactions q ∧ _concurrence q' = _concurrence q
  ∧ signals q' = signals q ∧ stopping q' = stopping q
  ∧ _onceResolver q' = _onceResolver q ∧ _active q' = _active q
  ∧ _queue q' = _queue q.
Proof.
  revert q. induction l as [|i l IH]; intros q; cbn.
  - rewrite app_nil_r. repeat split; lia.
  - destruct (IH (spawn q i)) as (-> & -> & -> & -> & -> & -> & -> & -> & ->).
    cbn. rewrite length_app, <- app_assoc. cbn. repeat split; lia.
Qed.

Lemma initialize_sound q :
  sound q →
  ∃ q', initialize q = Normal tt q' ∧ sound q'.
Proof.
  intros [Hq Hs]. unfold initialize. cbv zeta.
  pose proof (fold_spawn (seq 0 (_concurrence (set_active true q)))
                (set_active true q)) as Hfold.
  cbv zeta in Hfold. revert Hfold.
  generalize (fold_left spawn (seq 0 (_concurrence (set_active true q)))
                (set_active true q)).
  intros q2 (Hav & Hpool & Hre & Hco & Hsg & Hst & Hon & Hact & Hqu).
  cbn in Hav, Hpool, Hre, Hsg, Hst, Hon, Hact.
  rewrite length_seq in Hpool.
  assert (Hq2 : indices_in_pool q2).
  { unfold indices_in_pool in *. rewrite Hav, Hpool, Hre, <- app_assoc.
    rewrite (Permutation_app_comm (seq _ _)), app_assoc.
    rewrite Forall_app. split.
    - eapply Forall_impl; [exact Hq|]. cbn. lia.
    - rewrite Forall_forall. intros i Hi%elem_of_seq. lia. }
  assert (Hs2 : signals_ok q2).
  { destruct Hs as [Hs Ho]. split; by rewrite ?Hsg, ?Hst, ?Hon. }
  pose proof (fillThreads_dispatched q2 Hq2) as Hfill.
  destruct (_fillThreads q2) as [[] q3| |].
  - destruct Hfill as [Hd _]. exists q3. split; [done|]. split.
    + by eapply dispatched_indices_in_pool.
    + by eapply dispatched_signals_ok.
  - done.
  - destruct Hfill as [Hf _]. by rewrite Hact in Hf.
Qed.

(** Every operation of an orderly run, on a queue reachable from the
    constructor: it does not throw, and if it returns it keeps the
    indices. *)
Lemma step_keeps o q :
  orderly o = true → sound q →
  match step o q with
  | Normal _ q' => keeps q q' ∧ signals_ok q'
  | Threw _ _ => False
  | Diverges => True
  end.
Proof.
  intros Ho Hq.
  destruct o as [| | |i once| |p|idx ev|k [e1|] thrown2]; try done;
    cbn [step]; unfold forget.
  - destruct Hq as [_ Hs]. split; [done | by destruct Hs].
  - unfold resume.
    assert (Hq1 : indices_in_pool (set_active true q)) by apply Hq.
    pose proof (fillThreads_dispatched _ Hq1) as Hfill.
    destruct (_fillThreads _) as [[] q'| |]; try done.
    destruct Hfill as [Hd _]. split.
    + apply dispatched_keeps in Hd. destruct Hd. by split.
    + eapply dispatched_signals_ok; [exact Hd|].
      destruct Hq as [_ []]. by split.
  - pose proof (post_sound i once q Hq) as Hpost.
    destruct (post i once q) as [p q'| |]; cbn; try done. tauto.
  - destruct (stop_sound q Hq) as (q' & -> & Hk & Hs & _). done.
  - destruct (stop_wake_sound p q Hq) as (q' & -> & Hk & Hs). done.
  - destruct (worker_emits_sound idx ev q Hq) as (q' & -> & Hk & Hs & _).
    done.
  - pose proof (settle_sound k thrown2 q Hq) as Hset.
    destruct (settle k None thrown2 q) as [[] q'| |]; try done. tauto.
Qed.

(** Every operation keeps a queue sound, if it returns. *)
Lemma step_sound o q :
  sound q →
  match step o q with
  | Normal _ q' => sound q'
  | _ => True
  end.
Proof.
  intros Hq. destruct (orderly o) eqn:Ho.
  - pose proof (step_keeps o q Ho Hq) as Hstep.
    destruct (step o q) as [[] q'| |]; try done.
    destruct Hstep as [Hk Hs]. split; [|done].
    eapply keeps_indices_in_pool; [exact Hk | apply Hq].
  - destruct o as [| | | | | | |k thrown1 thrown2]; try done; cbn [step].
    + by destruct (initialize_sound q Hq) as (q' & -> & Hq').
    + pose proof (settle_sound_any k thrown1 thrown2 q Hq) as Hset.
      destruct (settle k thrown1 thrown2 q) as [[] q'| |]; try done.
      by destruct Hset.
Qed.

Lemma constructor_sound script C handler :
  sound (constructor (K := K) (T := T) script C handler).
Proof. split; [by constructor | by split]. Qed.

Lemma exec_sound ops q q' :
  sound q → exec ops q = Normal tt q' → sound q'.
Proof.
  revert q. induction ops as [|o ops IH]; intros q Hq; cbn.
  - by intros [= <-].
  - pose proof (step_sound o q Hq) as Hstep.
    destruct (step o q) as [[] q1| |]; try done. cbn. by apply IH.
Qed.
End Operations.

(** *** Accounting of the channels *)

Section Accounting.
Context {K T : Type}.
Import Queue.
Implicit Types (q : Queue.t K T).

Lemma keeps_accounted C q q' : keeps q q' → accounted C q → accounted C q'.
Proof.
  intros [Hc Hp Hi] [Ac Ap Ai]. split; [congruence | congruence |].
  by rewrite Hi.
Qed.

Lemma busyCount_in_flight C q :
  accounted C q → busyCount q = length (reactions q).
Proof.
  intros [Ac Ap Ai]. unfold busyCount. rewrite Ap.
  rewrite <- (length_fmap snd (reactions q)).
  apply Permutation_length, NoDup_Permutation.
  - apply NoDup_filter, NoDup_seq.
  - assert (Hnd : NoDup (_availableThread q ++ (reactions q).*2))
      by (rewrite Ai; apply NoDup_seq).
    by apply NoDup_app in Hnd as (_ & _ & Hnd).
  - intros idx. rewrite list_elem_of_filter. split; [tauto|].
    intros Hin. split; [done|]. rewrite <- Ai, elem_of_app. by right.
Qed.

Lemma accounted_sum C q :
  accounted C q → (length (_availableThread q) + busyCount q)%nat = C.
Proof.
  intros Hq. rewrite (busyCount_in_flight C q Hq).
  destruct Hq as [_ _ Ai].
  rewrite <- (length_fmap snd (reactions q)), <- length_app, Ai.
  apply length_seq.
Qed.

Lemma initialize_accounted script C handler q :
  initialize (constructor script C handler) = Normal tt q →
  accounted C q.
Proof.
  unfold initialize. cbv zeta.
  pose proof (fold_spawn (K := K) (T := T) (seq 0 C)
                (set_active true (constructor script C handler))) as Hfold.
  cbv zeta in Hfold. revert Hfold. cbn [_concurrence set_active constructor].
  generalize (fold_left spawn (seq 0 C)
                (set_active true (constructor (K := K) (T := T)
                                    script C handler))).
  intros q2 (Hav & Hpool & Hre & Hco & _). cbn in Hav, Hpool, Hre, Hco.
  rewrite length_seq in Hpool.
  assert (A2 : accounted C q2).
  { split; [done | done |]. rewrite Hav, Hre. cbn. by rewrite app_nil_r. }
  assert (Hq2 : indices_in_pool q2).
  { unfold indices_in_pool. rewrite (accounted_indices _ _ A2), Hpool.
    rewrite Forall_forall. intros i Hi%elem_of_seq. lia. }
  pose proof (fillThreads_dispatched q2 Hq2) as Hfill.
  intros Hrun. rewrite Hrun in Hfill. destruct Hfill as [Hd _].
  eapply keeps_accounted; [by apply dispatched_keeps | done].
Qed.

Lemma exec_accounted C ops q q' :
  forallb orderly ops = true →
  sound q → accounted C q →
  exec ops q = Normal tt q' → sound q' ∧ accounted C q'.
Proof.
  revert q. induction ops as [|o ops IH]; intros q Hops Hq Aq; cbn.
  - by intros [= <-].
  - cbn in Hops. apply andb_true_iff in Hops as [Ho Hops].
    pose proof (step_keeps o q Ho Hq) as Hstep.
    destruct (step o q) as [[] q1| |]; try done. cbn.
    destruct Hstep as [Hk Hs]. apply IH; [done | | by eapply keeps_accounted].
    split; [|done]. eapply keeps_indices_in_pool; [exact Hk | apply Hq].
Qed.

Lemma run_accounted script C handler ops q :
  forallb orderly ops = true →
  exec (Initialize :: ops) (constructor script C handler) = Normal tt q →
  sound q ∧ accounted C q.
Proof.
  intros Hops. cbn [exec step].
  destruct (initialize_sound (K := K) (T := T) _
              (constructor_sound script C handler))
    as (q0 & Hinit & Hq0).
  rewrite Hinit. cbn [bind].
  apply exec_accounted; [done | done |].
  by eapply initialize_accounted.
Qed.

(** C1, as the code has it. After one [initialize()] on a new queue of
    concurrency [C], and then any sequence of [post], [pause], [resume],
    [stop], worker events, timer wake-ups and settlements at which the
    handler returns, the number of idle indices plus the number of busy
    channels is [C]. *)
Theorem accounting_after_one_initialize script C handler ops q :
  forallb orderly ops = true →
  exec (Initialize :: ops) (constructor script C handler) = Normal tt q →
  (length (_availableThread q) + busyCount q)%nat = C.
Proof.
  intros Hops Hrun. eapply accounted_sum.
  by eapply run_accounted.
Qed.
End Accounting.

(** C1 as stated fails: a second [initialize()] pushes the indices again,
    so that a pool of concurrency 1 with no busy channel has two idle
    indices. *)
Lemma initialize_twice_breaks_accounting :
  ∃ q : Queue.t nat nat,
    Queue.exec [Queue.Initialize; Queue.Initialize]
      (Queue.constructor "worker.js" 1 true) = Normal tt q
    ∧ Queue._concurrence q = 1%nat
    ∧ Queue._availableThread q = [0%nat; 0%nat]
    ∧ Queue.busyCount q = 0%nat
    ∧ (length (Queue._availableThread q) + Queue.busyCount q)%nat
      ≠ Queue._concurrence q.
Proof.
  eexists. split; [vm_compute; reflexivity|].
  vm_compute. repeat split. discriminate.
Qed.

(** Within one [initialize()], the other way to lose the equality: a
    handler that throws at the call made by the [then] callback is called
    again by the [catch] callback, and the index of the channel is pushed a
    second time. *)
Lemma throwing_handler_pushes_twice :
  ∃ q : Queue.t nat nat,
    Queue.exec
      [Queue.Initialize; Queue.Post (Queue.One 7%nat) false;
       Queue.WorkerEmits 0 (Thread.OnMessage 9%nat);
       Queue.Settle 0 (Some (MkError "handler failed")) None]
      (Queue.constructor "worker.js" 1 true) = Normal tt q
    ∧ Queue._availableThread q = [0%nat; 0%nat]
    ∧ Queue.reactions q = []
    ∧ Queue.delivered q
      = [(None, Thread.Value 9%nat);
         (Some (MkError "handler failed"), Thread.Null)].
Proof.
  eexists. split; [vm_compute; reflexivity|]. vm_compute. by repeat split.
Qed.

(** A pool of two channels given three items, one of which has been
    answered. *)
Lemma accounting_after_one_initialize_witness :
  ∃ q : Queue.t nat nat,
    Queue.exec
      [Queue.Initialize; Queue.Post (Queue.Many [1; 2; 3]%nat) false;
       Queue.WorkerEmits 0 (Thread.OnMessage 5%nat);
       Queue.Settle 0 None None]
      (Queue.constructor "worker.js" 2 true) = Normal tt q
    ∧ Queue.busyCount q = 2%nat
    ∧ (length (Queue._availableThread q) + Queue.busyCount q)%nat = 2%nat.
Proof.
  eexists. split; [vm_compute; reflexivity|].
  split; [vm_compute; reflexivity|].
  apply (accounting_after_one_initialize "worker.js" 2 true
           [Queue.Post (Queue.Many [1; 2; 3]%nat) false;
            Queue.WorkerEmits 0 (Thread.OnMessage 5%nat);
            Queue.Settle 0 None None]);
    vm_compute; reflexivity.
Defined.

(** *** [stop] *)

Section Stop.
Context {K T : Type}.
Import Queue.
Implicit Types (q : Queue.t K T).

(** The loop test of [stop] on an accounted pool: the call sleeps while
    a channel is busy, and otherwise closes every thread and returns. *)
Lemma stop_loop_accounted C p q :
  accounted C q → signals q !! p = Some Pending →
  let q' := stop_loop p q in
  busyCount q' = busyCount q
  ∧ (busyCount q ≠ 0%nat →
     p ∈ stopping q' ∧ signals q' !! p = Some Pending)
  ∧ (busyCount q = 0%nat →
     signals q' !! p = Some (Fulfilled tt) ∧ all_terminated q'
     ∧ stopping q' = stopping q).
Proof.
  intros Aq Hp. pose proof (accounted_sum C q Aq) as Hsum.
  destruct Aq as [Ac _ _]. cbv zeta. unfold stop_loop. rewrite Ac.
  destruct (Nat.eqb_spec (length (_availableThread q)) C) as [Heq | Hne];
    cbn [negb].
  - split_and!.
    + unfold busyCount. cbn. by rewrite length_fmap.
    + lia.
    + intros _. split_and!; cbn; [by apply resolve_pending | | done].
      unfold all_terminated. cbn. rewrite Forall_fmap.
      by apply Forall_true.
  - split_and!; [done | | lia].
    intros _. cbn. split; [|done].
    rewrite elem_of_app, list_elem_of_singleton. by right.
Qed.

(** A sleeping [stop] call is woken by its own timer only. *)
Lemma step_keeps_sleeping o q q' p :
  sound q → step o q = Normal tt q' → o ≠ StopWakes p →
  p ∈ stopping q → p ∈ stopping q'.
Proof.
  intros Hq Hstep Ho Hp.
  destruct o as [| | |i once| |p'|idx ev|k thrown1 thrown2];
    cbn [step] in Hstep; unfold forget in Hstep.
  - unfold initialize in Hstep. cbv zeta in Hstep.
    apply fillThreads_loop_signals in Hstep as (_ & _ & ->).
    by destruct (fold_spawn (seq 0 (_concurrence (set_active true q)))
                   (set_active true q)) as (_ & _ & _ & _ & _ & -> & _).
  - by injection Hstep as <-.
  - apply fillThreads_loop_signals in Hstep as (_ & _ & ->). done.
  - pose proof (post_sound i once q Hq) as Hpost.
    destruct (post i once q) as [r q1| |]; try done.
    cbn in Hstep. injection Hstep as <-.
    destruct Hpost as (_ & _ & -> & _). done.
  - unfold stop in Hstep. destruct (alloc (signals q)) as [r sg].
    cbn in Hstep. injection Hstep as <-.
    unfold stop_loop. destruct (negb _); cbn; [|done].
    rewrite elem_of_app. by left.
  - unfold stop_wake in Hstep.
    destruct (bool_decide (p' ∈ stopping q)); injection Hstep as <-;
      [|done].
    assert (Hin : p ∈ filter (λ r, r ≠ p') (stopping q)).
    { apply list_elem_of_filter. split; [congruence | done]. }
    unfold stop_loop. destruct (negb _); cbn; [|done].
    rewrite elem_of_app. by left.
  - destruct (worker_emits_sound idx ev q Hq)
      as (q1 & Hrun & _ & _ & _ & _ & _ & Hst).
    rewrite Hrun in Hstep. injection Hstep as <-. by rewrite Hst.
  - pose proof (settle_sound_any k thrown1 thrown2 q Hq) as Hset.
    rewrite Hstep in Hset. destruct Hset as (_ & ->). done.
Qed.

(** C7, as the code has it. On a pool initialized once, in an orderly
    run: [stop()] clears
    the active flag; while a channel is busy the call is asleep with its
    promise pending, at the call and at every wake-up; no other operation
    settles that promise; and when the promise is fulfilled no channel is
    busy and every thread of the pool has been terminated. On an idle
    pool [stop()] returns at once. *)
Theorem stop_waits_for_idle script C handler ops q :
  forallb orderly ops = true →
  exec (Initialize :: ops) (constructor script C handler) = Normal tt q →
  (∃ p q', stop q = Normal p q' ∧ _active q' = false
     ∧ (busyCount q ≠ 0%nat →
        p ∈ stopping q' ∧ signals q' !! p = Some Pending)
     ∧ (busyCount q = 0%nat → signals q' !! p = Some (Fulfilled tt))
     ∧ (signals q' !! p = Some (Fulfilled tt) →
        busyCount q' = 0%nat ∧ all_terminated q'))
  ∧ (∀ p, p ∈ stopping q →
       ∃ q', stop_wake p q = Normal tt q'
         ∧ (busyCount q ≠ 0%nat →
            p ∈ stopping q' ∧ signals q' !! p = Some Pending)
         ∧ (signals q' !! p = Some (Fulfilled tt) →
            busyCount q' = 0%nat ∧ all_terminated q'))
  ∧ (∀ p o q', p ∈ stopping q → o ≠ StopWakes p →
       step o q = Normal tt q' →
       p ∈ stopping q' ∧ signals q' !! p = Some Pending).
Proof.
  intros Hops Hrun.
  destruct (run_accounted script C handler ops q Hops Hrun) as [Hq Aq].
  split_and!.
  - unfold stop.
    pose proof (alloc_pending (signals q)) as Hfresh.
    destruct (alloc (signals q)) as [p sg]. cbn [fst snd] in Hfresh.
    eexists p, _. split; [reflexivity|].
    set (q1 := set_active false (set_signals sg q)).
    assert (A1 : accounted C q1) by (destruct Aq; by split).
    destruct (stop_loop_accounted C p q1 A1 Hfresh) as (Hb & Hbusy & Hidle).
    change (busyCount q1) with (busyCount q) in Hb, Hbusy, Hidle.
    split_and!.
    + unfold stop_loop. by destruct (negb _).
    + done.
    + intros H0. by apply Hidle.
    + intros Hdone. destruct (decide (busyCount q = 0%nat)) as [H0 | Hn].
      * split; [lia | by apply Hidle].
      * destruct (Hbusy Hn) as [_ Hpend]. congruence.
  - intros p Hp. unfold stop_wake. rewrite bool_decide_eq_true_2 by done.
    eexists. split; [reflexivity|].
    set (q1 := set_stopping _ q).
    assert (A1 : accounted C q1) by (destruct Aq; by split).
    assert (Hpend : signals q1 !! p = Some Pending).
    { destruct Hq as [_ [Hst _]]. rewrite Forall_forall in Hst.
      by apply Hst. }
    destruct (stop_loop_accounted C p q1 A1 Hpend) as (Hb & Hbusy & Hidle).
    change (busyCount q1) with (busyCount q) in Hb, Hbusy, Hidle.
    split; [done|].
    intros Hdone. destruct (decide (busyCount q = 0%nat)) as [H0 | Hn].
    + split; [lia | by apply Hidle].
    + destruct (Hbusy Hn) as [_ Hpend']. congruence.
  - intros p o q' Hp Ho Hstep.
    pose proof (step_keeps_sleeping o q q' p Hq Hstep Ho Hp) as Hin.
    split; [done|].
    pose proof (step_sound o q Hq) as Hs. rewrite Hstep in Hs.
    destruct Hs as [_ [Hst _]]. rewrite Forall_forall in Hst. by apply Hst.
Qed.
End Stop.

(** C7 as stated fails: after a second [initialize()] a pool of concurrency
    1 has two idle indices; with one item in flight on channel 0 the idle
    list has length 1 again, [stop()] passes its test at once, closes the
    threads and returns while the request on channel 0 is pending. *)
Lemma stop_returns_while_busy :
  ∃ (q q' : Queue.t nat nat) (p : nat),
    Queue.exec
      [Queue.Initialize; Queue.Initialize; Queue.Post (Queue.One 7%nat) false]
      (Queue.constructor "worker.js" 1 true) = Normal tt q
    ∧ Queue.stop q = Normal p q'
    ∧ Queue.signals q' !! p = Some (Fulfilled tt)
    ∧ Queue.reactions q' = [(0%nat, 0%nat)]
    ∧ Queue.replies q' !! 0%nat = Some Pending
    ∧ Queue.busyCount q' = 1%nat.
Proof.
  eexists _, _, _. split; [vm_compute; reflexivity|].
  split; [vm_compute; reflexivity|]. vm_compute. by repeat split.
Qed.

(** A pool of one channel: [stop()] called while the channel is busy
    sleeps, and returns at the wake-up that follows the settlement. *)
Lemma stop_waits_for_idle_witness :
  ∃ (q q1 q2 q3 : Queue.t nat nat) (p : nat),
    Queue.exec [Queue.Initialize; Queue.Post (Queue.One 7%nat) false]
      (Queue.constructor "worker.js" 1 true) = Normal tt q
    ∧ Queue.busyCount q = 1%nat
    ∧ Queue.stop q = Normal p q1
    ∧ Queue.signals q1 !! p = Some Pending
    ∧ Queue.exec [Queue.WorkerEmits 0 (Thread.OnMessage 9%nat);
                  Queue.Settle 0 None None] q1 = Normal tt q2
    ∧ Queue.stop_wake p q2 = Normal tt q3
    ∧ Queue.signals q3 !! p = Some (Fulfilled tt)
    ∧ Queue.all_terminated q3.
Proof.
  pose proof (stop_waits_for_idle (K := nat) (T := nat) "worker.js" 1 true
                [Queue.Post (Queue.One 7%nat) false]) as Hstop.
  pose proof (stop_waits_for_idle (K := nat) (T := nat) "worker.js" 1 true
                [Queue.Post (Queue.One 7%nat) false; Queue.Stop;
                 Queue.WorkerEmits 0 (Thread.OnMessage 9%nat);
                 Queue.Settle 0 None None]) as Hwake.
  eexists _, _, _, _, _.
  split; [vm_compute; reflexivity|]. split; [vm_compute; reflexivity|].
  split; [vm_compute; reflexivity|].
  split.
  { destruct (Hstop _ eq_refl ltac:(vm_compute; reflexivity))
      as [(p & q' & Hrun & _ & Hbusy & _) _].
    vm_compute in Hrun. injection Hrun as <- <-.
    apply Hbusy. vm_compute. discriminate. }
  split; [vm_compute; reflexivity|]. split; [vm_compute; reflexivity|].
  split; [vm_compute; reflexivity|].
  destruct (Hwake _ eq_refl ltac:(vm_compute; reflexivity))
    as (_ & Hw & _).
  destruct (Hw 1%nat ltac:(vm_compute; apply list_elem_of_here))
    as (q' & Hrun & _ & Hdone).
  vm_compute in Hrun. injection Hrun as <-.
  apply Hdone. vm_compute. reflexivity.
Defined.

(** * Further properties *)

(** ** Thread: replies, late events and overwritten requests *)

Section ThreadReplies.
Context {K T : Type}.
Implicit Types (th : Thread.t K) (h : store (Thread.reply T)).

(** X1. While a request is pending, a message fulfils it with the value
    of the message; an error event whose value is truthy rejects it with
    that value; and an error event whose value is falsy fulfils it with
    [undefined], since [_receiveMessage] tests [err] for truthiness and
    the [error] listener passes no data. The thread is left as it was. *)
Theorem reply_settles_request th h p :
  Thread.pending th h p →
  (∀ val, Thread.on_event (Thread.OnMessage val) th h
          = Normal tt (th, <[p := Fulfilled (Thread.Value val)]> h))
  ∧ (∀ err, Thread.on_event (Thread.OnError (Some err)) th h
            = Normal tt (th, <[p := Rejected err]> h))
  ∧ Thread.on_event (Thread.OnError None) th h
    = Normal tt (th, <[p := Fulfilled Thread.Undefined]> h).
Proof.
  intros (Hr & Hj & Hp). split_and!; try intros x; cbn;
    unfold Thread._receiveMessage, Thread.call; rewrite Hr, Hj; cbn.
  - unfold resolve. by rewrite Hp.
  - unfold reject. by rewrite Hp.
  - unfold resolve. by rewrite Hp.
Qed.

(** Any event settles a pending request. *)
Lemma event_settles ev th h p :
  Thread.pending th h p →
  ∃ x, x ≠ Pending ∧ Thread.on_event ev th h = Normal tt (th, <[p := x]> h).
Proof.
  intros (Hr & Hj & Hp).
  destruct ev as [val | [err|] | signal]; cbn;
    [| | |destruct (signal =? 0)];
    unfold Thread._receiveMessage, Thread.call; rewrite Hr, Hj; cbn;
    unfold resolve, reject; rewrite Hp; eexists; split; try reflexivity;
    done.
Qed.

(** An event on a thread whose functions belong to a settled promise
    changes nothing. *)
Lemma event_on_settled ev th h p x :
  Thread._resolver th = Some p → Thread._rejector th = Some p →
  h !! p = Some x → x ≠ Pending →
  Thread.on_event ev th h = Normal tt (th, h).
Proof.
  intros Hr Hj Hp Hx.
  assert (Hres : ∀ v, resolve p v h = h).
  { intros v. unfold resolve. rewrite Hp. by destruct x. }
  assert (Hrej : ∀ e, reject p e h = h).
  { intros e. unfold reject. rewrite Hp. by destruct x. }
  destruct ev as [val | [err|] | signal]; cbn;
    [| | |destruct (signal =? 0)];
    unfold Thread._receiveMessage, Thread.call; rewrite Hr, Hj; cbn;
    by rewrite ?Hres, ?Hrej.
Qed.

(** X2. The functions of a request stay registered after it has settled, but
    only the first event counts: whatever events follow the one that
    settled a pending request, the thread and every promise stay as that
    first event left them. *)
Theorem first_event_wins th h p ev evs h1 :
  Thread.pending th h p →
  Thread.on_event ev th h = Normal tt (th, h1) →
  Thread.on_events evs th h1 = Normal tt (th, h1).
Proof.
  intros Hpend Hrun.
  destruct (event_settles ev th h p Hpend) as (x & Hx & Hfirst).
  rewrite Hfirst in Hrun. injection Hrun as <-.
  destruct Hpend as (Hr & Hj & Hp).
  assert (Hp1 : (<[p := x]> h) !! p = Some x).
  { apply list_lookup_insert_eq. by eapply lookup_lt_Some. }
  induction evs as [|ev' evs IH]; cbn; [done|].
  by rewrite (event_on_settled ev' th _ p x Hr Hj Hp1 Hx).
Qed.

(** Events only touch the promise whose functions the thread holds. *)
Lemma event_other_promise ev th h p p' :
  Thread._resolver th = Some p → Thread._rejector th = Some p → p' ≠ p →
  ∃ h', Thread.on_event ev th h = Normal tt (th, h') ∧ h' !! p' = h !! p'.
Proof.
  intros Hr Hj Hne.
  assert (Hres : ∀ v, resolve p v h !! p' = h !! p').
  { intros v. by apply resolve_other. }
  assert (Hrej : ∀ e, reject p e h !! p' = h !! p').
  { intros e. unfold reject. destruct (h !! p) as [[]|]; try done.
    by apply list_lookup_insert_ne. }
  destruct ev as [val | [err|] | signal]; cbn;
    [| | |destruct (signal =? 0)];
    unfold Thread._receiveMessage, Thread.call; rewrite Hr, Hj; cbn; eauto.
Qed.

(** X3. A second [post] before the reply to the first overwrites the two
    functions: no sequence of worker events settles the promise returned
    by the first [post], which stays pending for ever, while the first
    event settles the promise of the second. Both values were sent. *)
Theorem second_post_orphans_first (v1 v2 : K) th h evs :
  let '(th1, p1, h1) := Thread.post v1 th h in
  let '(th2, p2, h2) := Thread.post v2 th1 h1 in
  Thread.posted (Thread._worker th2)
  = Thread.posted (Thread._worker th) ++ [v1; v2]
  ∧ ∃ h', Thread.on_events evs th2 h2 = Normal tt (th2, h')
          ∧ h' !! p1 = Some Pending
          ∧ (evs = [] ∨ ∃ x, h' !! p2 = Some x ∧ x ≠ Pending).
Proof.
  unfold Thread.post, alloc. cbn [fst snd].
  set (th2 := Thread.MkThread _ _ _).
  set (p1 := length h). set (p2 := length (h ++ [Pending])).
  assert (Hne : p1 ≠ p2).
  { subst p1 p2. rewrite length_app. cbn. lia. }
  split; [cbn; by rewrite <- app_assoc|].
  assert (Hinv : ∀ evs h2,
    h2 !! p1 = Some Pending →
    ∃ h', Thread.on_events evs th2 h2 = Normal tt (th2, h')
          ∧ h' !! p1 = Some Pending
          ∧ (∀ x, h2 !! p2 = Some x → x ≠ Pending → h' !! p2 = Some x)).
  { clear evs. induction evs as [|ev evs IH]; intros h2 H1;
      cbn [Thread.on_events]; [eauto|].
    destruct (event_other_promise ev th2 h2 p2 p1 eq_refl eq_refl Hne)
      as (h3 & Hrun & Hsame).
    rewrite Hrun. cbn [bind fst snd].
    destruct (IH h3) as (h' & Hrest & H1' & Hkeep).
    { by rewrite Hsame. }
    exists h'. split_and!; try done.
    intros x Hx Hset. apply Hkeep; [|done].
    rewrite (event_on_settled ev th2 h2 p2 x eq_refl eq_refl Hx Hset) in Hrun.
    by injection Hrun as <-. }
  assert (H1 : ((h ++ [Pending]) ++ [Pending]) !! p1 = Some Pending).
  { apply lookup_app_l_Some. subst p1. rewrite lookup_app_r by lia.
    by rewrite Nat.sub_diag. }
  assert (H2 : ((h ++ [Pending]) ++ [Pending]) !! p2 = Some Pending).
  { subst p2. rewrite lookup_app_r by lia. by rewrite Nat.sub_diag. }
  destruct evs as [|ev evs].
  { eexists. split; [reflexivity|]. split; [done|]. by left. }
  cbn [Thread.on_events].
  destruct (event_settles ev th2 _ p2 (conj eq_refl (conj eq_refl H2)))
    as (x & Hx & Hfirst).
  rewrite Hfirst. cbn [bind fst snd].
  destruct (Hinv evs (<[p2 := x]> ((h ++ [Pending]) ++ [Pending])))
    as (h' & Hrun & H1' & Hkeep).
  { by rewrite list_lookup_insert_ne. }
  exists h'. split_and!; try done.
  right. exists x. split; [|done]. apply Hkeep; [|done].
  apply list_lookup_insert_eq. by eapply lookup_lt_Some.
Qed.

(** X4. [Execute] on any store of promises, when the worker replies: one
    message was sent, the caller's promise is fulfilled with the reply,
    the thread has been closed, and the promises that existed before the
    call are untouched. Before the reply nothing of this has happened. *)
Theorem Execute_returns_reply script (data : K) (val : T) h :
  let '(x0, h0) := Thread.Execute script data h in
  let '(x1, h1) := Thread.Execute_event (Thread.OnMessage val) x0 h0 in
  let '(x2, h2) := Thread.Execute_resume x1 h1 in
  h0 !! Thread.result x0 = Some Pending
  ∧ Thread.terminated (Thread._worker (Thread.thread x0)) = false
  ∧ Thread.Execute_resume x0 h0 = (x0, h0)
  ∧ h2 !! Thread.result x2 = Some (Fulfilled (Thread.Value val))
  ∧ Thread.posted (Thread._worker (Thread.thread x2)) = [data]
  ∧ Thread.terminated (Thread._worker (Thread.thread x2)) = true
  ∧ take (length h) h2 = h.
Proof.
  unfold Thread.Execute, Thread.post, alloc. cbn [fst snd].
  unfold Thread.Execute_event. cbn [Thread.thread Thread.request
    Thread.result Thread.finished Thread.on_event].
  unfold Thread._receiveMessage, Thread.call. cbn.
  set (r := length h). set (p := length (h ++ [Pending])).
  set (h0 := (h ++ [Pending]) ++ [Pending]).
  assert (Hp : p = S r) by (subst p r; rewrite length_app; cbn; lia).
  assert (Hr0 : h0 !! r = Some Pending).
  { subst h0 r. apply lookup_app_l_Some. rewrite lookup_app_r by lia.
    by rewrite Nat.sub_diag. }
  assert (Hp0 : h0 !! p = Some Pending).
  { subst h0 p. rewrite lookup_app_r by lia. by rewrite Nat.sub_diag. }
  rewrite (resolve_pending p (Thread.Value val) h0 Hp0).
  assert (Hr1 : resolve p (Thread.Value val) h0 !! r = Some Pending).
  { rewrite resolve_other by lia. done. }
  split_and!; try done.
  - unfold Thread.Execute_resume. cbn. by rewrite Hp0.
  - by apply resolve_pending.
  - unfold resolve at 1. rewrite Hr1.
    rewrite take_insert_ge by (subst r; lia).
    unfold resolve. rewrite Hp0.
    rewrite take_insert_ge by (subst r; lia).
    subst h0 r. rewrite <- app_assoc. by rewrite take_app_length.
Qed.
End ThreadReplies.

(** A request answered by a message, followed by an exit of the worker. *)
Lemma first_event_wins_witness :
  let '(th, p, h) := Thread.post (K := nat) (T := nat) 7%nat
                       (Thread.constructor "worker.js") [] in
  Thread.on_events
    [Thread.OnExit 0; Thread.OnError (Some (MkError "late"));
     Thread.OnError None] th
    [Fulfilled (Thread.Value 9%nat)]
  = Normal tt (th, [Fulfilled (Thread.Value 9%nat)]).
Proof.
  cbn [Thread.post alloc fst snd].
  refine (first_event_wins (K := nat) (T := nat) _ [Pending] 0%nat
            (Thread.OnMessage 9%nat) _ _ _ _);
    [by repeat split | reflexivity].
Defined.

(** A pending request answered by a message, by an error, and by an error
    event whose value is the empty string. *)
Lemma reply_settles_request_witness :
  let '(th, p, h) := Thread.post (K := nat) (T := nat) 7%nat
                       (Thread.constructor "worker.js") [] in
  Thread.on_event (Thread.OnMessage 9%nat) th h
  = Normal tt (th, [Fulfilled (Thread.Value 9%nat)])
  ∧ Thread.on_event (Thread.OnError (Some (MkError "boom"))) th h
    = Normal tt (th, [Rejected (MkError "boom")])
  ∧ Thread.on_event (Thread.OnError None) th h
    = Normal tt (th, [Fulfilled Thread.Undefined]).
Proof.
  cbn [Thread.post alloc fst snd].
  pose proof (reply_settles_request (K := nat) (T := nat)
    (Thread.post (T := nat) 7%nat (Thread.constructor "worker.js") []).1.1
    [Pending] 0%nat ltac:(by repeat split)) as (Hm & He & Hf).
  split_and!; [exact (Hm 9%nat) | exact (He (MkError "boom")) | exact Hf].
Defined.

(** ** Parallel: units in flight, retries and the end of a run *)

Section Flight.
Import Parallel.
Implicit Types (s : Parallel.t) (e : event).

Lemma filter_insert_out {A} (P : A → Prop) `{∀ x, Decision (P x)}
    (l : list A) i x y :
  l !! i = Some x → P x → ¬ P y →
  S (length (filter P (<[i := y]> l))) = length (filter P l).
Proof.
  intros Hi Hx Hy.
  rewrite insert_take_drop by by eapply lookup_lt_Some.
  rewrite <- (take_drop_middle l i x Hi) at 3.
  rewrite !filter_app, !length_app, filter_cons_False, filter_cons_True
    by done.
  cbn. lia.
Qed.

Lemma filter_insert_in {A} (P : A → Prop) `{∀ x, Decision (P x)}
    (l : list A) i x y :
  l !! i = Some x → P x → P y →
  length (filter P (<[i := y]> l)) = length (filter P l).
Proof.
  intros Hi Hx Hy.
  rewrite insert_take_drop by by eapply lookup_lt_Some.
  rewrite <- (take_drop_middle l i x Hi) at 3.
  rewrite !filter_app, !length_app, !filter_cons_True by done.
  done.
Qed.

(** The state after [n] calls of [consume] in a row. *)
Lemma iter_consume_state n s :
  let s' := Nat.iter n consume s in
  offsetCount s' = offsetCount s + Z.of_nat n
  ∧ processingCount s' = processingCount s + Z.of_nat n
  ∧ loops s' = loops s ++ replicate n AwaitHandler
  ∧ count s' = count s ∧ concurrency s' = concurrency s
  ∧ paused s' = paused s ∧ finishHandler s' = finishHandler s
  ∧ promises s' = promises s ∧ pausing s' = pausing s.
Proof.
  induction n as [|n IH]; cbv zeta.
  - cbn. rewrite app_nil_r. repeat split; lia.
  - change (Nat.iter (S n) consume s) with (consume (Nat.iter n consume s)).
    cbv zeta in IH. revert IH. generalize (Nat.iter n consume s).
    intros s' (Ho & Hp & Hl & Hc & Hw & Hpa & Hf & Hpr & Hpg).
    unfold consume. cbn.
    rewrite Ho, Hp, Hl, Hc, Hw, Hpa, Hf, Hpr, Hpg, replicate_cons_app.
    rewrite app_assoc. repeat split; lia.
Qed.

Lemma filter_in_flight_fresh (l : list phase) n :
  length (filter in_flight (l ++ replicate n AwaitHandler))
  = (length (filter in_flight l) + n)%nat.
Proof.
  rewrite filter_app, length_app. f_equal.
  induction n as [|n IH]; [done|].
  change (replicate (S n) AwaitHandler)
    with (AwaitHandler :: replicate n AwaitHandler).
  rewrite filter_cons_True by done. cbn [length]. by rewrite IH.
Qed.

Lemma flight_same s s' :
  processingCount s' = processingCount s → loops s' = loops s →
  concurrency s' = concurrency s → paused s' = paused s →
  pausing s' = pausing s → flight_inv s → flight_inv s'.
Proof. intros Hp Hl Hc Hpa Hpg [? ? ? ?]. split; congruence. Qed.

(** [n] fresh invocations started from a state with nothing in flight,
    when the width allows [n]. *)
Lemma iter_consume_flight n s :
  flight_inv s → processingCount s = 0 →
  Z.of_nat n ≤ Z.max 0 (concurrency s) →
  flight_inv (Nat.iter n consume s).
Proof.
  intros [Hc Hw Hpa Hpg] H0 Hn.
  destruct (iter_consume_state n s)
    as (_ & Hp & Hl & _ & Hwd & Hpa' & _ & _ & Hpg').
  split.
  - rewrite Hp, Hl, filter_in_flight_fresh, Hc. lia.
  - rewrite Hp, Hwd. lia.
  - congruence.
  - congruence.
Qed.

Lemma consume_end_flight id s ph :
  loops s !! id = Some ph → in_flight ph →
  flight_inv s → flight_inv (consume_end id s).
Proof.
  intros Hid Hph [Hc Hw Hpa Hpg]. unfold consume_end.
  set (s1 := set_loops _ _).
  assert (Hc1 : processingCount s1
                = Z.of_nat (length (filter in_flight (loops s1)))).
  { subst s1. cbn.
    pose proof (filter_insert_out in_flight (loops s) id ph Ended Hid Hph
                  ltac:(unfold in_flight; tauto)) as Hlen.
    rewrite Hc. lia. }
  assert (Hs1 : processingCount s1 = processingCount s - 1
                ∧ concurrency s1 = concurrency s ∧ paused s1 = false
                ∧ pausing s1 = []) by done.
  destruct Hs1 as (Hp1 & Hw1 & Hpa1 & Hpg1). clearbody s1.
  destruct (offsetCount s1 =? count s1).
  - destruct (finishHandler s1); split; cbn; try done; lia.
  - destruct (_ && _).
    + unfold consume.
      split; cbn [processingCount loops concurrency paused pausing
                  set_claimed set_invoked set_loops set_offsetCount
                  set_processingCount]; try done.
      * change (loops s1 ++ [AwaitHandler])
          with (loops s1 ++ replicate 1 AwaitHandler).
        rewrite filter_in_flight_fresh, Hc1. lia.
      * lia.
    + split; try done. lia.
Qed.

Lemma step_flight e s : flight_inv s → flight_inv (step e s).
Proof.
  intros Hs. destruct e as [id | id | id | | p | |]; cbn [step].
  - unfold handler_resolves.
    destruct (loops s !! id) as [[]|] eqn:Hid; try done;
      by eapply consume_end_flight.
  - unfold handler_rejects.
    destruct (loops s !! id) as [[]|] eqn:Hid; try done.
    + destruct Hs as [Hc Hw Hpa Hpg]. split; cbn; try done.
      by rewrite (filter_insert_in in_flight (loops s) id AwaitHandler
                    (AwaitBackoff 5000) Hid).
    + eapply consume_end_flight; [exact Hid | done |].
      by apply (flight_same s).
  - unfold timer_fires.
    destruct (loops s !! id) as [[]|] eqn:Hid; try done.
    destruct Hs as [Hc Hw Hpa Hpg]. split; cbn; try done.
    by rewrite (filter_insert_in in_flight (loops s) id (AwaitBackoff ms)
                  AwaitRetry Hid).
  - unfold pause, this_pause_truthy. rewrite orb_true_r. cbn.
    by apply (flight_same s).
  - unfold pause_wake. rewrite (flight_pausing s Hs).
    by rewrite bool_decide_eq_false_2 by apply not_elem_of_nil.
  - unfold resume. destruct (Z.ltb_spec 0 (processingCount s)); [done|].
    assert (H0 : processingCount s = 0).
    { rewrite (flight_count s Hs) in *. lia. }
    apply iter_consume_flight; cbn; [|done|lia].
    destruct Hs as [Hc Hw Hpa Hpg]. split; cbn; try done. lia.
  - unfold waitFinish. cbn. destruct (_ =? _); cbn;
      by apply (flight_same s).
Qed.

Lemma create_flight name count concurrency :
  flight_inv (create name count concurrency).
Proof.
  unfold create, start.
  set (s0 := constructor _).
  assert (H0 : flight_inv s0 ∧ processingCount s0 = 0).
  { subst s0. unfold constructor. cbn.
    destruct (_ <? _); (split; [split; cbn; try done; lia | done]). }
  destruct H0. apply iter_consume_flight; [done | done | lia].
Qed.

Lemma exec_flight es s : flight_inv s → flight_inv (exec es s).
Proof.
  revert s. induction es as [|e es IH]; intros s Hs; cbn; [done|].
  apply IH. by apply step_flight.
Qed.

(** X5. Bounded concurrency. In every state a runner can reach, the
    processing counter is the number of [consume] invocations that have
    not ended, it is never negative and never above the width; and the
    paused flag is never set. *)
Theorem in_flight_within_width name count concurrency es :
  let s := exec es (create name count concurrency) in
  processingCount s = Z.of_nat (length (filter in_flight (loops s)))
  ∧ 0 ≤ processingCount s ≤ Z.max 0 (Parallel.concurrency s)
  ∧ paused s = false.
Proof.
  cbv zeta.
  destruct (exec_flight es _ (create_flight name count concurrency))
    as [Hc Hw Hpa _].
  split_and!; try done. rewrite Hc. lia.
Qed.
End Flight.

Section Retries.
Import Parallel.
Implicit Types (s : Parallel.t) (e : event).

Lemma calls_ok_same s s' id ph :
  invoked s' = invoked s → calls_ok s id ph → calls_ok s' id ph.
Proof. unfold calls_ok, calls_of. by intros ->. Qed.

Lemma calls_inv_same s s' :
  invoked s' = invoked s → loops s' = loops s → calls_inv s → calls_inv s'.
Proof.
  intros Hi Hl Hs id ph Hid. rewrite Hl in Hid.
  eapply calls_ok_same; [exact Hi | by apply Hs].
Qed.

(** One invocation changes where it stands, the calls staying the same. *)
Lemma calls_inv_insert s id ph :
  calls_inv s → calls_ok s id ph →
  calls_inv (set_loops (<[id := ph]> (loops s)) s).
Proof.
  intros Hs Hph id' ph' Hid'. cbn in Hid'.
  apply list_lookup_insert_Some in Hid' as [(-> & -> & _) | [Hne Hid']].
  - by apply (calls_ok_same s).
  - apply (calls_ok_same s); [done | by apply Hs].
Qed.

Lemma consume_calls s : cursor_inv s → calls_inv s → calls_inv (consume s).
Proof.
  intros Hc Hs id ph Hid. unfold consume in *. cbn in Hid.
  assert (Hcalls : calls_of id (consume s)
    = calls_of id s
      ++ (if decide (length (loops s) = id) then [offsetCount s + 1]
          else [])).
  { unfold calls_of, consume. cbn. apply calls_of_snoc. }
  apply lookup_app_Some in Hid as [Hid | [Hge Hid]].
  - assert (Hlt : (id < length (loops s))%nat) by by eapply lookup_lt_Some.
    rewrite decide_False, app_nil_r in Hcalls by lia.
    specialize (Hs id ph Hid). unfold calls_ok in *. unfold consume in Hcalls.
    by rewrite Hcalls.
  - assert (id = length (loops s)) as ->.
    { apply lookup_lt_Some in Hid. cbn in Hid. lia. }
    rewrite Nat.sub_diag in Hid. injection Hid as <-.
    rewrite decide_True in Hcalls by done.
    unfold calls_of in Hcalls at 2.
    rewrite (calls_of_unknown _ (invoked s) (length (loops s))
               (cursor_known s Hc)) in Hcalls by lia.
    unfold calls_ok. unfold consume in Hcalls. by rewrite Hcalls.
Qed.

Lemma iter_consume_calls n s :
  cursor_inv s → calls_inv s →
  cursor_inv (Nat.iter n consume s) ∧ calls_inv (Nat.iter n consume s).
Proof.
  intros Hc Hs. induction n as [|n [IHc IHs]]; [done|].
  change (Nat.iter (S n) consume s) with (consume (Nat.iter n consume s)).
  split; [by apply consume_cursor | by apply consume_calls].
Qed.

Lemma consume_end_calls id s ph :
  loops s !! id = Some ph → ph = AwaitHandler ∨ ph = AwaitRetry →
  cursor_inv s → calls_inv s → calls_inv (consume_end id s).
Proof.
  intros Hid Hph Hc Hs. unfold consume_end.
  set (s1 := set_loops _ _).
  assert (Hs1 : calls_inv s1).
  { apply (calls_inv_same
             (set_loops (<[id := Ended]> (loops s)) s)); [done | done |].
    apply calls_inv_insert; [done|].
    specialize (Hs id ph Hid). destruct Hph as [-> | ->]; cbn in *; auto. }
  assert (Hc1 : cursor_inv s1).
  { apply (cursor_inv_same s); try done. cbn. apply length_insert. }
  clearbody s1.
  destruct (offsetCount s1 =? count s1).
  - destruct (finishHandler s1); [|done]. by apply (calls_inv_same s1).
  - destruct (_ && _); [by apply consume_calls | done].
Qed.

Lemma step_calls e s :
  cursor_inv s → calls_inv s → calls_inv (step e s).
Proof.
  intros Hc Hs. destruct e as [id | id | id | | p | |]; cbn [step].
  - unfold handler_resolves.
    destruct (loops s !! id) as [[]|] eqn:Hid; try done;
      eapply consume_end_calls; eauto.
  - unfold handler_rejects.
    destruct (loops s !! id) as [[]|] eqn:Hid; try done.
    + apply calls_inv_insert; [done|]. split; [done|].
      exact (Hs id AwaitHandler Hid).
    + eapply consume_end_calls; [exact Hid | by right | |].
      * by apply (cursor_inv_same s).
      * by apply (calls_inv_same s).
  - unfold timer_fires.
    destruct (loops s !! id) as [[| ms | |]|] eqn:Hid; try done.
    intros id' ph' Hid'. cbn in Hid'.
    assert (Hcalls : calls_of id'
        (set_invoked (invoked s ++ [(id, offsetCount s)])
           (set_loops (<[id := AwaitRetry]> (loops s)) s))
      = calls_of id' s
        ++ (if decide (id = id') then [offsetCount s] else [])).
    { unfold calls_of. cbn. apply calls_of_snoc. }
    apply list_lookup_insert_Some in Hid' as [(-> & <- & _) | [Hne Hid']].
    + rewrite decide_True in Hcalls by done.
      destruct (Hs id' (AwaitBackoff ms) Hid) as [_ Hone].
      unfold calls_ok. rewrite Hcalls, length_app, Hone. done.
    + rewrite decide_False, app_nil_r in Hcalls by done.
      specialize (Hs id' ph' Hid'). unfold calls_ok in *.
      by rewrite Hcalls.
  - unfold pause. destruct (_ || _); cbn.
    + by apply (calls_inv_same s).
    + unfold pause_loop. cbn. destruct (0 <? _);
        by apply (calls_inv_same s).
  - unfold pause_wake. destruct (bool_decide _); [|done].
    unfold pause_loop. cbn. destruct (0 <? _);
      by apply (calls_inv_same s).
  - unfold resume. destruct (0 <? _); [done|].
    apply iter_consume_calls.
    + by apply (cursor_inv_same s).
    + by apply (calls_inv_same s).
  - unfold waitFinish. cbn. destruct (_ =? _); cbn;
      by apply (calls_inv_same s).
Qed.

Lemma exec_calls es s :
  cursor_inv s → calls_inv s → calls_inv (exec es s).
Proof.
  revert s. induction es as [|e es IH]; intros s Hc Hs; cbn; [done|].
  apply IH; [by apply step_cursor | by apply step_calls].
Qed.

Lemma create_calls name count concurrency :
  calls_inv (create name count concurrency).
Proof.
  unfold create, start. apply iter_consume_calls.
  - apply constructor_cursor.
  - unfold constructor. cbn. by destruct (_ <? _); intros id ph Hid.
Qed.

(** X6. One retry. In every state a runner can reach, an invocation of
    [consume] has called the handler once or twice; it has called it
    twice only if it is waiting for the second call or has ended, so the
    second call follows a failure of the first and a timer, and no third
    call is ever made; and every timer that is running was set to 5000. *)
Theorem handler_called_at_most_twice name count concurrency es id ph :
  let s := exec es (create name count concurrency) in
  loops s !! id = Some ph →
  (1 ≤ length (calls_of id s) ≤ 2)%nat
  ∧ (length (calls_of id s) = 2%nat → ph = AwaitRetry ∨ ph = Ended)
  ∧ (ph = AwaitRetry → length (calls_of id s) = 2%nat)
  ∧ (∀ ms, ph = AwaitBackoff ms → ms = 5000).
Proof.
  cbv zeta. intros Hid.
  pose proof (exec_calls es _ (create_cursor name count concurrency)
                (create_calls name count concurrency) id ph Hid) as Hok.
  destruct ph as [| ms | |]; cbn in Hok.
  - rewrite Hok. split_and!; try done; lia.
  - destruct Hok as [-> Hok]. rewrite Hok.
    split_and!; try done; try lia. by intros ms [= <-].
  - rewrite Hok. split_and!; try done; auto; lia.
  - destruct Hok as [Hok | Hok]; rewrite Hok; split_and!; try done; auto; lia.
Qed.
End Retries.

(** A unit that fails twice: two calls, then the invocation has ended. *)
Lemma handler_called_at_most_twice_witness :
  let s := Parallel.exec
             [Parallel.HandlerRejects 0; Parallel.TimerFires 0;
              Parallel.HandlerRejects 0]
             (Parallel.create "runner" 3 1) in
  Parallel.loops s !! 0%nat = Some Parallel.Ended
  ∧ (1 ≤ length (Parallel.calls_of 0 s) ≤ 2)%nat
  ∧ Parallel.logged s = [1].
Proof.
  split; [reflexivity|]. split; [|reflexivity].
  exact (proj1 (handler_called_at_most_twice "runner" 3 1
    [Parallel.HandlerRejects 0; Parallel.TimerFires 0;
     Parallel.HandlerRejects 0] 0%nat Parallel.Ended eq_refl)).
Defined.

Section Progress.
Import Parallel.
Implicit Types (s : Parallel.t) (e : event).

Lemma progress_same N w s s' :
  count s' = count s → concurrency s' = concurrency s →
  offsetCount s' = offsetCount s → processingCount s' = processingCount s →
  progress_inv N w s → progress_inv N w s'.
Proof.
  intros Hc Hw Ho Hp [H1 H2 H3 H4 H5].
  split; rewrite ?Hc, ?Hw, ?Ho, ?Hp; done.
Qed.

Lemma consume_end_progress N w id s ph :
  loops s !! id = Some ph → in_flight ph →
  flight_inv s → progress_inv N w s → progress_inv N w (consume_end id s).
Proof.
  intros Hid Hph [Hfc Hfw Hpa Hpg] [Hc Hw Hcl Hcur Hidle].
  pose proof (filter_insert_out in_flight (loops s) id ph Ended Hid Hph
                ltac:(unfold in_flight; tauto)) as Hlen.
  unfold consume_end.
  set (s1 := set_loops _ _).
  assert (Hs1 : count s1 = N ∧ concurrency s1 = w
                ∧ offsetCount s1 = offsetCount s
                ∧ processingCount s1 = processingCount s - 1
                ∧ paused s1 = false) by done.
  destruct Hs1 as (Hc1 & Hw1 & Ho1 & Hp1 & Hpa1). clearbody s1.
  destruct (Z.eqb_spec (offsetCount s1) (count s1)) as [Heq | Hne].
  - assert (Hs1 : progress_inv N w s1).
    { split; [done | done | done | lia | intros _; left; lia]. }
    destruct (finishHandler s1); [|done]. by apply (progress_same N w s1).
  - rewrite Hpa1. cbn [negb andb].
    destruct (Z.ltb_spec (offsetCount s1 + processingCount s1) (count s1)).
    + unfold consume. split; cbn; try done; lia.
    + split; try done; [lia|]. intros H0. lia.
Qed.

Lemma step_progress N w e s :
  is_resume e = false →
  flight_inv s → progress_inv N w s → progress_inv N w (step e s).
Proof.
  intros He Hf Hs. destruct e as [id | id | id | | p | |]; try done;
    cbn [step].
  - unfold handler_resolves.
    destruct (loops s !! id) as [[]|] eqn:Hid; try done;
      by eapply consume_end_progress.
  - unfold handler_rejects.
    destruct (loops s !! id) as [[]|] eqn:Hid; try done.
    + by apply (progress_same N w s).
    + eapply consume_end_progress; [exact Hid | done | |].
      * by apply (flight_same s).
      * by apply (progress_same N w s).
  - unfold timer_fires.
    destruct (loops s !! id) as [[]|]; try done.
    by apply (progress_same N w s).
  - unfold pause. destruct (_ || _); cbn.
    + by apply (progress_same N w s).
    + unfold pause_loop. cbn. destruct (0 <? _);
        by apply (progress_same N w s).
  - unfold pause_wake. destruct (bool_decide _); [|done].
    unfold pause_loop. cbn. destruct (0 <? _);
      by apply (progress_same N w s).
  - unfold waitFinish. cbn. destruct (_ =? _); cbn;
      by apply (progress_same N w s).
Qed.

Lemma create_progress name N c :
  progress_inv N (concurrency (create name N c)) (create name N c).
Proof.
  unfold create, start.
  set (s0 := constructor _).
  assert (H0 : count s0 = N ∧ concurrency s0 ≤ N ∧ offsetCount s0 = 0
               ∧ processingCount s0 = 0).
  { subst s0. unfold constructor. cbn.
    destruct (Z.ltb_spec N (or_else c N)); cbn; repeat split; lia. }
  destruct H0 as (Hc & Hw & Ho & Hp).
  destruct (iter_consume_state (Z.to_nat (concurrency s0)) s0)
    as (Ho' & Hp' & _ & Hc' & Hw' & _).
  split; [congruence | done | lia | lia | intros H0; right; lia].
Qed.

Lemma exec_progress N w es s :
  forallb (λ e, negb (is_resume e)) es = true →
  flight_inv s → progress_inv N w s → progress_inv N w (exec es s).
Proof.
  revert s. induction es as [|e es IH]; intros s Hes Hf Hs; cbn; [done|].
  cbn in Hes. apply andb_true_iff in Hes as [He Hes].
  apply negb_true_iff in He.
  apply IH; [done | by apply step_flight | by apply step_progress].
Qed.

Lemma run_progress name count concurrency es :
  forallb (λ e, negb (is_resume e)) es = true →
  let s := exec es (create name count concurrency) in
  0 ≤ offsetCount s ≤ Z.max 0 count
  ∧ Parallel.count s = count
  ∧ (processingCount s = 0 → 0 < Parallel.concurrency s →
     offsetCount s = count).
Proof.
  intros Hes. cbv zeta.
  pose proof (exec_progress _ _ es _ Hes
                (create_flight name count concurrency)
                (create_progress name count concurrency))
    as [Hc Hw Hcl Hcur Hi].
  pose proof (cursor_nonneg _ (exec_cursor es _
                (create_cursor name count concurrency))) as Hn.
  split_and!; try done.
  intros H0 Hpos. destruct (Hi H0) as [Hdone | Hle]; [done|]. lia.
Qed.

(** X7. A run in which [resume] is not called never overruns and never
    stalls: the cursor stays between 0 and the count, and whenever no unit
    is in flight, and the width is positive, the cursor has reached the
    count. So the loops that die early (when cursor + in-flight units
    reach the count) always leave one that goes on. *)
Theorem run_never_stalls name count concurrency es :
  forallb (λ e, negb (is_resume e)) es = true →
  let s := exec es (create name count concurrency) in
  0 ≤ offsetCount s ≤ Z.max 0 count
  ∧ Parallel.count s = count
  ∧ (processingCount s = 0 → 0 < Parallel.concurrency s →
     offsetCount s = count).
Proof. apply run_progress. Qed.

(** X8. [resume()] on a run that has come to its end (no [resume] before,
    nothing in flight, positive width): it starts
    min(width, count - width) further invocations, whatever is left to
    do, and the cursor goes beyond the count by that number. *)
Theorem resume_overruns_finished_run name count concurrency es :
  forallb (λ e, negb (is_resume e)) es = true →
  let s := exec es (create name count concurrency) in
  processingCount s = 0 → 0 < Parallel.concurrency s →
  offsetCount (resume s)
  = count + Z.max 0 (Z.min (Parallel.concurrency s)
                           (count - Parallel.concurrency s))
  ∧ processingCount (resume s)
    = Z.max 0 (Z.min (Parallel.concurrency s)
                     (count - Parallel.concurrency s)).
Proof.
  intros Hes. cbv zeta. intros H0 Hpos.
  destruct (run_progress name count concurrency es Hes)
    as (_ & Hc & Hdone).
  cbv zeta in Hc, Hdone. specialize (Hdone H0 Hpos).
  revert H0 Hpos Hc Hdone.
  generalize (exec es (create name count concurrency)).
  intros s H0 Hpos Hc Hdone. unfold resume. rewrite H0. cbn [Z.ltb Z.compare].
  match goal with
  | |- context [Nat.iter ?n consume ?x] =>
      destruct (iter_consume_state n x) as (Ho' & Hp' & _)
  end.
  rewrite Ho', Hp'. cbn. rewrite Hc, Hdone, H0. lia.
Qed.

(** X9. With a width of at least the count (or a concurrency of 0), every
    unit is claimed by [create] itself, so that a [waitFinish()] called
    right after it returns a promise that is already resolved, while all
    the units are still being processed. *)
Theorem waitFinish_resolved_at_start name N c :
  0 < N → c = 0 ∨ N ≤ c →
  let s := create name N c in
  let '(p, s') := waitFinish s in
  promises s' !! p = Some (Fulfilled tt)
  ∧ offsetCount s' = N
  ∧ processingCount s' = N
  ∧ loops s' = replicate (Z.to_nat N) AwaitHandler.
Proof.
  intros HN Hc. cbv zeta. unfold create, start, waitFinish.
  assert (Hw' : concurrency (constructor (MkOptions name N c)) = N).
  { unfold constructor, or_else. cbn.
    destruct (Z.eqb_spec c 0) as [-> | Hne]; cbn.
    - by rewrite Z.ltb_irrefl.
    - destruct (Z.ltb_spec N c); cbn; lia. }
  rewrite Hw'.
  destruct (iter_consume_state (Z.to_nat N) (constructor (MkOptions name N c)))
    as (Ho & Hp & Hl & Hcnt & _ & _ & _ & Hpr & _).
  assert (H0 : offsetCount (constructor (MkOptions name N c)) = 0
               ∧ processingCount (constructor (MkOptions name N c)) = 0
               ∧ loops (constructor (MkOptions name N c)) = []
               ∧ count (constructor (MkOptions name N c)) = N
               ∧ promises (constructor (MkOptions name N c)) = []).
  { unfold constructor. cbn. by destruct (_ <? _). }
  destruct H0 as (Ho0 & Hp0 & Hl0 & Hc0 & Hpr0).
  rewrite Ho0 in Ho. rewrite Hp0 in Hp. rewrite Hl0 in Hl.
  rewrite Hc0 in Hcnt. rewrite Hpr0 in Hpr.
  revert Ho Hp Hl Hcnt Hpr.
  generalize (Nat.iter (Z.to_nat N) consume (constructor (MkOptions name N c))).
  intros s Ho Hp Hl Hcnt Hpr.
  unfold alloc. rewrite Hpr. cbn [fst snd length app].
  replace (offsetCount s =? count s) with true
    by (symmetry; apply Z.eqb_eq; lia).
  cbn. split_and!; try done; lia.
Qed.
End Progress.

(** Three units on one loop, all succeeding. *)
Lemma run_never_stalls_witness :
  let s := Parallel.exec
             [Parallel.HandlerResolves 0; Parallel.HandlerResolves 1;
              Parallel.HandlerResolves 2]
             (Parallel.create "runner" 3 1) in
  Parallel.processingCount s = 0 ∧ Parallel.offsetCount s = 3.
Proof.
  split; [reflexivity|].
  exact (proj2 (proj2 (run_never_stalls "runner" 3 1
    [Parallel.HandlerResolves 0; Parallel.HandlerResolves 1;
     Parallel.HandlerResolves 2] eq_refl)) eq_refl eq_refl).
Defined.

(** Ten units, width three: after the run, [resume()] starts three more
    invocations and the cursor is 13. *)
Lemma resume_overruns_finished_run_witness :
  let es := Parallel.HandlerResolves <$> seq 0 10 in
  let s := Parallel.exec es (Parallel.create "runner" 10 3) in
  Parallel.processingCount s = 0
  ∧ Parallel.offsetCount (Parallel.resume s) = 13.
Proof.
  split; [vm_compute; reflexivity|].
  exact (proj1 (resume_overruns_finished_run "runner" 10 3
    (Parallel.HandlerResolves <$> seq 0 10) eq_refl eq_refl eq_refl)).
Defined.

(** Four units, fully parallel. *)
Lemma waitFinish_resolved_at_start_witness :
  let '(p, s') := Parallel.waitFinish (Parallel.create "runner" 4 0) in
  Parallel.promises s' !! p = Some (Fulfilled tt)
  ∧ Parallel.processingCount s' = 4.
Proof.
  pose proof (waitFinish_resolved_at_start "runner" 4 0 eq_refl
                (or_introl eq_refl)) as H.
  cbv zeta in H.
  destruct (Parallel.waitFinish (Parallel.create "runner" 4 0)) as [p s'].
  destruct H as (H1 & _ & H2 & _). by split.
Defined.

(** *** The values the cursor takes *)

Section Claims.
Import Parallel.
Implicit Types (s : Parallel.t) (e : event).

(** What one invocation of [consume] does to the cursor, in any state. *)
Lemma consume_claims s :
  offsetCount (consume s) = offsetCount s + 1
  ∧ claimed (consume s) = claimed s ++ [offsetCount s + 1]
  ∧ invoked (consume s)
    = invoked s ++ [(length (loops s), offsetCount s + 1)]
  ∧ loops (consume s) = loops s ++ [AwaitHandler].
Proof. done. Qed.

Lemma iter_consume_grows n s :
  offsetCount s ≤ offsetCount (Nat.iter n consume s)
  ∧ claimed s `prefix_of` claimed (Nat.iter n consume s).
Proof.
  induction n as [|n [IHo IHc]]; [done|].
  change (Nat.iter (S n) consume s) with (consume (Nat.iter n consume s)).
  destruct (consume_claims (Nat.iter n consume s)) as (-> & -> & _).
  split; [lia|]. by apply prefix_app_r.
Qed.

Lemma consume_end_grows id s :
  offsetCount s ≤ offsetCount (consume_end id s)
  ∧ claimed s `prefix_of` claimed (consume_end id s).
Proof.
  unfold consume_end. set (s1 := set_loops _ _).
  assert (Ho : offsetCount s1 = offsetCount s) by done.
  assert (Hc : claimed s1 = claimed s) by done.
  clearbody s1. rewrite <- Ho, <- Hc.
  destruct (offsetCount s1 =? count s1).
  - by destruct (finishHandler s1).
  - destruct (_ && _); [|done]. exact (iter_consume_grows 1 s1).
Qed.

(** No step moves the cursor back or takes back a claimed value. *)
Lemma step_grows e s :
  offsetCount s ≤ offsetCount (step e s)
  ∧ claimed s `prefix_of` claimed (step e s).
Proof.
  destruct e as [id | id | id | | p | |]; cbn [step].
  - unfold handler_resolves.
    destruct (loops s !! id) as [[]|]; try done; apply consume_end_grows.
  - unfold handler_rejects.
    destruct (loops s !! id) as [[]|]; try done.
    exact (consume_end_grows id (set_logged (logged s ++ [offsetCount s]) s)).
  - unfold timer_fires. by destruct (loops s !! id) as [[]|].
  - unfold pause. destruct (_ || _); [done|].
    unfold pause_loop. cbn. by destruct (0 <? _).
  - unfold pause_wake. destruct (bool_decide _); [|done].
    unfold pause_loop. cbn. by destruct (0 <? _).
  - unfold resume. destruct (0 <? _); [done|].
    exact (iter_consume_grows _
             (set_concurrency _ (set_paused false s))).
  - unfold waitFinish. cbn. by destruct (_ =? _).
Qed.

Lemma drains_same N s s' :
  count s' = count s → offsetCount s' = offsetCount s →
  processingCount s' = processingCount s →
  (loops s = [] → loops s' = []) →
  drains N s → drains N s'.
Proof.
  intros Hc Ho Hp Hl [Hn Hd]. split; [congruence|].
  rewrite Ho, Hp. destruct Hd as [Hd | Hd]; [left; auto | by right].
Qed.

Lemma consume_drains N s :
  0 ≤ processingCount s → count s = N → drains N (consume s).
Proof.
  intros Hp Hn. split; [done|]. right. right. cbn. lia.
Qed.

Lemma iter_consume_drains N n s :
  0 ≤ processingCount s → drains N s → drains N (Nat.iter n consume s).
Proof.
  intros Hp Hs. destruct n as [|n]; [done|].
  change (Nat.iter (S n) consume s) with (consume (Nat.iter n consume s)).
  destruct (iter_consume_state n s) as (_ & Hp' & _ & Hc & _).
  apply consume_drains; [lia|]. rewrite Hc. by destruct Hs.
Qed.

Lemma consume_end_drains N id s ph :
  loops s !! id = Some ph → in_flight ph →
  flight_inv s → drains N s → drains N (consume_end id s).
Proof.
  intros Hid Hph [Hc Hw Hpa Hpg] [Hn Hd]. unfold consume_end.
  assert (Hpos : 1 ≤ processingCount s).
  { rewrite Hc.
    pose proof (filter_insert_out in_flight (loops s) id ph Ended Hid Hph
                  ltac:(unfold in_flight; tauto)) as Hlen.
    lia. }
  set (s1 := set_loops _ _).
  assert (Hs1 : count s1 = N ∧ processingCount s1 = processingCount s - 1
                ∧ paused s1 = false) by done.
  destruct Hs1 as (Hn1 & Hp1 & Hpa1). clearbody s1.
  destruct (Z.eqb_spec (offsetCount s1) (count s1)) as [Heq | Hne].
  - destruct (finishHandler s1); (split; [done|]); right; left; cbn; lia.
  - rewrite Hpa1. cbn [negb andb].
    destruct (Z.ltb_spec (offsetCount s1 + processingCount s1) (count s1)).
    + apply consume_drains; [lia | done].
    + split; [done|]. right.
      destruct (decide (processingCount s1 = 0)); [left; lia | right; lia].
Qed.

Lemma step_drains N e s :
  flight_inv s → drains N s → drains N (step e s).
Proof.
  intros Hf Hs. destruct e as [id | id | id | | p | |]; cbn [step].
  - unfold handler_resolves.
    destruct (loops s !! id) as [[]|] eqn:Hid; try done;
      by eapply consume_end_drains.
  - unfold handler_rejects.
    destruct (loops s !! id) as [[]|] eqn:Hid; try done.
    + apply (drains_same N s); try done. cbn. intros Hnil.
      by rewrite Hnil in Hid.
    + eapply consume_end_drains; [exact Hid | done | |].
      * by apply (flight_same s).
      * by apply (drains_same N s).
  - unfold timer_fires.
    destruct (loops s !! id) as [[]|] eqn:Hid; try done.
    apply (drains_same N s); try done. cbn. intros Hnil.
    by rewrite Hnil in Hid.
  - unfold pause, this_pause_truthy. rewrite orb_true_r. cbn.
    by apply (drains_same N s).
  - unfold pause_wake. rewrite (flight_pausing s Hf).
    by rewrite bool_decide_eq_false_2 by apply not_elem_of_nil.
  - unfold resume. destruct (0 <? _); [done|].
    apply iter_consume_drains.
    + cbn. rewrite (flight_count s Hf). lia.
    + by apply (drains_same N s).
  - unfold waitFinish. cbn. destruct (_ =? _); cbn;
      by apply (drains_same N s).
Qed.

Lemma create_drains name count concurrency :
  drains count (create name count concurrency).
Proof.
  unfold create, start. apply iter_consume_drains.
  - unfold constructor. cbn. by destruct (_ <? _).
  - unfold constructor. cbn. destruct (_ <? _); split; cbn; auto.
Qed.

Lemma exec_drains N es s :
  flight_inv s → drains N s → drains N (exec es s).
Proof.
  revert s. induction es as [|e es IH]; intros s Hf Hs; cbn; [done|].
  apply IH; [by apply step_flight | by apply step_drains].
Qed.

(** [create] makes at least one invocation when there is something to do
    and the given concurrency is not negative; no step removes one. *)
Lemma create_starts name count concurrency :
  0 < count → 0 ≤ concurrency →
  loops (create name count concurrency) ≠ [].
Proof.
  intros Hc Hw. unfold create, start.
  set (s0 := constructor _).
  assert (Hpos : 0 < Parallel.concurrency s0).
  { subst s0. unfold constructor, or_else. cbn.
    destruct (Z.eqb_spec concurrency 0); cbn.
    - rewrite Z.ltb_irrefl. cbn. lia.
    - destruct (Z.ltb_spec count concurrency); cbn; lia. }
  destruct (Z.to_nat (Parallel.concurrency s0)) as [|n] eqn:Hn; [lia|].
  change (Nat.iter (S n) consume s0) with (consume (Nat.iter n consume s0)).
  destruct (consume_claims (Nat.iter n consume s0)) as (_ & _ & _ & ->).
  by destruct (loops _).
Qed.

Lemma step_loops_length e s :
  (length (loops s) ≤ length (loops (step e s)))%nat.
Proof.
  assert (Hend : ∀ id s, (length (loops s)
                          ≤ length (loops (consume_end id s)))%nat).
  { clear. intros id s. unfold consume_end. set (s1 := set_loops _ _).
    assert (Hl : length (loops s1) = length (loops s))
      by apply length_insert.
    clearbody s1. rewrite <- Hl.
    destruct (_ =? _); [by destruct (finishHandler s1)|].
    destruct (_ && _); [|done]. cbn. rewrite length_app. lia. }
  destruct e as [id | id | id | | p | |]; cbn [step].
  - unfold handler_resolves.
    destruct (loops s !! id) as [[]|]; try done; apply Hend.
  - unfold handler_rejects.
    destruct (loops s !! id) as [[]|]; try done.
    + cbn. by rewrite length_insert.
    + exact (Hend id (set_logged _ s)).
  - unfold timer_fires. destruct (loops s !! id) as [[]|]; try done.
    cbn. by rewrite length_insert.
  - unfold pause. destruct (_ || _); [done|].
    unfold pause_loop. cbn. by destruct (0 <? _).
  - unfold pause_wake. destruct (bool_decide _); [|done].
    unfold pause_loop. cbn. by destruct (0 <? _).
  - unfold resume. destruct (0 <? _); [done|].
    destruct (iter_consume_state (Z.to_nat
                (Parallel.concurrency
                   (set_concurrency
                      (Z.min (Parallel.concurrency (set_paused false s))
                         (Parallel.count (set_paused false s)
                          - Parallel.concurrency (set_paused false s)))
                      (set_paused false s))))
                (set_concurrency
                   (Z.min (Parallel.concurrency (set_paused false s))
                      (Parallel.count (set_paused false s)
                       - Parallel.concurrency (set_paused false s)))
                   (set_paused false s)))
      as (_ & _ & Hl & _).
    cbv zeta in Hl. rewrite Hl, length_app. cbn. lia.
  - unfold waitFinish. cbn. by destruct (_ =? _).
Qed.

Lemma exec_loops_length es s :
  (length (loops s) ≤ length (loops (exec es s)))%nat.
Proof.
  revert s. induction es as [|e es IH]; intros s; cbn; [done|].
  etrans; [apply (step_loops_length e) | apply IH].
Qed.

(** The values [1..n] in a row. *)
Lemma elem_of_upto (n v : Z) :
  v ∈ (Z.of_nat <$> seq 1 (Z.to_nat n)) ↔ 1 ≤ v ≤ n.
Proof.
  rewrite list_elem_of_fmap. split.
  - intros (k & -> & Hk%elem_of_seq). lia.
  - intros Hv. exists (Z.to_nat v). split; [lia|].
    apply elem_of_seq. lia.
Qed.

Lemma consume_end_loops id s :
  ∃ l, loops (consume_end id s) = <[id := Ended]> (loops s) ++ l
       ∧ (l = [] ∨ l = [AwaitHandler]).
Proof.
  unfold consume_end. set (s1 := set_loops _ _).
  assert (Hl : loops s1 = <[id := Ended]> (loops s)) by done.
  clearbody s1. rewrite <- Hl.
  destruct (_ =? _).
  - exists []. rewrite app_nil_r. split; [|by left].
    by destruct (finishHandler s1).
  - destruct (_ && _).
    + exists [AwaitHandler]. split; [done | by right].
    + exists []. rewrite app_nil_r. split; [done | by left].
Qed.

Lemma succeeding_no_resume k :
  forallb (λ e, negb (is_resume e)) (HandlerResolves <$> seq 0 k) = true.
Proof. generalize 0%nat. induction k as [|k IH]; intros n; cbn; auto. Qed.

Lemma all_ended_idle s :
  flight_inv s → Forall (λ ph, ph = Ended) (loops s) →
  processingCount s = 0.
Proof.
  intros [Hfc _ _ _] Hended. rewrite Hfc.
  assert (Hfil : filter in_flight (loops s) = []).
  { clear -Hended. induction Hended as [|ph l Hph _ IH]; [done|].
    by rewrite filter_cons_False by (unfold in_flight; tauto). }
  by rewrite Hfil.
Qed.

(** The run in which the handler succeeds at every call, the calls
    settling in the order of the invocations: after [k] settlements the
    first [k] invocations have ended and the others await their
    handler. *)
Lemma succeeding_run name count concurrency k :
  0 < count → 0 ≤ concurrency → (k ≤ Z.to_nat count)%nat →
  let s := exec (HandlerResolves <$> seq 0 k)
             (create name count concurrency) in
  (k ≤ length (loops s))%nat
  ∧ (∀ i, (i < k)%nat → loops s !! i = Some Ended)
  ∧ (∀ i, (k ≤ i < length (loops s))%nat →
          loops s !! i = Some AwaitHandler).
Proof.
  intros Hpos Hw. induction k as [|k IH]; intros Hk; cbv zeta.
  - cbn. split; [lia|]. split; [lia|]. intros i Hi.
    unfold create, start in *.
    destruct (iter_consume_state
                (Z.to_nat (Parallel.concurrency
                   (constructor (MkOptions name count concurrency))))
                (constructor (MkOptions name count concurrency)))
      as (_ & _ & Hl & _).
    cbv zeta in Hl. rewrite Hl in *.
    assert (Hnil : loops (constructor (MkOptions name count concurrency))
                   = []).
    { unfold constructor. cbn. by destruct (_ <? _). }
    rewrite Hnil in *. cbn [app] in *.
    rewrite length_replicate in Hi. apply lookup_replicate_2. lia.
  - rewrite seq_S, fmap_app. unfold exec. rewrite fold_left_app.
    fold (exec (HandlerResolves <$> seq 0 k) (create name count concurrency)).
    cbn [fold_left fmap list_fmap Nat.add].
    specialize (IH ltac:(lia)). cbv zeta in IH.
    pose proof (exec_cursor (HandlerResolves <$> seq 0 k) _
                  (create_cursor name count concurrency)) as Hs.
    pose proof (exec_flight (HandlerResolves <$> seq 0 k) _
                  (create_flight name count concurrency)) as Hf.
    pose proof (exec_drains count (HandlerResolves <$> seq 0 k) _
                  (create_flight name count concurrency)
                  (create_drains name count concurrency)) as Hd.
    pose proof (exec_loops_length (HandlerResolves <$> seq 0 k)
                  (create name count concurrency)) as Hlen.
    pose proof (create_starts name count concurrency Hpos Hw) as Hstart.
    revert IH Hs Hf Hd Hlen.
    generalize (exec (HandlerResolves <$> seq 0 k)
                  (create name count concurrency)).
    intros s (Hle & Hdone & Hwait) [Hn Hc Hl _ _] Hf [_ Hon] Hlen.
    assert (Hcur : offsetCount s = Z.of_nat (length (loops s))).
    { rewrite <- Hl, Hc, length_fmap, length_seq. lia. }
    assert (Hlt : (k < length (loops s))%nat).
    { destruct (decide (k < length (loops s))%nat) as [|Hge]; [done|].
      assert (Hended : Forall (λ ph, ph = Ended) (loops s)).
      { apply Forall_lookup. intros i ph Hi.
        rewrite Hdone in Hi; [congruence|].
        apply lookup_lt_Some in Hi. lia. }
      pose proof (all_ended_idle s Hf Hended) as H0.
      destruct Hon as [Hon | [Hon | Hon]]; [|lia|lia].
      rewrite Hon in Hlen. cbn in Hlen.
      destruct (loops (create name count concurrency));
        [done | cbn in Hlen; lia]. }
    cbn [step]. unfold handler_resolves.
    rewrite (Hwait k) by lia.
    destruct (consume_end_loops k s) as (l & -> & Hl').
    rewrite length_app, length_insert.
    split; [lia|]. split.
    + intros i Hi. rewrite lookup_app_l by (rewrite length_insert; lia).
      destruct (decide (i = k)) as [-> | Hne].
      * by apply list_lookup_insert_eq.
      * rewrite list_lookup_insert_ne by done. apply Hdone. lia.
    + intros i Hi.
      destruct (decide (i < length (loops s))%nat) as [Hin | Hout].
      * rewrite lookup_app_l by (rewrite length_insert; lia).
        rewrite list_lookup_insert_ne by lia. apply Hwait. lia.
      * destruct Hl' as [-> | ->]; cbn in Hi; [lia|].
        rewrite lookup_app_r by (rewrite length_insert; lia).
        rewrite length_insert.
        replace (i - length (loops s))%nat with 0%nat by lia. done.
Qed.

(** C2. In every state a runner of count [count] can reach from [create],
    by any interleaving of handler outcomes, timers and calls of its
    methods. Every invocation of [consume] moves the cursor one up and
    claims the new value, and no step moves the cursor back or takes a
    claimed value back; so the values claimed are 1, 2, ... up to the
    cursor, each by one invocation: no value is claimed twice, each
    invocation makes its first call of the handler with the value it
    claimed, and no two invocations make their first call with the same
    value. None of 1..count is skipped: [create] makes an invocation when
    [count] is positive and the concurrency not negative, and in a run in
    which invocations were made and all have run to their end, every
    value of 1..count has been claimed; when the cursor equals [count],
    the claimed values are exactly 1..count. Such runs exist: when the
    handler succeeds at every call, the calls settling in the order of
    the invocations, the run ends after [count] settlements with every
    invocation at its end and exactly 1..count claimed. *)
Theorem cursor_values_claimed_once name count concurrency es :
  let s := exec es (create name count concurrency) in
  (∀ s0, offsetCount (consume s0) = offsetCount s0 + 1
         ∧ claimed (consume s0) = claimed s0 ++ [offsetCount s0 + 1]
         ∧ invoked (consume s0)
           = invoked s0 ++ [(length (loops s0), offsetCount s0 + 1)])
  ∧ (∀ e, offsetCount s ≤ offsetCount (step e s)
          ∧ claimed s `prefix_of` claimed (step e s))
  ∧ Parallel.count s = count
  ∧ claimed s = Z.of_nat <$> seq 1 (Z.to_nat (offsetCount s))
  ∧ offsetCount s = Z.of_nat (length (loops s))
  ∧ NoDup (claimed s)
  ∧ length (claimed s) = length (loops s)
  ∧ (∀ id v, claimed s !! id = Some v → head (calls_of id s) = Some v)
  ∧ (∀ id id' v, head (calls_of id s) = Some v →
                 head (calls_of id' s) = Some v → id = id')
  ∧ (0 < count → 0 ≤ concurrency → loops s ≠ [])
  ∧ (loops s ≠ [] → Forall (λ ph, ph = Ended) (loops s) →
     ∀ v, 1 ≤ v ≤ count → v ∈ claimed s)
  ∧ (offsetCount s = count → ∀ v, v ∈ claimed s ↔ 1 ≤ v ≤ count)
  ∧ (0 < count → 0 ≤ concurrency →
     let s' := exec (HandlerResolves <$> seq 0 (Z.to_nat count))
                 (create name count concurrency) in
     Forall (λ ph, ph = Ended) (loops s')
     ∧ length (loops s') = Z.to_nat count
     ∧ claimed s' = Z.of_nat <$> seq 1 (Z.to_nat count)).
Proof.
  cbv zeta.
  pose proof (exec_cursor es _ (create_cursor name count concurrency)) as Hs.
  pose proof (exec_flight es _ (create_flight name count concurrency)) as Hf.
  pose proof (exec_drains count es _ (create_flight name count concurrency)
                (create_drains name count concurrency)) as Hd.
  pose proof (exec_loops_length es (create name count concurrency)) as Hlen.
  pose proof (create_starts name count concurrency) as Hstart.
  revert Hs Hf Hd Hlen. generalize (exec es (create name count concurrency)).
  intros s [Hn Hc Hl Hk Hfirst] Hf [Hcount Hon] Hlen.
  assert (Hnd : NoDup (claimed s)).
  { rewrite Hc. apply NoDup_fmap_2; [apply _ | apply NoDup_seq]. }
  split_and!.
  - intros s0. by destruct (consume_claims s0) as (? & ? & ? & _).
  - intros e. apply step_grows.
  - done.
  - done.
  - rewrite <- Hl, Hc, length_fmap, length_seq. lia.
  - done.
  - done.
  - done.
  - intros id id' v Hid Hid'.
    assert (Hknown : ∀ i, head (calls_of i s) = Some v →
                          claimed s !! i = Some v).
    { intros i Hi.
      destruct (decide (i < length (loops s))%nat) as [Hlt | Hge].
      - rewrite <- Hl in Hlt.
        destruct (lookup_lt_is_Some_2 _ _ Hlt) as [v' Hv'].
        pose proof (Hfirst i v' Hv') as Hv. congruence.
      - unfold calls_of in Hi.
        rewrite (calls_of_unknown i (invoked s) (length (loops s)) Hk)
          in Hi by lia.
        done. }
    exact (NoDup_lookup _ _ _ _ Hnd (Hknown id Hid) (Hknown id' Hid')).
  - intros Hpos Hw Hnil. specialize (Hstart Hpos Hw).
    rewrite Hnil in Hlen. cbn in Hlen.
    destruct (loops (create name count concurrency)); [done|cbn in Hlen; lia].
  - intros Hnil Hended v Hv. rewrite Hc. apply elem_of_upto.
    pose proof (all_ended_idle s Hf Hended) as H0.
    destruct Hon as [Hon | [Hon | Hon]]; [done | lia | lia].
  - intros Hdone v. rewrite Hc, <- Hdone. apply elem_of_upto.
  - intros Hpos Hw. cbv zeta.
    destruct (succeeding_run name count concurrency (Z.to_nat count)
                Hpos Hw ltac:(lia)) as (Hle & Hdone & _).
    pose proof (exec_progress _ _ _ _
                  (succeeding_no_resume (Z.to_nat count))
                  (create_flight name count concurrency)
                  (create_progress name count concurrency))
      as [_ _ _ Hmax _].
    pose proof (exec_cursor (HandlerResolves <$> seq 0 (Z.to_nat count)) _
                  (create_cursor name count concurrency))
      as [Hn' Hc' Hl' _ _].
    revert Hle Hdone Hmax Hn' Hc' Hl'.
    generalize (exec (HandlerResolves <$> seq 0 (Z.to_nat count))
                  (create name count concurrency)).
    intros s' Hle Hdone Hmax Hn' Hc' Hl'.
    assert (Hcur : offsetCount s' = Z.of_nat (length (loops s'))).
    { rewrite <- Hl', Hc', length_fmap, length_seq. lia. }
    assert (HL : length (loops s') = Z.to_nat count) by lia.
    split_and!; [|done|rewrite Hc'; do 2 f_equal; lia].
    apply Forall_lookup. intros i ph Hi.
    rewrite Hdone in Hi; [congruence|].
    apply lookup_lt_Some in Hi. lia.
Qed.
End Claims.

(** A run of three units on two loops: the first call for unit 1 fails
    and its retry succeeds, the other calls succeed. *)
Lemma cursor_values_claimed_once_witness :
  let s := Parallel.exec
             [Parallel.HandlerRejects 0; Parallel.HandlerResolves 1;
              Parallel.TimerFires 0; Parallel.HandlerResolves 0;
              Parallel.HandlerResolves 2]
             (Parallel.create "runner" 3 2) in
  Parallel.loops s = [Parallel.Ended; Parallel.Ended; Parallel.Ended]
  ∧ Parallel.claimed s = [1; 2; 3]
  ∧ Parallel.loops s ≠ []
  ∧ (∀ v, 1 ≤ v ≤ 3 → v ∈ Parallel.claimed s)
  ∧ (∀ v, v ∈ Parallel.claimed s ↔ 1 ≤ v ≤ 3)
  ∧ head (Parallel.calls_of 2 s) = Some 3
  ∧ Forall (λ ph, ph = Parallel.Ended)
      (Parallel.loops
         (Parallel.exec
            [Parallel.HandlerResolves 0; Parallel.HandlerResolves 1;
             Parallel.HandlerResolves 2]
            (Parallel.create "runner" 3 2))).
Proof.
  cbv zeta.
  pose proof (cursor_values_claimed_once "runner" 3 2
    [Parallel.HandlerRejects 0; Parallel.HandlerResolves 1;
     Parallel.TimerFires 0; Parallel.HandlerResolves 0;
     Parallel.HandlerResolves 2])
    as (_ & _ & _ & _ & _ & _ & _ & Hfirst & _ & Hstart & Hall & Hexact
        & Hrun).
  cbv zeta in Hfirst, Hstart, Hall, Hexact, Hrun.
  split; [reflexivity|]. split; [reflexivity|].
  split; [apply Hstart; lia|].
  split; [apply Hall; [done | by repeat constructor]|].
  split; [apply Hexact; reflexivity|].
  split; [apply Hfirst; reflexivity|].
  apply Hrun; lia.
Defined.

(** ** Queue: dispatch order, pausing and deliveries *)

Section Order.
Context {K T : Type}.
Import Queue.
Implicit Types (q : Queue.t K T).

(** A dispatch pass on a paused queue that returns has done nothing. *)
Lemma fillThreads_paused q q' :
  _active q = false → _fillThreads q = Normal tt q' → q' = q.
Proof.
  intros Hact. unfold _fillThreads.
  destruct (_availableThread q) as [|i idle] eqn:Hav.
  { destruct (length (_queue q)); cbn; rewrite Hav; cbn; by intros [= <-]. }
  destruct (_queue q) as [|item rest] eqn:Hqu.
  { cbn. rewrite Hav, Hqu. cbn. by intros [= <-]. }
  rewrite <- Hqu, _fillThreads_loop_stuck; [done | done | | ];
    by rewrite ?Hav, ?Hqu.
Qed.

(** A dispatch pass that returns leaves no idle channel or no backlog. *)
Lemma fillThreads_ends q q' :
  indices_in_pool q → _fillThreads q = Normal tt q' →
  _availableThread q' = [] ∨ _queue q' = [].
Proof.
  intros Hq Hrun. destruct (_active q) eqn:Hact.
  - pose proof (fillThreads_dispatched q Hq) as Hfill.
    rewrite Hrun in Hfill. by apply Hfill.
  - pose proof (fillThreads_paused q q' Hact Hrun) as ->.
    destruct (_availableThread q) as [|i idle] eqn:Hav; [by left|].
    destruct (_queue q) as [|item rest] eqn:Hqu; [by right|].
    unfold _fillThreads in Hrun.
    rewrite _fillThreads_loop_stuck in Hrun; by rewrite ?Hav, ?Hqu.
Qed.

Lemma loop_in_order fuel q :
  indices_in_pool q → NoDup (_availableThread q) → _active q = true →
  (length (_queue q) ≤ fuel)%nat →
  ∃ q', _fillThreads_loop fuel q = Normal tt q'
        ∧ paired (length (_availableThread q) `min` length (_queue q)) q q'.
Proof.
  revert q. induction fuel as [|fuel IH]; intros q Hq Hnd Hact Hlen.
  - exists q. destruct (_queue q) eqn:Hqu; [|cbn in Hlen; lia].
    cbn. rewrite Hqu, andb_false_r. split; [done|].
    rewrite Nat.min_0_r. split; cbn; rewrite ?app_nil_r; try done.
    intros k idx item _. by rewrite Hqu.
  - destruct (_availableThread q) as [|idx0 idle] eqn:Hav.
    { exists q. cbn. rewrite Hav. cbn. split; [done|].
      split; cbn; rewrite ?app_nil_r, ?Hav; try done. }
    destruct (_queue q) as [|item0 rest] eqn:Hqu.
    { exists q. cbn. rewrite Hav, Hqu. cbn. split; [done|].
      split; cbn; rewrite ?app_nil_r, ?Hqu; try done. }
    assert (Hlt : (idx0 < length (_pool q))%nat).
    { unfold indices_in_pool in Hq. rewrite Hav in Hq.
      cbn in Hq. by apply Forall_cons_1 in Hq as [Hq _]. }
    destruct (lookup_lt_is_Some_2 _ _ Hlt) as [th0 Hth0].
    cbn [_fillThreads_loop]. rewrite Hav, Hqu. cbn [length Nat.ltb Nat.leb
      andb]. unfold _consume at 1. rewrite Hact, Hav, Hqu, Hth0.
    cbn [negb Thread.post alloc fst snd bind].
    set (th0' := Thread.MkThread _ _ _).
    set (q1 := set_reactions _ _).
    apply NoDup_cons in Hnd as [Hnot Hnd].
    assert (Hq1 : indices_in_pool q1).
    { unfold indices_in_pool in *. subst q1. cbn.
      rewrite length_insert, fmap_app. cbn. rewrite Hav in Hq.
      rewrite app_assoc, Forall_app. cbn in Hq.
      apply Forall_cons_1 in Hq as [H0 Hq]. split; [done|].
      by constructor. }
    destruct (IH q1 Hq1 Hnd Hact) as (q' & Hrun & Hp).
    { subst q1. cbn in *. lia. }
    exists q'. split; [exact Hrun|].
    destruct Hp as [Hb Hi Hr Hrep Hpost Hoth].
    subst q1. cbn in Hb, Hi, Hr, Hrep, Hpost, Hoth.
    rewrite length_app in Hr, Hpost. cbn in Hr, Hpost.
    cbn [length Nat.min].
    split; rewrite ?Hav, ?Hqu; cbn [drop take seq zip zip_with replicate].
    + done.
    + done.
    + rewrite Hr, <- app_assoc. cbn [app].
      by rewrite Nat.add_1_r.
    + rewrite Hrep, <- app_assoc. done.
    + intros [|k] idx item Hk1 Hk2; cbn in Hk1, Hk2.
      * injection Hk1 as <-. injection Hk2 as <-.
        exists th0. split; [done|].
        rewrite Hoth.
        -- rewrite list_lookup_insert_eq by done.
           subst th0'. by rewrite Nat.add_0_r.
        -- intros Hin%elem_of_take. destruct Hin as (i & Hin & _).
           apply Hnot. by eapply list_elem_of_lookup_2.
      * destruct (Hpost k idx item Hk1 Hk2) as (th & Hth & Hth').
        assert (Hne : idx0 ≠ idx).
        { intros ->. apply Hnot. by eapply list_elem_of_lookup_2. }
        rewrite list_lookup_insert_ne in Hth by done.
        exists th. split; [done|].
        rewrite Hth'.
        replace (length (replies q) + S k)%nat
          with (length (replies q) + 1 + k)%nat by lia.
        done.
    + intros idx Hidx. apply not_elem_of_cons in Hidx as [Hne Hidx].
      rewrite Hoth by done. by apply list_lookup_insert_ne.
Qed.


(** X10. First in, first out. A dispatch pass on an active queue whose idle
    indices are distinct pairs the oldest items of the backlog with the
    oldest idle indices, in order, as many as there are of both: the
    [k]-th item is posted on the thread of the [k]-th idle index, the
    other threads are left alone, and what remains of the backlog and of
    the idle list keeps its order. *)
Theorem dispatch_in_order q :
  indices_in_pool q → NoDup (_availableThread q) → _active q = true →
  ∃ q', _fillThreads q = Normal tt q'
        ∧ paired (length (_availableThread q) `min` length (_queue q)) q q'.
Proof. intros Hq Hnd Hact. by apply loop_in_order. Qed.
End Order.

(** *** [post] *)

Section Post.
Context {K T : Type}.
Import Queue.
Implicit Types (q : Queue.t K T).



End Post.



Section Backlog.
Context {K T : Type}.
Import Queue.
Implicit Types (q : Queue.t K T).

Lemma resolve_ends idx err resp thrown q q' :
  indices_in_pool (set_availableThread (_availableThread q ++ [idx]) q) →
  _resolve idx err resp thrown q = Normal tt q' →
  _availableThread q' = [] ∨ _queue q' = [].
Proof.
  intros Hq. unfold _resolve, call_handler. cbv zeta.
  set (q1 := set_availableThread _ q) in *.
  assert (Hfill : ∀ q2 q3,
    indices_in_pool q2 →
    bind (_fillThreads q2) (λ _ q3,
      match _onceResolver q3, _queue q3 with
      | Some r, [] => Normal tt (set_signals (resolve r tt (signals q3)) q3)
      | _, _ => Normal tt q3
      end) = Normal tt q3 →
    _availableThread q3 = [] ∨ _queue q3 = []).
  { intros q2 q3 Hq2.
    destruct (_fillThreads q2) as [[] q4| |] eqn:Hrun; cbn; try done.
    apply fillThreads_ends in Hrun; [|done].
    destruct (_onceResolver q4); [destruct (_queue q4) eqn:Hqu|];
      intros [= <-]; cbn; by rewrite ?Hqu. }
  destruct (_handler q1), thrown; cbn [bind]; try done; by apply Hfill.
Qed.

Lemma settle_ends k thrown1 thrown2 q q' :
  sound q → _availableThread q = [] ∨ _queue q = [] →
  settle k thrown1 thrown2 q = Normal tt q' →
  _availableThread q' = [] ∨ _queue q' = [].
Proof.
  intros [Hq Hs] Hnib. unfold settle.
  destruct (reactions q !! k) as [[p idx]|] eqn:Hk; [|by intros [= <-]].
  assert (Hs1 : signals_ok (set_reactions (delete k (reactions q)) q)).
  { destruct Hs. by split. }
  pose proof (settle_indices q k p idx Hk) as Hkeep.
  pose proof (keeps_indices_in_pool _ _ Hkeep Hq) as Hq1.
  assert (Hidx : (idx < length (_pool q))%nat).
  { unfold indices_in_pool in Hq. rewrite Forall_forall in Hq. apply Hq.
    rewrite elem_of_app. right. apply list_elem_of_fmap.
    exists (p, idx). split; [done | by eapply list_elem_of_lookup_2]. }
  destruct (replies q !! p) as [[|val|err]|]; try by intros [= <-].
  - pose proof (resolve_keeps_sound idx None val thrown1 _ q Hkeep Hq Hs1)
      as Hres.
    destruct (_resolve idx None val thrown1 _) as [[] q1|e q2|] eqn:Hrun;
      [| |done].
    + intros [= <-]. by eapply resolve_ends.
    + destruct Hres as (_ & Hk2 & Hs2 & _).
      apply resolve_ends.
      assert (Hq2 : indices_in_pool q2) by by eapply keeps_indices_in_pool.
      unfold indices_in_pool in *. cbn.
      rewrite <- app_assoc, (Permutation_app_comm [idx]), app_assoc.
      rewrite Forall_app. split; [done|].
      constructor; [|done]. by rewrite (keeps_pool _ _ Hk2).
  - by apply resolve_ends.
Qed.

Lemma post_ends i once q p q' :
  sound q → post i once q = Normal p q' →
  _availableThread q' = [] ∨ _queue q' = [].
Proof.
  intros [Hq Hs]. unfold post.
  destruct (alloc (signals q)) as [r sg].
  set (q1 := set_queue _ _).
  assert (Hq1 : indices_in_pool q1) by exact Hq.
  destruct (_availableThread q1) as [|i0 idle] eqn:Hav; cbn [length Nat.ltb
    Nat.leb].
  { destruct once; intros [= _ <-]; cbn; left; exact Hav. }
  pose proof (fillThreads_dispatched q1 Hq1) as Hd.
  destruct (_fillThreads q1) as [[] q2| |] eqn:Hrun; [|done|done].
  apply fillThreads_ends in Hrun; [|done].
  destruct once; intros [= _ <-]; cbn; done.
Qed.

Lemma step_ends o q q' :
  sound q → _availableThread q = [] ∨ _queue q = [] →
  step o q = Normal tt q' →
  _availableThread q' = [] ∨ _queue q' = [].
Proof.
  intros Hq Hnib.
  destruct o as [| | |i once| |p|idx ev|k thrown1 thrown2]; cbn [step];
    unfold forget.
  - unfold initialize. cbv zeta. intros Hrun.
    apply fillThreads_ends in Hrun; [done|].
    destruct (initialize_sound q Hq) as (q0 & Hinit & _).
    pose proof (fold_spawn (seq 0 (_concurrence (set_active true q)))
                  (set_active true q)) as Hfold.
    cbv zeta in Hfold. revert Hfold.
    generalize (fold_left spawn (seq 0 (_concurrence (set_active true q)))
                  (set_active true q)).
    intros q2 (Hav & Hpool & Hre & _). cbn in Hav, Hpool, Hre.
    rewrite length_seq in Hpool.
    destruct Hq as [Hq _]. unfold indices_in_pool in *.
    rewrite Hav, Hpool, Hre, <- app_assoc.
    rewrite (Permutation_app_comm (seq _ _)), app_assoc.
    rewrite Forall_app. split.
    + eapply Forall_impl; [exact Hq|]. cbn. lia.
    + rewrite Forall_forall. intros i Hi%elem_of_seq. lia.
  - by intros [= <-].
  - unfold resume. intros Hrun.
    apply fillThreads_ends in Hrun; [done | apply Hq].
  - destruct (post i once q) as [r q1| |] eqn:Hpost; cbn; try done.
    intros [= <-]. by eapply post_ends.
  - unfold stop. destruct (alloc (signals q)) as [r sg]. cbn.
    intros [= <-]. unfold stop_loop. by destruct (negb _).
  - unfold stop_wake. destruct (bool_decide _); intros [= <-]; [|done].
    unfold stop_loop. by destruct (negb _).
  - unfold worker_emits. destruct (_pool q !! idx); [|by intros [= <-]].
    destruct (Thread.on_event _ _ _) as [[] []|? []|]; try done.
    by intros [= <-].
  - by apply settle_ends.
Qed.
End Backlog.

Section BacklogFacts.
Context {K T : Type}.
Import Queue.
Implicit Types (q : Queue.t K T).

Lemma exec_ends ops q q' :
  sound q → _availableThread q = [] ∨ _queue q = [] →
  exec ops q = Normal tt q' →
  _availableThread q' = [] ∨ _queue q' = [].
Proof.
  revert q. induction ops as [|o ops IH]; intros q Hq Hnib; cbn.
  - by intros [= <-].
  - pose proof (step_sound o q Hq) as Hs.
    destruct (step o q) as [[] q1| |] eqn:Hstep; try done. cbn.
    apply IH; [done|]. exact (step_ends o q q1 Hq Hnib Hstep).
Qed.

(** X11. No idle channel waits beside a backlog. In every state a queue can
    reach from its constructor, by any calls and callbacks that return,
    the idle list is empty or the backlog is empty. *)
Theorem never_idle_with_backlog script C handler (ops : list (op K T)) q :
  exec ops (constructor script C handler) = Normal tt q →
  _availableThread q = [] ∨ _queue q = [].
Proof.
  apply exec_ends; [apply constructor_sound | by left].
Qed.

Lemma resolve_takes_oldest idx err resp q item rest :
  indices_in_pool (set_availableThread [idx] q) →
  _active q = true → _availableThread q = [] → _queue q = item :: rest →
  ∃ q' th,
    _resolve idx err resp None q = Normal tt q'
    ∧ _queue q' = rest ∧ _availableThread q' = []
    ∧ reactions q' = reactions q ++ [(length (replies q), idx)]
    ∧ _pool q !! idx = Some th
    ∧ _pool q' !! idx
      = Some (Thread.MkThread (Thread.postMessage item (Thread._worker th))
                (Some (length (replies q))) (Some (length (replies q))))
    ∧ delivered q'
      = delivered q ++ (if _handler q then [(err, resp)] else []).
Proof.
  intros Hq Hact Hav Hqu.
  assert (Hmain : ∀ q2,
    indices_in_pool q2 → _active q2 = true →
    _availableThread q2 = [idx] → _queue q2 = item :: rest →
    ∃ q' th,
      bind (_fillThreads q2) (λ _ q3,
        match _onceResolver q3, _queue q3 with
        | Some r, [] =>
            Normal tt (set_signals (resolve r tt (signals q3)) q3)
        | _, _ => Normal tt q3
        end) = Normal tt q'
      ∧ _queue q' = rest ∧ _availableThread q' = []
      ∧ reactions q' = reactions q2 ++ [(length (replies q2), idx)]
      ∧ _pool q2 !! idx = Some th
      ∧ _pool q' !! idx
        = Some (Thread.MkThread
                  (Thread.postMessage item (Thread._worker th))
                  (Some (length (replies q2))) (Some (length (replies q2))))
      ∧ delivered q' = delivered q2).
  { clear. intros q2 Hq2 Hact2 Hav2 Hqu2.
    destruct (loop_in_order (length (_queue q2)) q2 Hq2)
      as (q3 & Hrun & Hp).
    { rewrite Hav2. apply NoDup_singleton. }
    { done. }
    { done. }
    change (_fillThreads_loop (length (_queue q2)) q2)
      with (_fillThreads q2) in Hrun.
    rewrite Hrun. cbn [bind].
    rewrite Hav2, Hqu2 in Hp. cbn [length Nat.min] in Hp.
    destruct Hp as [Hb Hi Hr Hrep Hpost Hoth].
    rewrite Hqu2 in Hb. rewrite Hav2 in Hi, Hr. cbn in Hb, Hi, Hr.
    destruct (Hpost 0%nat idx item) as (th & Hth & Hth').
    { by rewrite Hav2. } { by rewrite Hqu2. }
    rewrite Nat.add_0_r in Hth'.
    assert (Hdel3 : delivered q3 = delivered q2).
    { clear -Hrun. unfold _fillThreads in Hrun.
      revert Hrun. generalize (length (_queue q2)). intros fuel. revert q2.
      induction fuel as [|fuel IH]; intros q2; cbn.
      - destruct (_ && _); [done | by intros [= <-]].
      - destruct (_ && _); [|by intros [= <-]].
        unfold _consume at 1.
        destruct (_active q2); cbn; [|apply IH].
        destruct (_availableThread q2); [apply IH|].
        destruct (_queue q2); [apply IH|].
        destruct (_pool q2 !! _); [|done]. cbn. intros Hrun.
        by apply IH in Hrun. }
    exists (match _onceResolver q3, _queue q3 with
            | Some r, [] => set_signals (resolve r tt (signals q3)) q3
            | _, _ => q3
            end), th.
    rewrite <- Hdel3.
    destruct (_onceResolver q3); [destruct (_queue q3) eqn:Hq3|];
      cbn; rewrite ?Hq3; split_and!; try done; congruence. }
  unfold _resolve, call_handler. cbv zeta. rewrite Hav. cbn [app].
  change (_handler (set_availableThread [idx] q)) with (_handler q).
  destruct (_handler q); cbn [bind].
  - destruct (Hmain (set_delivered
                       (delivered (set_availableThread [idx] q)
                        ++ [(err, resp)]) (set_availableThread [idx] q)))
      as (q' & th & Hres & Hrest); try done.
    exists q', th. split; [exact Hres | exact Hrest].
  - destruct (Hmain (set_availableThread [idx] q))
      as (q' & th & Hres & Hrest); try done.
    exists q', th. split; [exact Hres|]. cbn in Hrest.
    by rewrite app_nil_r.
Qed.

(** X12. A settlement on an active queue with a backlog gives the oldest item
    to the channel that has just become free: the item leaves the
    backlog, it is posted on the thread of that channel as a new request,
    no channel is idle afterwards, and the handler, if there is one, has
    been called once with the outcome of the settled request. *)
Theorem settlement_takes_oldest script C handler (ops : list (op K T)) q
    k p idx st item rest thrown2 :
  exec ops (constructor script C handler) = Normal tt q →
  _active q = true →
  reactions q !! k = Some (p, idx) → replies q !! p = Some st →
  st ≠ Pending → _queue q = item :: rest →
  ∃ q' th,
    settle k None thrown2 q = Normal tt q'
    ∧ _queue q' = rest ∧ _availableThread q' = []
    ∧ reactions q'
      = delete k (reactions q) ++ [(length (replies q), idx)]
    ∧ _pool q !! idx = Some th
    ∧ _pool q' !! idx
      = Some (Thread.MkThread (Thread.postMessage item (Thread._worker th))
                (Some (length (replies q))) (Some (length (replies q))))
    ∧ delivered q'
      = delivered q
        ++ (if _handler q
            then [match st with
                  | Rejected e => (Some e, Thread.Null)
                  | Fulfilled v => (None, v)
                  | Pending => (None, Thread.Null)
                  end]
            else []).
Proof.
  intros Hrun Hact Hk Hp Hst Hqu.
  pose proof (exec_sound _ _ _ (constructor_sound script C handler) Hrun)
    as [Hq Hs].
  destruct (exec_ends _ _ _ (constructor_sound script C handler)
              (or_introl eq_refl) Hrun) as [Hav | Hnil]; [|congruence].
  pose proof (settle_indices q k p idx Hk) as Hkeep.
  pose proof (keeps_indices_in_pool _ _ Hkeep Hq) as Hq1.
  cbn in Hq1. rewrite Hav in Hq1. cbn in Hq1.
  unfold settle. rewrite Hk, Hp.
  destruct st as [|val|err]; [done| |].
  - destruct (resolve_takes_oldest idx None val
                (set_reactions (delete k (reactions q)) q) item rest)
      as (q' & th & Hres & Hrest); try done.
    rewrite Hres. by exists q', th.
  - destruct (resolve_takes_oldest idx (Some err) Thread.Null
                (set_reactions (delete k (reactions q)) q) item rest)
      as (q' & th & Hres & Hrest); try done.
    by exists q', th.
Qed.
End BacklogFacts.

(** A pool of one channel with a backlog of one item, at the settlement
    of the first item. *)
Lemma settlement_takes_oldest_witness :
  ∃ q' : Queue.t nat nat,
    Queue.exec
      [Queue.Initialize; Queue.Post (Queue.Many [7; 8]%nat) false;
       Queue.WorkerEmits 0 (Thread.OnMessage 70%nat);
       Queue.Settle 0 None None]
      (Queue.constructor "worker.js" 1 true) = Normal tt q'
    ∧ Queue._queue q' = []
    ∧ sent q' = [[7; 8]%nat]
    ∧ Queue.delivered q' = [(None, Thread.Value 70%nat)].
Proof.
  destruct (settlement_takes_oldest (K := nat) (T := nat) "worker.js" 1 true
    [Queue.Initialize; Queue.Post (Queue.Many [7; 8]%nat) false;
     Queue.WorkerEmits 0 (Thread.OnMessage 70%nat)]
    _ 0%nat 0%nat 0%nat (Fulfilled (Thread.Value 70%nat)) 8%nat [] None
    ltac:(vm_compute; reflexivity) eq_refl eq_refl eq_refl
    ltac:(discriminate) eq_refl)
    as (q' & th & Hrun & Hqu & _).
  exists q'. vm_compute in Hrun. injection Hrun as <-.
  split; [vm_compute; reflexivity|]. vm_compute. by repeat split.
Defined.

(** The queue of the witness above has no idle channel beside its
    backlog. *)
Lemma never_idle_with_backlog_witness :
  ∃ q : Queue.t nat nat,
    Queue.exec
      [Queue.Initialize; Queue.Post (Queue.Many [7; 8]%nat) false]
      (Queue.constructor "worker.js" 1 true) = Normal tt q
    ∧ Queue._queue q = [8%nat]
    ∧ (Queue._availableThread q = [] ∨ Queue._queue q = []).
Proof.
  eexists. split; [vm_compute; reflexivity|]. split; [reflexivity|].
  apply (never_idle_with_backlog (K := nat) (T := nat) "worker.js" 1 true
    [Queue.Initialize; Queue.Post (Queue.Many [7; 8]%nat) false]).
  vm_compute; reflexivity.
Defined.

Section Initialize.
Context {K T : Type}.
Import Queue.
Implicit Types (q : Queue.t K T).

(** What the loop of [initialize] builds. *)
Lemma fold_spawn_pool (l : list nat) q :
  let q' := fold_left spawn l q in
  _pool q' = _pool q
             ++ replicate (length l) (Thread.constructor (_consumerScript q))
  ∧ replies q' = replies q ∧ delivered q' = delivered q
  ∧ _handler q' = _handler q.
Proof.
  revert q. induction l as [|i l IH]; intros q; cbn.
  - by rewrite app_nil_r.
  - destruct (IH (spawn q i)) as (-> & -> & -> & ->). cbn.
    by rewrite <- app_assoc.
Qed.

(** X13. Items posted before [initialize()] wait in the backlog, and
    [initialize()] hands the first of them to the new channels in order:
    item [k] goes to channel [k], for as many items as there are
    channels; the other items stay in the backlog in their order, and the
    other channels stay idle in their order. *)
Theorem initialize_dispatches_backlog script C handler (items : list K) :
  ∃ q' : Queue.t K T,
    exec [Post (Many items) false; Initialize]
      (constructor script C handler) = Normal tt q'
    ∧ _queue q' = drop C items
    ∧ _availableThread q'
      = seq (C `min` length items) (C - C `min` length items)
    ∧ reactions q'
      = zip (seq 0 (C `min` length items)) (seq 0 (C `min` length items))
    ∧ (∀ k item, items !! k = Some item → (k < C)%nat →
         sent q' !! k = Some [item])
    ∧ (∀ k, (length items ≤ k < C)%nat → sent q' !! k = Some []).
Proof.
  set (qp := MkQueue (K := K) (T := T) script C handler items [] [] false
               None [] [Fulfilled tt] [] [] []).
  assert (Hpost : step (Post (Many items) false)
                    (constructor script C handler) = Normal tt qp)
    by reflexivity.
  cbn [exec]. rewrite Hpost. cbn [bind step].
  unfold initialize. cbv zeta.
  pose proof (fold_spawn (seq 0 (_concurrence (set_active true qp)))
                (set_active true qp)) as Hfold.
  pose proof (fold_spawn_pool (seq 0 (_concurrence (set_active true qp)))
                (set_active true qp)) as Hfold'.
  cbv zeta in Hfold, Hfold'. revert Hfold Hfold'.
  generalize (fold_left spawn (seq 0 (_concurrence (set_active true qp)))
                (set_active true qp)).
  intros q2 (Hav & Hlen & Hre & _ & _ & _ & _ & Hact & Hqu)
         (Hpool & Hrep & _ & _).
  cbn in Hav, Hlen, Hre, Hact, Hqu, Hpool, Hrep.
  rewrite length_seq in Hlen, Hpool.
  destruct (loop_in_order (length (_queue q2)) q2) as (q' & Hrun & Hp).
  { unfold indices_in_pool. rewrite Hav, Hre, Hlen. cbn.
    rewrite app_nil_r, Forall_forall. intros i Hi%elem_of_seq. lia. }
  { rewrite Hav. apply NoDup_seq. }
  { done. }
  { done. }
  change (_fillThreads_loop (length (_queue q2)) q2)
    with (_fillThreads q2) in Hrun.
  exists q'. rewrite Hrun. cbn [bind exec].
  rewrite Hav, Hqu, length_seq in Hp.
  destruct Hp as [Hb Hi Hr Hrp Hpost' Hoth].
  rewrite Hqu in Hb. rewrite Hav in Hi, Hr. rewrite Hre, Hrep in Hr.
  cbn in Hr. rewrite take_seq in Hr. rewrite drop_seq in Hi. cbn in Hi.
  split_and!; try done.
  - rewrite Hb. destruct (decide (C ≤ length items)%nat).
    + by rewrite Nat.min_l.
    + rewrite Nat.min_r by lia. by rewrite !drop_ge by lia.
  - rewrite Hr. do 2 f_equal. lia.
  - intros k item Hk HkC.
    destruct (Hpost' k k item) as (th & Hth & Hth').
    { rewrite Hav. by apply lookup_seq_lt. }
    { by rewrite Hqu. }
    rewrite Hpool in Hth. rewrite lookup_replicate_2 in Hth by done.
    injection Hth as <-.
    unfold sent. by rewrite list_lookup_fmap, Hth'.
  - intros k [Hk1 Hk2]. unfold sent. rewrite list_lookup_fmap.
    rewrite Hoth.
    + by rewrite Hpool, lookup_replicate_2.
    + rewrite Hav, take_seq. intros Hin%elem_of_seq. lia.
Qed.
End Initialize.

(** The state of a pool of two channels, with three items posted before
    [initialize()], at the moment [initialize()] starts its dispatch
    pass. *)
Lemma dispatch_in_order_witness :
  let q0 : Queue.t nat nat :=
    fold_left Queue.spawn (seq 0 2)
      (Queue.set_active true
         (Queue.set_queue [7; 8; 9]%nat
            (Queue.constructor "worker.js" 2 true))) in
  ∃ q', Queue._fillThreads q0 = Normal tt q'
        ∧ Queue._queue q' = [9%nat]
        ∧ Queue._availableThread q' = []
        ∧ sent q' = [[7%nat]; [8%nat]].
Proof.
  cbv zeta.
  destruct (dispatch_in_order (K := nat) (T := nat)
    (fold_left Queue.spawn (seq 0 2)
      (Queue.set_active true
         (Queue.set_queue [7; 8; 9]%nat
            (Queue.constructor "worker.js" 2 true)))))
    as (q' & Hrun & _).
  - apply (bool_decide_unpack _). vm_compute. reflexivity.
  - apply (bool_decide_unpack _). vm_compute. reflexivity.
  - reflexivity.
  - exists q'. vm_compute in Hrun. injection Hrun as <-.
    vm_compute. by repeat split.
Defined.

Section Paused.
Context {K T : Type}.
Import Queue.
Implicit Types (q : Queue.t K T).

Lemma fillThreads_paused_cases q :
  _active q = false →
  _fillThreads q = Normal tt q ∨ _fillThreads q = Diverges.
Proof.
  intros Hact. unfold _fillThreads.
  destruct (_availableThread q) as [|i idle] eqn:Hav.
  { left. destruct (length (_queue q)); cbn; by rewrite Hav. }
  destruct (_queue q) as [|item rest] eqn:Hqu.
  { left. cbn. by rewrite Hav, Hqu. }
  right. rewrite <- Hqu. apply _fillThreads_loop_stuck; [done | |];
    by rewrite ?Hav, ?Hqu.
Qed.

Lemma on_event_length ev (th th' : Thread.t K) (h h' : store (Thread.reply T)) :
  Thread.on_event ev th h = Normal tt (th', h') →
  th' = th ∧ length h' = length h.
Proof.
  assert (Hrecv : ∀ err data,
    Thread._receiveMessage err data th h = Normal tt (th', h') →
    th' = th ∧ length h' = length h).
  { intros err data. unfold Thread._receiveMessage, Thread.call.
    destruct (Thread._resolver th), (Thread._rejector th); cbn;
      try (by intros [= <- <-]).
    destruct err; intros [= <- <-];
      by rewrite ?resolve_length, ?reject_length. }
  destruct ev as [val | [err|] | signal]; cbn;
    [| | |destruct (signal =? 0)];
    apply Hrecv.
Qed.

(** [_resolve] on a paused queue sends nothing, whether it returns or
    throws. *)
Lemma resolve_paused idx err resp thrown q :
  _active q = false →
  match _resolve idx err resp thrown q with
  | Normal _ q' | Threw _ q' =>
      _active q' = false ∧ _pool q' = _pool q ∧ replies q' = replies q
  | Diverges => True
  end.
Proof.
  intros Hact. unfold _resolve, call_handler. cbv zeta.
  set (q1 := set_availableThread _ q).
  assert (Hfill : ∀ q2,
    _active q2 = false → _pool q2 = _pool q → replies q2 = replies q →
    match bind (_fillThreads q2) (λ _ q3,
            match _onceResolver q3, _queue q3 with
            | Some r, [] =>
                Normal tt (set_signals (resolve r tt (signals q3)) q3)
            | _, _ => Normal tt q3
            end) with
    | Normal _ q' | Threw _ q' =>
        _active q' = false ∧ _pool q' = _pool q ∧ replies q' = replies q
    | Diverges => True
    end).
  { intros q2 H2 Hp2 Hr2.
    destruct (fillThreads_paused_cases q2 H2) as [-> | ->]; cbn; [|done].
    by destruct (_onceResolver q2); [destruct (_queue q2)|]. }
  destruct (_handler q1), thrown; cbn [bind]; try done; by apply Hfill.
Qed.

(** X14. Pausing holds. While the queue is paused, no call or callback other
    than [initialize] and [resume] sends anything to a worker: if it
    returns, the queue is still paused, every thread has been sent the
    same messages as before, and no request has been issued. *)
Theorem paused_queue_sends_nothing (o : op K T) q q' :
  _active q = false → wakes o = false → step o q = Normal tt q' →
  _active q' = false ∧ sent q' = sent q
  ∧ length (replies q') = length (replies q).
Proof.
  intros Hact Ho.
  destruct o as [| | |i once| |p|idx ev|k thrown1 thrown2]; try done;
    cbn [step]; unfold forget.
  - by intros [= <-].
  - unfold post. destruct (alloc (signals q)) as [r sg].
    set (q1 := set_queue _ _).
    assert (H1 : _active q1 = false) by done.
    destruct (0 <? _)%nat.
    + destruct (fillThreads_paused_cases q1 H1) as [-> | ->]; [|done].
      destruct once; cbn; by intros [= <-].
    + destruct once; cbn; by intros [= <-].
  - unfold stop. destruct (alloc (signals q)) as [r sg]. cbn.
    intros [= <-]. unfold stop_loop. destruct (negb _); cbn; [done|].
    split_and!; try done. unfold sent. cbn.
    rewrite <- list_fmap_compose. by apply list_fmap_ext.
  - unfold stop_wake. destruct (bool_decide _); intros [= <-]; [|done].
    unfold stop_loop. destruct (negb _); cbn; [done|].
    split_and!; try done. unfold sent. cbn.
    rewrite <- list_fmap_compose. by apply list_fmap_ext.
  - unfold worker_emits. destruct (_pool q !! idx) as [th|] eqn:Hth;
      [|by intros [= <-]].
    destruct (Thread.on_event ev th (replies q)) as [[] [th' h']|? []|]
      eqn:Hev; try done.
    apply on_event_length in Hev as [-> Hlen].
    intros [= <-]. cbn. rewrite (list_insert_id _ _ _ Hth). done.
  - unfold settle.
    destruct (reactions q !! k) as [[p idx]|]; [|by intros [= <-]].
    set (q1 := set_reactions _ q).
    assert (H1 : _active q1 = false) by done.
    destruct (replies q !! p) as [[|val|err]|]; try by intros [= <-].
    + pose proof (resolve_paused idx None val thrown1 q1 H1) as Hres.
      destruct (_resolve idx None val thrown1 q1) as [[] q2|e q2|];
        [| |done].
      * intros [= <-]. destruct Hres as (-> & Hp & ->).
        unfold sent. by rewrite Hp.
      * destruct Hres as (H2 & Hp2 & Hr2).
        pose proof (resolve_paused idx (Some e) Thread.Null thrown2 q2 H2)
          as Hres2.
        destruct (_resolve idx (Some e) Thread.Null thrown2 q2)
          as [[] q3|e' q3|];
          try done.
        intros [= <-]. destruct Hres2 as (-> & Hp3 & ->).
        unfold sent. by rewrite Hp3, Hp2, Hr2.
    + pose proof (resolve_paused idx (Some err) Thread.Null thrown1 q1 H1)
        as Hres.
      destruct (_resolve idx (Some err) Thread.Null thrown1 q1)
        as [[] q2|e q2|];
        try done.
      intros [= <-]. destruct Hres as (-> & Hp & ->).
      unfold sent. by rewrite Hp.
Qed.

(** X15. What pausing costs. On a paused queue, [post] does not return when
    a channel is idle and the backlog it leaves is not empty, and a
    settlement does not return when the backlog is not empty: the loop of
    [_fillThreads] does not test the active flag, and [_consume] does
    nothing on a paused queue. *)
Theorem paused_queue_hangs q :
  _active q = false →
  (∀ i once,
     _availableThread q ≠ [] → _queue q ++ pushed i ≠ [] →
     post i once q = Diverges)
  ∧ (∀ k p idx st thrown2,
       reactions q !! k = Some (p, idx) → replies q !! p = Some st →
       st ≠ Pending → _queue q ≠ [] →
       settle k None thrown2 q = Diverges).
Proof.
  intros Hact. split.
  - intros i once Hav Hqu. unfold post.
    destruct (alloc (signals q)) as [r sg].
    set (q1 := set_queue _ _).
    assert (Hlen : (0 <? length (_availableThread q1))%nat = true).
    { subst q1. cbn. destruct (_availableThread q); [done|reflexivity]. }
    rewrite Hlen. unfold _fillThreads.
    rewrite _fillThreads_loop_stuck; done.
  - intros k p idx st thrown2 Hk Hp Hst Hqu. unfold settle.
    rewrite Hk, Hp.
    assert (Hres : ∀ err resp,
      _resolve idx err resp None (set_reactions (delete k (reactions q)) q)
      = Diverges).
    { intros err resp. unfold _resolve, call_handler. cbv zeta.
      set (q1 := set_availableThread _ _).
      assert (Hdiv : ∀ q2, _active q2 = false →
                _availableThread q2 = _availableThread q ++ [idx] →
                _queue q2 = _queue q → _fillThreads q2 = Diverges).
      { intros q2 H2 Hav2 Hqu2. unfold _fillThreads.
        apply _fillThreads_loop_stuck; [done | |].
        - rewrite Hav2. by destruct (_availableThread q).
        - by rewrite Hqu2. }
      destruct (_handler q1); cbn [bind]; by rewrite Hdiv. }
    destruct st as [|val|err]; [done | |]; by rewrite Hres.
Qed.
End Paused.

(** A pool of one channel paused while its channel is busy: posting more
    items only grows the backlog. *)
Lemma paused_queue_sends_nothing_witness :
  ∃ q q' : Queue.t nat nat,
    Queue.exec
      [Queue.Initialize; Queue.Post (Queue.One 7%nat) false; Queue.Pause]
      (Queue.constructor "worker.js" 1 true) = Normal tt q
    ∧ Queue.step (Queue.Post (Queue.Many [8; 9]%nat) false) q = Normal tt q'
    ∧ Queue._queue q' = [8; 9]%nat
    ∧ sent q' = sent q.
Proof.
  eexists _, _. split; [vm_compute; reflexivity|].
  split; [vm_compute; reflexivity|]. split; [reflexivity|].
  refine (proj1 (proj2 (paused_queue_sends_nothing (K := nat) (T := nat)
            (Queue.Post (Queue.Many [8; 9]%nat) false) _ _ _ _ _)));
    vm_compute; reflexivity.
Defined.

(** A pool of one channel paused while idle, and paused while busy with
    a backlog. *)
Lemma paused_queue_hangs_witness :
  (∃ q : Queue.t nat nat,
     Queue.exec [Queue.Initialize; Queue.Pause]
       (Queue.constructor "worker.js" 1 true) = Normal tt q
     ∧ Queue.post (Queue.One 7%nat) false q = Diverges)
  ∧ (∃ q : Queue.t nat nat,
       Queue.exec
         [Queue.Initialize; Queue.Post (Queue.Many [7; 8]%nat) false;
          Queue.Pause; Queue.WorkerEmits 0 (Thread.OnMessage 70%nat)]
         (Queue.constructor "worker.js" 1 true) = Normal tt q
       ∧ Queue.settle 0 None None q = Diverges).
Proof.
  split.
  - eexists. split; [vm_compute; reflexivity|].
    refine (proj1 (paused_queue_hangs (K := nat) (T := nat) _ _) _ _ _ _);
      [reflexivity | discriminate | discriminate].
  - eexists. split; [vm_compute; reflexivity|].
    refine (proj2 (paused_queue_hangs (K := nat) (T := nat) _ _)
              0%nat 0%nat 0%nat (Fulfilled (Thread.Value 70%nat)) None _ _ _ _);
      [reflexivity | reflexivity | reflexivity | discriminate | discriminate].
Defined.

Section Deliveries.
Context {K T : Type}.
Import Queue.
Implicit Types (q : Queue.t K T).

Lemma consume_issues q q' : _consume q = Normal tt q' → issues q q'.
Proof.
  unfold _consume, issues. destruct (_active q); cbn; [|by intros [= <-]].
  destruct (_availableThread q) as [|i idle]; [by intros [= <-]|].
  destruct (_queue q) as [|item rest]; [by intros [= <-]|].
  destruct (_pool q !! i); [|done]. intros [= <-]. cbn -[length].
  rewrite !length_app. cbn. split_and!; try done.
  lia.
Qed.

Lemma fillThreads_loop_issues fuel q q' :
  _fillThreads_loop fuel q = Normal tt q' → issues q q'.
Proof.
  revert q. induction fuel as [|fuel IH]; intros q; cbn.
  - destruct (_ && _); [done | by intros [= <-]].
  - destruct (_ && _); [|by intros [= <-]].
    destruct (_consume q) as [[] q1| |] eqn:Hc; cbn; try done.
    intros Hrun. apply IH in Hrun as (Hd & Hh & Hn).
    apply consume_issues in Hc as (Hd1 & Hh1 & Hn1).
    unfold issues. split_and!; try congruence. lia.
Qed.

Lemma resolve_delivers idx err resp q q' :
  _handler q = true →
  _resolve idx err resp None q = Normal tt q' →
  delivered q' = delivered q ++ [(err, resp)] ∧ _handler q' = true
  ∧ (length (replies q') + length (reactions q)
     = length (replies q) + length (reactions q'))%nat.
Proof.
  intros Hh. unfold _resolve, call_handler. cbv zeta.
  change (_handler (set_availableThread (_availableThread q ++ [idx]) q))
    with (_handler q). rewrite Hh. cbn [bind].
  set (q2 := set_delivered _ _).
  destruct (_fillThreads q2) as [[] q3| |] eqn:Hrun; cbn; try done.
  apply fillThreads_loop_issues in Hrun as (Hd & Hh3 & Hn).
  subst q2. cbn in Hd, Hh3, Hn.
  destruct (_onceResolver q3); [destruct (_queue q3)|]; intros [= <-]; cbn;
    split_and!; congruence.
Qed.

Lemma issues_ok q q' : issues q q' → deliveries_ok q → deliveries_ok q'.
Proof.
  intros (Hd & Hh & Hn) [Dh Dc De]. unfold delivered_or_in_flight in *.
  split; unfold delivered_or_in_flight; rewrite ?Hd, ?Hh; try done. lia.
Qed.

Lemma settle_ok k thrown2 q q' :
  sound q → deliveries_ok q →
  settle k None thrown2 q = Normal tt q' → deliveries_ok q'.
Proof.
  intros [Hq Hs] [Dh Dc De]. unfold settle.
  destruct (reactions q !! k) as [[p idx]|] eqn:Hk; [|by intros [= <-]].
  set (q1 := set_reactions (delete k (reactions q)) q).
  assert (Hs1 : signals_ok q1) by (destruct Hs; by split).
  pose proof (settle_indices q k p idx Hk) as Hkeep.
  pose proof (keeps_indices_in_pool _ _ Hkeep Hq) as Hq1.
  assert (Hlen : length (reactions q) = S (length (reactions q1))).
  { subst q1. cbn. rewrite length_delete by by eexists.
    apply lookup_lt_Some in Hk. lia. }
  assert (Hdone : ∀ err resp q',
    exclusive (err, resp) →
    _resolve idx err resp None q1 = Normal tt q' → deliveries_ok q').
  { intros err resp q0 Hex Hres.
    apply resolve_delivers in Hres as (Hd & Hh & Hn); [|done].
    change (delivered q1) with (delivered q) in Hd.
    change (replies q1) with (replies q) in Hn.
    unfold delivered_or_in_flight in *.
    split; unfold delivered_or_in_flight; rewrite ?Hd; try done.
    - rewrite length_app. cbn [length]. lia.
    - rewrite Forall_app. split; [done | by constructor]. }
  destruct (replies q !! p) as [[|val|err]|]; try by intros [= <-].
  - pose proof (resolve_sound idx None val None q1 Hq1 Hs1) as Hres.
    destruct (_resolve idx None val None q1) as [[] q2|e q2|] eqn:Hrun;
      [|by destruct Hres|done].
    intros [= <-]. eapply Hdone; [|exact Hrun]. by left.
  - apply Hdone. by right.
Qed.

Lemma step_ok (o : op K T) q q' :
  calm o = true → sound q → deliveries_ok q →
  step o q = Normal tt q' → deliveries_ok q'.
Proof.
  intros Ho Hq Dq.
  destruct o as [| | |i once| |p|idx ev|k [e1|] thrown2]; try done;
    cbn [step]; unfold forget.
  - unfold initialize. cbv zeta.
    pose proof (fold_spawn (seq 0 (_concurrence (set_active true q)))
                  (set_active true q)) as Hfold.
    pose proof (fold_spawn_pool (seq 0 (_concurrence (set_active true q)))
                  (set_active true q)) as Hfold'.
    cbv zeta in Hfold, Hfold'. revert Hfold Hfold'.
    generalize (fold_left spawn (seq 0 (_concurrence (set_active true q)))
                  (set_active true q)).
    intros q2 (_ & _ & Hre & _) (_ & Hrep & Hdel & Hh) Hrun.
    cbn in Hre, Hrep, Hdel, Hh.
    apply fillThreads_loop_issues in Hrun.
    apply (issues_ok q2 q' Hrun).
    destruct Dq as [Dh Dc De]. unfold delivered_or_in_flight in *.
    split; unfold delivered_or_in_flight; by rewrite ?Hre, ?Hrep, ?Hdel, ?Hh.
  - intros [= <-]. destruct Dq. by split.
  - unfold resume. intros Hrun. apply fillThreads_loop_issues in Hrun.
    apply (issues_ok _ _ Hrun). destruct Dq. by split.
  - unfold post. destruct (alloc (signals q)) as [r sg].
    set (q1 := set_queue _ _).
    assert (D1 : deliveries_ok q1) by (destruct Dq; by split).
    assert (Hq1 : indices_in_pool q1) by apply Hq.
    destruct (0 <? _)%nat.
    + pose proof (fillThreads_dispatched q1 Hq1) as Hd.
      destruct (_fillThreads q1) as [[] q2| |] eqn:Hrun; [|done|done].
      apply fillThreads_loop_issues in Hrun.
      pose proof (issues_ok _ _ Hrun D1) as [].
      destruct once; cbn; intros [= <-]; by split.
    + destruct D1. destruct once; cbn; intros [= <-]; by split.
  - unfold stop. destruct (alloc (signals q)) as [r sg]. cbn.
    intros [= <-]. unfold stop_loop. destruct Dq.
    destruct (negb _); by split.
  - unfold stop_wake. destruct (bool_decide _); intros [= <-]; [|done].
    unfold stop_loop. destruct Dq. destruct (negb _); by split.
  - unfold worker_emits. destruct (_pool q !! idx) as [th|] eqn:Hth;
      [|by intros [= <-]].
    destruct (Thread.on_event ev th (replies q)) as [[] [th' h']|? []|]
      eqn:Hev; try done.
    apply on_event_length in Hev as [-> Hlen].
    intros [= <-]. destruct Dq as [Dh Dc De].
    unfold delivered_or_in_flight in *.
    split; unfold delivered_or_in_flight; cbn; try done. by rewrite Hlen.
  - by apply settle_ok.
Qed.

(** X16. No request is lost and none is reported twice. On a queue with a
    handler that never throws, in every state reached from the
    constructor: every request issued to a channel is either still in
    flight or has been reported to the handler exactly once, and no call
    of the handler carried both an error and data. *)
Theorem every_request_reported_once script C (ops : list (op K T)) q :
  forallb calm ops = true →
  exec ops (constructor script C true) = Normal tt q →
  length (replies q) = (length (delivered q) + length (reactions q))%nat
  ∧ Forall (λ d, d.1 = None ∨ d.2 = Thread.Null) (delivered q).
Proof.
  intros Hops Hrun.
  assert (Hinv : ∀ ops q0 q',
    forallb calm ops = true → sound q0 → deliveries_ok q0 →
    exec ops q0 = Normal tt q' → deliveries_ok q').
  { clear. induction ops as [|o ops IH]; intros q0 q' Hops Hq D0; cbn.
    - by intros [= <-].
    - cbn in Hops. apply andb_true_iff in Hops as [Ho Hops].
      pose proof (step_sound o q0 Hq) as Hs.
      destruct (step o q0) as [[] q1| |] eqn:Hstep; try done. cbn.
      apply IH; [done | done |]. exact (step_ok o q0 q1 Ho Hq D0 Hstep). }
  destruct (Hinv ops (constructor script C true) q Hops) as [_ Dc De];
    [apply constructor_sound | by split | done | done].
Qed.
End Deliveries.

(** Three items on two channels, two of them answered, one with an
    error. *)
Lemma every_request_reported_once_witness :
  ∃ q : Queue.t nat nat,
    Queue.exec
      [Queue.Initialize; Queue.Post (Queue.Many [7; 8; 9]%nat) false;
       Queue.WorkerEmits 1 (Thread.OnError (Some (MkError "boom")));
       Queue.Settle 1 None None;
       Queue.WorkerEmits 0 (Thread.OnMessage 70%nat);
       Queue.Settle 0 None None]
      (Queue.constructor "worker.js" 2 true) = Normal tt q
    ∧ Queue.delivered q
      = [(Some (MkError "boom"), Thread.Null); (None, Thread.Value 70%nat)]
    ∧ length (Queue.replies q)
      = (length (Queue.delivered q) + length (Queue.reactions q))%nat.
Proof.
  eexists. split; [vm_compute; reflexivity|]. split; [reflexivity|].
  refine (proj1 (every_request_reported_once (K := nat) (T := nat)
    "worker.js" 2
    [Queue.Initialize; Queue.Post (Queue.Many [7; 8; 9]%nat) false;
     Queue.WorkerEmits 1 (Thread.OnError (Some (MkError "boom")));
     Queue.Settle 1 None None;
     Queue.WorkerEmits 0 (Thread.OnMessage 70%nat);
     Queue.Settle 0 None None] _ _ _)); vm_compute; reflexivity.
Defined.
